(** * CountIn: person tracker and line manager

    A shallow embedding of the two algorithmic classes of the CountIn
    people counter: [PersonTracker] (frame-to-frame association of
    detections to tracks) and [LineManager] (boundary registry, crossing
    test, deduplication and counters), and of the part of the application
    class [CountInApp] that joins them: the frame loop, [onTrackUpdated]
    and [onLineCrossed].

    Conventions of the embedding:
    - a JS number that carries a coordinate, an area or a score is an exact
      rational ([Q]): no rounding, no overflow, no [NaN]; where rounding or
      overflow in the doubles of the source would matter to a statement, the
      statement is made for inputs ([whole], [moderate]) on which the source
      computes without them;
    - a track id, a boundary id, a counter or an array index is a [nat]; a
      [Date.now()] reading is a [Z] handed to the operation that reads the
      clock, and one reading stands for the readings an operation makes in
      a row;
    - a JS object keyed by integers is a [gmap nat _]; its enumeration
      ([Object.keys], [for..in]) is by ascending key, as the language
      prescribes for integer-like keys;
    - the [Map] of recent crossings is a [gmap string _] under the very
      string keys the source builds; a [Set] of ids is a [gset nat];
    - a method that mutates [this] becomes a function returning the new
      object, together with what it hands to its callbacks;
    - drawing on the canvas, colours, console output and the callbacks
      other than [onTrackUpdated] and [onLineCrossed] have no effect on
      the state modelled here and are left out; so is the synthetic
      detector, which draws random numbers. *)

From Stdlib Require Import Ascii QArith Qabs Qminmax Qfield ZArith Lia Lqa.
From stdpp Require Import gmap strings pretty list sorting.

(** ** Numbers *)

(** [a < b] on JS numbers. *)
Definition Qltb (a b : Q) : bool := negb (Qle_bool b a).

(** A whole number of at most 2^24 in magnitude. The sums, differences
    and products that the source forms of such numbers are whole numbers
    below 2^53 in magnitude: its double arithmetic computes them without
    rounding, as the rationals here do. *)
Definition whole (v : Q) : Prop := ∃ z : Z, v = inject_Z z ∧ (Z.abs z ≤ 2 ^ 24)%Z.

Definition wholePoint (p : Q * Q) : Prop := whole p.1 ∧ whole p.2.

(** A number of at most 2^500 in magnitude: a product of two such numbers
    and a difference of two such products are finite in the double
    arithmetic of the source. *)
Definition moderate (v : Q) : Prop := (Qabs v <= inject_Z (2 ^ 500))%Q.

Definition moderatePoint (p : Q * Q) : Prop := moderate p.1 ∧ moderate p.2.

(** [v || d] for a numeric option: an absent or zero value gives the default. *)
Definition or_default_nat (v : option nat) (d : nat) : nat :=
  match v with
  | Some (S n) => S n
  | _ => d
  end.

Definition or_default_Q (v : option Q) (d : Q) : Q :=
  match v with
  | Some q => if Qeq_bool q 0 then d else q
  | None => d
  end.

(** [Object.keys] of an object with integer keys: ascending order. *)
Definition Object_keys {V} (m : gmap nat V) : list nat :=
  merge_sort Nat.le (elements (dom m)).

(** [Object.values]: the values in the order of [Object_keys]. *)
Definition Object_values {V} (m : gmap nat V) : list V :=
  omap (λ k, m !! k) (Object_keys m).

Module Tracker.

Definition BBox : Type := Q * Q * Q * Q.

(** A prediction of the detector; a detection is a prediction that passed
    the filter of [detectPeople]. *)
Record Detection := mkDetection {
  det_class : string;
  det_score : Q;
  det_bbox : BBox;
  det_isMovingAcross : option bool
}.

Record HistoryEntry := mkHistoryEntry {
  timestamp : Z;
  h_bbox : BBox;
  centroid : Q * Q;
  score : Q
}.

Record Track := mkTrack {
  id : nat;
  bbox : BBox;
  lastSeen : Z;
  history : list HistoryEntry;
  isMovingAcross : option bool
}.

Record Options := mkOptions {
  opt_confidenceThreshold : option Q;
  opt_maxDisappearedFrames : option nat;
  opt_historyLength : option nat
}.

Record PersonTracker := mkPersonTracker {
  confidenceThreshold : Q;
  maxDisappearedFrames : nat;
  historyLength : nat;
  isModelLoaded : bool;
  nextTrackId : nat;
  tracks : gmap nat Track;
  disappeared : gmap nat nat
}.

Definition constructor (options : Options) : PersonTracker :=
  {| confidenceThreshold := or_default_Q (opt_confidenceThreshold options) (4 # 10);
     maxDisappearedFrames := or_default_nat (opt_maxDisappearedFrames options) 15;
     historyLength := or_default_nat (opt_historyLength options) 10;
     isModelLoaded := false;
     nextTrackId := 1;
     tracks := ∅;
     disappeared := ∅ |}.

Definition set_tracks (self : PersonTracker) (t : gmap nat Track) : PersonTracker :=
  {| confidenceThreshold := confidenceThreshold self;
     maxDisappearedFrames := maxDisappearedFrames self;
     historyLength := historyLength self;
     isModelLoaded := isModelLoaded self;
     nextTrackId := nextTrackId self;
     tracks := t;
     disappeared := disappeared self |}.

Definition set_disappeared (self : PersonTracker) (d : gmap nat nat) : PersonTracker :=
  {| confidenceThreshold := confidenceThreshold self;
     maxDisappearedFrames := maxDisappearedFrames self;
     historyLength := historyLength self;
     isModelLoaded := isModelLoaded self;
     nextTrackId := nextTrackId self;
     tracks := tracks self;
     disappeared := d |}.

Definition set_nextTrackId (self : PersonTracker) (n : nat) : PersonTracker :=
  {| confidenceThreshold := confidenceThreshold self;
     maxDisappearedFrames := maxDisappearedFrames self;
     historyLength := historyLength self;
     isModelLoaded := isModelLoaded self;
     nextTrackId := n;
     tracks := tracks self;
     disappeared := disappeared self |}.

Definition set_isModelLoaded (self : PersonTracker) (b : bool) : PersonTracker :=
  {| confidenceThreshold := confidenceThreshold self;
     maxDisappearedFrames := maxDisappearedFrames self;
     historyLength := historyLength self;
     isModelLoaded := b;
     nextTrackId := nextTrackId self;
     tracks := tracks self;
     disappeared := disappeared self |}.

(** What [updateTracks] returns next to the new [this.tracks], and the
    calls it made to [onTrackUpdated]. *)
Record Result := mkResult {
  updated : list nat;
  res_disappeared : list nat;
  callbacks : list (nat * Track)
}.

(** The outcome of the detector adapter for one frame. *)
Inductive DetectorOutcome :=
| Predictions (preds : list Detection)
| Throws (error : string).

(** [detectPeople]: the [try] filters the predictions, the [catch] returns
    the empty array. *)
Definition detectPeople (self : PersonTracker) (outcome : DetectorOutcome) : list Detection :=
  match outcome with
  | Predictions predictions =>
      filter (λ pred, det_class pred = "person" ∧
                      Qle_bool (confidenceThreshold self) (det_score pred) = true)
             predictions
  | Throws _ => []
  end.

Definition centroid_of (b : BBox) : Q * Q :=
  let '(x, y, width, height) := b in
  (x + width / 2, y + height / 2)%Q.

Definition initializeTrack (trackId : nat) (detection : Detection) (now : Z) : Track :=
  {| id := trackId;
     bbox := det_bbox detection;
     lastSeen := now;
     history := [ {| timestamp := now;
                     h_bbox := det_bbox detection;
                     centroid := centroid_of (det_bbox detection);
                     score := det_score detection |} ];
     isMovingAcross := det_isMovingAcross detection |}.

(** [updateTrack]: push the new entry, then one [shift] when the length
    exceeds [historyLength]. *)
Definition updateTrack (self : PersonTracker) (track : Track) (detection : Detection)
    (now : Z) : Track :=
  let pushed := history track ++
                  [ {| timestamp := now;
                       h_bbox := det_bbox detection;
                       centroid := centroid_of (det_bbox detection);
                       score := det_score detection |} ] in
  {| id := id track;
     bbox := det_bbox detection;
     lastSeen := now;
     history := if (historyLength self <? length pushed)%nat then tail pushed else pushed;
     isMovingAcross := match det_isMovingAcross detection with
                       | Some b => Some b
                       | None => isMovingAcross track
                       end |}.

Definition calculateIoU (bbox1 bbox2 : BBox) : Q :=
  let '(ax, ay, aw, ah) := bbox1 in
  let '(bx, by_, bw, bh) := bbox2 in
  let b1x1 := ax in let b1y1 := ay in
  let b1x2 := (ax + aw)%Q in let b1y2 := (ay + ah)%Q in
  let b2x1 := bx in let b2y1 := by_ in
  let b2x2 := (bx + bw)%Q in let b2y2 := (by_ + bh)%Q in
  let xOverlap := Qmax 0 (Qmin b1x2 b2x2 - Qmax b1x1 b2x1) in
  let yOverlap := Qmax 0 (Qmin b1y2 b2y2 - Qmax b1y1 b2y1) in
  let intersectionArea := (xOverlap * yOverlap)%Q in
  let box1Area := ((b1x2 - b1x1) * (b1y2 - b1y1))%Q in
  let box2Area := ((b2x2 - b2x1) * (b2y2 - b2y1))%Q in
  let unionArea := (box1Area + box2Area - intersectionArea)%Q in
  if Qltb 0 unionArea then (intersectionArea / unionArea)%Q else 0%Q.

(** One row per track, in the order of [Object.values(this.tracks)]. *)
Definition calculateIoUMatrix (self : PersonTracker) (detections : list Detection)
    : list (list Q) :=
  map (λ track, map (λ detection, calculateIoU (bbox track) (det_bbox detection)) detections)
      (Object_values (tracks self)).

Definition minIoU : Q := 3 # 10.

(** The inner [for j] loop of [matchDetectionsToTracks]; [maxIdx = None]
    stands for the initial [-1]. *)
Fixpoint scanRow (matchedDetections : gset nat) (trackIoUs : list Q) (j : nat)
    (maxIoU : Q) (maxIdx : option nat) : Q * option nat :=
  match trackIoUs with
  | [] => (maxIoU, maxIdx)
  | v :: rest =>
      if negb (bool_decide (j ∈ matchedDetections)) && Qltb maxIoU v
      then scanRow matchedDetections rest (S j) v (Some j)
      else scanRow matchedDetections rest (S j) maxIoU maxIdx
  end.

(** The outer [for i] loop, from row [i] on. [trackIds[i]] is always
    defined when the matrix comes from [calculateIoUMatrix]; 0 stands
    for [undefined] otherwise. *)
Fixpoint matchRows (trackIds : list nat) (rows : list (list Q)) (i : nat)
    (matched : list (nat * nat)) (matchedDetections : gset nat)
    : list (nat * nat) * gset nat :=
  match rows with
  | [] => (matched, matchedDetections)
  | trackIoUs :: rest =>
      let trackId := default 0%nat (trackIds !! i) in
      let '(maxIoU, maxIdx) := scanRow matchedDetections trackIoUs 0 (-1)%Q None in
      match Qle_bool minIoU maxIoU, maxIdx with
      | true, Some j =>
          matchRows trackIds rest (S i) (matched ++ [(trackId, j)])
                    ({[ j ]} ∪ matchedDetections)
      | _, _ => matchRows trackIds rest (S i) matched matchedDetections
      end
  end.

(** [matchDetectionsToTracks]: pairs [(trackId, detectionIdx)] and the
    indices of the detections left over. *)
Definition matchDetectionsToTracks (self : PersonTracker) (iouMatrix : list (list Q))
    (detections : list Detection) : list (nat * nat) * list nat :=
  if (length iouMatrix =? 0)%nat then ([], seq 0 (length detections))
  else
    let trackIds := Object_keys (tracks self) in
    let '(matched, matchedDetections) := matchRows trackIds iouMatrix 0 [] ∅ in
    (matched,
     filter (λ i, i ∉ matchedDetections) (seq 0 (length detections))).

(** One iteration of the [for (const trackId in this.tracks)] loop of
    [handleDisappearances]. *)
Definition disappearStep (self : PersonTracker)
    (acc : gmap nat nat * gmap nat Track * list nat) (trackId : nat)
    : gmap nat nat * gmap nat Track * list nat :=
  let '(dis, currentTracks, gone) := acc in
  match currentTracks !! trackId with
  | Some _ => acc
  | None =>
      let n := S (default 0%nat (dis !! trackId)) in
      let dis' := <[trackId := n]> dis in
      if (maxDisappearedFrames self <? n)%nat
      then (dis', currentTracks, gone ++ [trackId])
      else match tracks self !! trackId with
           | Some track => (dis', <[trackId := track]> currentTracks, gone)
           | None => (dis', currentTracks, gone)
           end
  end.

Definition handleDisappearances (self : PersonTracker) (currentTracks : gmap nat Track)
    (updated : list nat) (cbs : list (nat * Track)) : PersonTracker * Result :=
  let '(dis, currentTracks', gone) :=
    fold_left (disappearStep self) (Object_keys (tracks self))
              (disappeared self, currentTracks, []) in
  let dis' := fold_left (λ d trackId, delete trackId d) gone dis in
  (set_tracks (set_disappeared self dis') currentTracks',
   {| updated := updated; res_disappeared := gone; callbacks := cbs |}).

(** Loop state of [updateTracks]: [this], [currentTracks], [updated] and
    the [onTrackUpdated] calls made so far. *)
Definition LoopState : Type :=
  PersonTracker * gmap nat Track * list nat * list (nat * Track).

(** Body of the loop over [matched]. The track object is updated in
    place, so both [this.tracks] and [currentTracks] hold the new value. *)
Definition matchedStep (detections : list Detection) (now : Z)
    (st : LoopState) (m : nat * nat) : LoopState :=
  let '(self, currentTracks, upd, cbs) := st in
  let '(trackId, detectionIdx) := m in
  match detections !! detectionIdx, tracks self !! trackId with
  | Some detection, Some track =>
      let track' := updateTrack self track detection now in
      (set_disappeared (set_tracks self (<[trackId := track']> (tracks self)))
                       (<[trackId := 0%nat]> (disappeared self)),
       <[trackId := track']> currentTracks,
       upd ++ [trackId],
       cbs ++ [(trackId, track')])
  | _, _ => st
  end.

(** Body of the loop over [unmatched]. *)
Definition unmatchedStep (detections : list Detection) (now : Z)
    (st : LoopState) (detectionIdx : nat) : LoopState :=
  let '(self, currentTracks, upd, cbs) := st in
  match detections !! detectionIdx with
  | Some detection =>
      let trackId := nextTrackId self in
      let newTrack := initializeTrack trackId detection now in
      (set_disappeared (set_nextTrackId self (S trackId))
                       (<[trackId := 0%nat]> (disappeared self)),
       <[trackId := newTrack]> currentTracks,
       upd ++ [trackId],
       cbs)
  | None => st
  end.

(** Body of the [forEach] that creates the first tracks. *)
Definition firstStep (now : Z) (st : LoopState) (detection : Detection) : LoopState :=
  let '(self, currentTracks, upd, cbs) := st in
  let trackId := nextTrackId self in
  (set_nextTrackId self (S trackId),
   <[trackId := initializeTrack trackId detection now]> currentTracks,
   upd ++ [trackId],
   cbs).

Definition updateTracks (self : PersonTracker) (detections : list Detection) (now : Z)
    : PersonTracker * Result :=
  if (length detections =? 0)%nat then handleDisappearances self ∅ [] []
  else if (length (Object_keys (tracks self)) =? 0)%nat then
    let '(self', currentTracks, upd, cbs) :=
      fold_left (firstStep now) detections (self, ∅, [], []) in
    (set_tracks self' currentTracks,
     {| updated := upd; res_disappeared := []; callbacks := cbs |})
  else
    let iouMatrix := calculateIoUMatrix self detections in
    let '(matched, unmatched) := matchDetectionsToTracks self iouMatrix detections in
    let st1 := fold_left (matchedStep detections now) matched (self, ∅, [], []) in
    let '(self2, currentTracks, upd, cbs) :=
      fold_left (unmatchedStep detections now) unmatched st1 in
    handleDisappearances self2 currentTracks upd cbs.

(** [processFrame] with the real detector: it throws when the model is
    not loaded, else it detects and updates the tracks. *)
Definition processFrame (self : PersonTracker) (outcome : DetectorOutcome) (now : Z)
    : string + PersonTracker * Result :=
  if negb (isModelLoaded self)
  then inl "Tracker model not initialized. Call initialize() first."
  else inr (updateTracks self (detectPeople self outcome) now).

(** The matching of one frame, as [updateTracks] computes it. *)
Definition association (self : PersonTracker) (detections : list Detection)
    : list (nat * nat) * list nat :=
  matchDetectionsToTracks self (calculateIoUMatrix self detections) detections.

(** Frames processed one after the other. *)
Definition run (self : PersonTracker) (frames : list (list Detection * Z)) : PersonTracker :=
  fold_left (λ s f, (updateTracks s f.1 f.2).1) frames self.

End Tracker.

Module LineManager.

Definition Point : Type := Q * Q.

(** ['line'] or ['area']. *)
Inductive BType := line | area.

Inductive Orientation := vertical | horizontal.

(** ['in'] or ['out']. *)
Inductive Direction := dir_in | dir_out.

(** The geometry an object carries: [start]/[end], or [points]. *)
Inductive Shape :=
| Segment (start end_ : Point)
| Polygon (points : list Point).

(** The argument of [addLine]. A request without [type] or with type
    ['line'] must carry [start] and [end] (the orientation reads them); an
    ['area'] carries [points] or, in the rectangle form, [start]/[end]. *)
Inductive Request :=
| LineReq (name : option string) (start end_ : Point)
| AreaReq (name : option string) (shape : Shape).

Record Boundary := mkBoundary {
  id : nat;
  type : BType;
  name : string;
  orientation : option Orientation;
  shape : Shape;
  (** only areas have the set; a line keeps it empty and never reads it *)
  peopleInside : gset nat
}.

Record Counts := mkCounts { count_in : nat; count_out : nat }.

(** A value of the [crossedTracks] map. *)
Record Crossing := mkCrossing { timestamp : Z; direction : Direction }.

Record CrossingEvent := mkEvent {
  ev_lineId : nat;
  ev_lineName : string;
  ev_personId : nat;
  ev_direction : Direction;
  ev_position : Point;
  ev_timestamp : Z
}.

Record Drawing := mkDrawing {
  isDrawingEnabled : bool;
  isDrawing : bool;
  drawingLine : option (Point * Point);
  drawingMode : BType;
  drawingPoints : list Point
}.

Record LineManager := mkLineManager {
  canvas_width : Q;
  canvas_height : Q;
  videoWidth : Q;
  videoHeight : Q;
  lines : list Boundary;
  nextLineId : nat;
  lineCrossings : gmap nat Counts;
  crossedTracks : gmap string Crossing;
  drawing : Drawing
}.

Definition constructor (cw ch vw vh : Q) : LineManager :=
  {| canvas_width := cw; canvas_height := ch; videoWidth := vw; videoHeight := vh;
     lines := [];
     nextLineId := 1;
     lineCrossings := ∅;
     crossedTracks := ∅;
     drawing := {| isDrawingEnabled := false; isDrawing := false; drawingLine := None;
                   drawingMode := line; drawingPoints := [] |} |}.

Definition set_lines (self : LineManager) (l : list Boundary) : LineManager :=
  mkLineManager (canvas_width self) (canvas_height self) (videoWidth self) (videoHeight self)
    l (nextLineId self) (lineCrossings self) (crossedTracks self) (drawing self).

Definition set_nextLineId (self : LineManager) (n : nat) : LineManager :=
  mkLineManager (canvas_width self) (canvas_height self) (videoWidth self) (videoHeight self)
    (lines self) n (lineCrossings self) (crossedTracks self) (drawing self).

Definition set_lineCrossings (self : LineManager) (c : gmap nat Counts) : LineManager :=
  mkLineManager (canvas_width self) (canvas_height self) (videoWidth self) (videoHeight self)
    (lines self) (nextLineId self) c (crossedTracks self) (drawing self).

Definition set_crossedTracks (self : LineManager) (c : gmap string Crossing) : LineManager :=
  mkLineManager (canvas_width self) (canvas_height self) (videoWidth self) (videoHeight self)
    (lines self) (nextLineId self) (lineCrossings self) c (drawing self).

Definition set_drawing (self : LineManager) (d : Drawing) : LineManager :=
  mkLineManager (canvas_width self) (canvas_height self) (videoWidth self) (videoHeight self)
    (lines self) (nextLineId self) (lineCrossings self) (crossedTracks self) d.

Definition set_peopleInside (b : Boundary) (s : gset nat) : Boundary :=
  mkBoundary (id b) (type b) (name b) (orientation b) (shape b) s.

Definition set_name (b : Boundary) (n : string) : Boundary :=
  mkBoundary (id b) (type b) n (orientation b) (shape b) (peopleInside b).

Definition defaultLineNames : list string :=
  ["North Entrance"; "South Exit"; "Main Door"; "Side Entrance"; "Emergency Exit"].

Definition generateLineName (self : LineManager) (o : Orientation) : string :=
  let count := length (lines self) in
  match defaultLineNames !! count with
  | Some n => n
  | None =>
      (match o with vertical => "Vertical" | horizontal => "Horizontal" end)
        +:+ " Line " +:+ pretty (count + 1)%nat
  end.

(** [line.name || generated]: the empty string is falsy. *)
Definition name_or (given : option string) (generated : string) : string :=
  match given with
  | Some n => if bool_decide (n = "") then generated else n
  | None => generated
  end.

Definition addLine (self : LineManager) (req : Request) : LineManager * Boundary :=
  let lineId := nextLineId self in
  let newLine :=
    match req with
    | LineReq nm start end_ =>
        let isVertical := Qltb (Qabs (end_.1 - start.1)) (Qabs (end_.2 - start.2)) in
        let o := if isVertical then vertical else horizontal in
        {| id := lineId; type := line;
           name := name_or nm (generateLineName self o);
           orientation := Some o;
           shape := Segment start end_;
           peopleInside := ∅ |}
    | AreaReq nm sh =>
        {| id := lineId; type := area;
           name := name_or nm ("Area " +:+ pretty lineId);
           orientation := None;
           shape := sh;
           peopleInside := ∅ |}
    end in
  (set_lines
     (set_lineCrossings (set_nextLineId self (S lineId))
        (<[lineId := {| count_in := 0; count_out := 0 |}]> (lineCrossings self)))
     (lines self ++ [newLine]),
   newLine).

(** [String.prototype.includes]. *)
Definition includes (s sub : string) : bool :=
  match String.index 0 sub s with
  | Some _ => true
  | None => false
  end.

(** [lines.splice(lineIndex, 1)] at the first object with the id. *)
Fixpoint spliceById (lineId : nat) (l : list Boundary) : list Boundary :=
  match l with
  | [] => []
  | b :: rest => if (id b =? lineId)%nat then rest else b :: spliceById lineId rest
  end.

Definition removeLine (self : LineManager) (lineId : nat) : LineManager * bool :=
  if existsb (λ b, (id b =? lineId)%nat) (lines self) then
    (set_crossedTracks
       (set_lineCrossings (set_lines self (spliceById lineId (lines self)))
          (delete lineId (lineCrossings self)))
       (filter (λ kv, includes kv.1 ("-" +:+ pretty lineId) = false) (crossedTracks self)),
     true)
  else (self, false).

Definition clearLines (self : LineManager) : LineManager :=
  set_crossedTracks (set_lineCrossings (set_lines self []) ∅) ∅.

Definition renameLine (self : LineManager) (lineId : nat) (newName : string)
    : LineManager * bool :=
  if existsb (λ b, (id b =? lineId)%nat) (lines self) then
    let fix go (l : list Boundary) :=
      match l with
      | [] => []
      | b :: rest => if (id b =? lineId)%nat then set_name b newName :: rest else b :: go rest
      end in
    (set_lines self (go (lines self)), true)
  else (self, false).

Definition resetCounts (self : LineManager) : LineManager :=
  set_crossedTracks
    (set_lineCrossings self ((λ _, {| count_in := 0; count_out := 0 |}) <$> lineCrossings self))
    ∅.

(** [lineIntersection]: [None] is the [null] result. *)
Definition lineIntersection (p1 p2 p3 p4 : Point) : option Point :=
  let '(x1, y1) := p1 in
  let '(x2, y2) := p2 in
  let '(x3, y3) := p3 in
  let '(x4, y4) := p4 in
  let denominator := ((y4 - y3) * (x2 - x1) - (x4 - x3) * (y2 - y1))%Q in
  if Qltb (Qabs denominator) (1 # 10000) then None
  else
    let ua := (((x4 - x3) * (y1 - y3) - (y4 - y3) * (x1 - x3)) / denominator)%Q in
    let ub := (((x2 - x1) * (y1 - y3) - (y2 - y1) * (x1 - x3)) / denominator)%Q in
    if Qltb ua 0 || Qltb 1 ua || Qltb ub 0 || Qltb 1 ub then None
    else Some (x1 + ua * (x2 - x1), y1 + ua * (y2 - y1))%Q.

Definition getSide (px py x1 y1 x2 y2 : Q) : Q :=
  ((x2 - x1) * (py - y1) - (y2 - y1) * (px - x1))%Q.

(** The two returns of [determineLineCrossingDirection], one per branch. *)
Definition verticalBranch (prevSide currSide : Q) : Direction :=
  if Qle_bool prevSide 0 && Qltb 0 currSide then dir_in else dir_out.

Definition horizontalBranch (prevSide currSide : Q) : Direction :=
  if Qle_bool prevSide 0 && Qltb 0 currSide then dir_in else dir_out.

Definition determineLineCrossingDirection (p1 p2 lineStart lineEnd : Point) : Direction :=
  let prevSide := getSide p1.1 p1.2 lineStart.1 lineStart.2 lineEnd.1 lineEnd.2 in
  let currSide := getSide p2.1 p2.2 lineStart.1 lineStart.2 lineEnd.1 lineEnd.2 in
  let dx := (lineEnd.1 - lineStart.1)%Q in
  let dy := (lineEnd.2 - lineStart.2)%Q in
  let isVertical := Qltb (Qabs dx) (Qabs dy) in
  if isVertical then verticalBranch prevSide currSide
  else horizontalBranch prevSide currSide.

(** The loop of [isPointInPolygon] from vertex [i] on; [pj] is vertex [j]. *)
Fixpoint rayCast (x y : Q) (pj : Point) (poly : list Point) (inside : bool) : bool :=
  match poly with
  | [] => inside
  | pi :: rest =>
      let '(xi, yi) := pi in
      let '(xj, yj) := pj in
      let intersect :=
        negb (eqb (Qltb y yi) (Qltb y yj)) &&
        Qltb x ((xj - xi) * (y - yi) / (yj - yi) + xi)%Q in
      rayCast x y pi rest (if intersect then negb inside else inside)
  end.

Definition isPointInPolygon (point : Point) (polygon : list Point) : bool :=
  match last polygon with
  | Some pl => rayCast point.1 point.2 pl polygon false
  | None => false
  end.

(** [lineCrossings[id][direction]++], after the entry is created if absent. *)
Definition bump (d : Direction) (lineId : nat) (c : gmap nat Counts) : gmap nat Counts :=
  let cur := default {| count_in := 0; count_out := 0 |} (c !! lineId) in
  <[lineId := match d with
              | dir_in => {| count_in := S (count_in cur); count_out := count_out cur |}
              | dir_out => {| count_in := count_in cur; count_out := S (count_out cur) |}
              end]> c.

Definition isInsideArea (a : Boundary) (currentPos : Point) : bool :=
  match shape a with
  | Polygon points => isPointInPolygon currentPos points
  | Segment start end_ =>
      let areaX := Qmin start.1 end_.1 in
      let areaY := Qmin start.2 end_.2 in
      let areaWidth := Qabs (end_.1 - start.1) in
      let areaHeight := Qabs (end_.2 - start.2) in
      Qle_bool areaX currentPos.1 && Qle_bool currentPos.1 (areaX + areaWidth) &&
      Qle_bool areaY currentPos.2 && Qle_bool currentPos.2 (areaY + areaHeight)
  end.

Definition checkAreaCrossing (self : LineManager) (a : Boundary) (personId : nat)
    (currentPos : Point) (now : Z) : LineManager * Boundary * list CrossingEvent :=
  let isInside := isInsideArea a currentPos in
  let wasInside := bool_decide (personId ∈ peopleInside a) in
  if isInside && negb wasInside then
    (set_lineCrossings self (bump dir_in (id a) (lineCrossings self)),
     set_peopleInside a ({[ personId ]} ∪ peopleInside a),
     [ mkEvent (id a) (name a) personId dir_in currentPos now ])
  else if negb isInside && wasInside then
    (set_lineCrossings self (bump dir_out (id a) (lineCrossings self)),
     set_peopleInside a (peopleInside a ∖ {[ personId ]}),
     [ mkEvent (id a) (name a) personId dir_out currentPos now ])
  else (self, a, []).

Definition crossingKey (personId lineId : nat) : string :=
  pretty personId +:+ "-" +:+ pretty lineId.

Definition cooldown : Z := 2000.

(** The [else] branch of the loop of [checkLineCrossings]: one line. *)
Definition checkLine (self : LineManager) (l : Boundary) (personId : nat)
    (scaledPrevPos scaledCurrentPos : Point) (now : Z)
    : LineManager * list CrossingEvent :=
  match shape l with
  | Polygon _ => (self, [])
  | Segment lineStart lineEnd =>
      match lineIntersection scaledPrevPos scaledCurrentPos lineStart lineEnd with
      | None => (self, [])
      | Some intersection =>
          let key := crossingKey personId (id l) in
          let recent :=
            match crossedTracks self !! key with
            | Some lastCrossing => bool_decide (now - timestamp lastCrossing < cooldown)%Z
            | None => false
            end in
          if recent then (self, [])
          else
            let d := determineLineCrossingDirection scaledPrevPos scaledCurrentPos
                       lineStart lineEnd in
            (set_crossedTracks
               (set_lineCrossings self (bump d (id l) (lineCrossings self)))
               (<[key := {| timestamp := now; direction := d |}]> (crossedTracks self)),
             [ mkEvent (id l) (name l) personId d intersection now ])
      end
  end.

(** The [for (const line of this.lines)] loop. *)
Fixpoint crossingLoop (self : LineManager) (ls : list Boundary) (personId : nat)
    (scaledPrevPos scaledCurrentPos : Point) (now : Z)
    : LineManager * list Boundary * list CrossingEvent :=
  match ls with
  | [] => (self, [], [])
  | b :: rest =>
      match type b with
      | area =>
          let '(self1, b', ev) := checkAreaCrossing self b personId scaledCurrentPos now in
          let '(self2, rest', evs) :=
            crossingLoop self1 rest personId scaledPrevPos scaledCurrentPos now in
          (self2, b' :: rest', ev ++ evs)
      | line =>
          let '(self1, ev) := checkLine self b personId scaledPrevPos scaledCurrentPos now in
          let '(self2, rest', evs) :=
            crossingLoop self1 rest personId scaledPrevPos scaledCurrentPos now in
          (self2, b :: rest', ev ++ evs)
      end
  end.

(** [checkLineCrossings]; the events are the calls to [onLineCrossed].
    A person id 0 is falsy, and the method returns at once. The source
    reads the clock once per boundary it counts; a call visits each
    boundary once, and [now] stands for these readings. For a video of
    width or height 0 the scale of the source is [Infinity] or [NaN],
    which a rational is not: a statement below that depends on the scaled
    positions names a video that has a size. *)
Definition checkLineCrossings (self : LineManager) (personId : nat)
    (prevPos currentPos : Point) (now : Z) : LineManager * list CrossingEvent :=
  if (personId =? 0)%nat then (self, [])
  else
    let scaleX := (canvas_width self / videoWidth self)%Q in
    let scaleY := (canvas_height self / videoHeight self)%Q in
    let scaledPrevPos := (prevPos.1 * scaleX, prevPos.2 * scaleY)%Q in
    let scaledCurrentPos := (currentPos.1 * scaleX, currentPos.2 * scaleY)%Q in
    let '(self', ls, evs) :=
      crossingLoop self (lines self) personId scaledPrevPos scaledCurrentPos now in
    (set_lines self' ls, evs).

(** One call of [checkLineCrossings] as the application makes it. *)
Record Call := mkCall {
  call_person : nat;
  call_prev : Point;
  call_curr : Point;
  call_now : Z
}.

(** A sequence of calls, with all the events they forward. *)
Fixpoint runChecks (self : LineManager) (cs : list Call) : LineManager * list CrossingEvent :=
  match cs with
  | [] => (self, [])
  | c :: rest =>
      let '(self1, ev) :=
        checkLineCrossings self (call_person c) (call_prev c) (call_curr c) (call_now c) in
      let '(self2, evs) := runChecks self1 rest in
      (self2, ev ++ evs)
  end.

(** *** Drawing gestures; [x], [y] are the canvas coordinates of the event. *)

Definition handleMouseDown (self : LineManager) (x y : Q) : LineManager :=
  let d := drawing self in
  if negb (isDrawingEnabled d) then self
  else
    match drawingMode d with
    | area =>
        let close :=
          match drawingPoints d with
          | firstPoint :: _ =>
              (3 <=? length (drawingPoints d))%nat &&
              (* dist < 20, with dist the square root of the sum below *)
              Qltb ((x - firstPoint.1) * (x - firstPoint.1) +
                    (y - firstPoint.2) * (y - firstPoint.2))%Q 400
          | [] => false
          end in
        if close then
          let self1 := (addLine self (AreaReq None (Polygon (drawingPoints d)))).1 in
          set_drawing self1
            (mkDrawing (isDrawingEnabled d) (isDrawing d) (drawingLine d) (drawingMode d) [])
        else
          set_drawing self
            (mkDrawing (isDrawingEnabled d) (isDrawing d) (drawingLine d) (drawingMode d)
                       (drawingPoints d ++ [(x, y)]))
    | line =>
        set_drawing self
          (mkDrawing (isDrawingEnabled d) true (Some ((x, y), (x, y))) (drawingMode d)
                     (drawingPoints d))
    end.

Definition handleMouseMove (self : LineManager) (x y : Q) : LineManager :=
  let d := drawing self in
  match isDrawing d, drawingLine d with
  | true, Some (start, _) =>
      set_drawing self
        (mkDrawing (isDrawingEnabled d) (isDrawing d) (Some (start, (x, y))) (drawingMode d)
                   (drawingPoints d))
  | _, _ => self
  end.

(** [length >= 20] is decided on the squares: the square root is monotone
    and the root of 400 is 20. *)
Definition longEnough (start end_ : Point) : bool :=
  let dx := (end_.1 - start.1)%Q in
  let dy := (end_.2 - start.2)%Q in
  Qle_bool 400 (dx * dx + dy * dy)%Q.

Definition handleMouseUp (self : LineManager) (x y : Q) : LineManager :=
  let d := drawing self in
  match isDrawing d, drawingMode d, drawingLine d with
  | true, line, Some (start, _) =>
      let end_ := (x, y) in
      let self1 :=
        if longEnough start end_ then (addLine self (LineReq None start end_)).1 else self in
      set_drawing self1
        (mkDrawing (isDrawingEnabled d) false None (drawingMode d) (drawingPoints d))
  | _, _, _ => self
  end.

(** [handleTouchEnd]: the drag is submitted under the current drawing
    mode, so an area drag gives a rectangle area. *)
Definition handleTouchEnd (self : LineManager) : LineManager :=
  let d := drawing self in
  match isDrawing d, drawingLine d with
  | true, Some (start, end_) =>
      let self1 :=
        if longEnough start end_ then
          (addLine self
             (match drawingMode d with
              | line => LineReq None start end_
              | area => AreaReq None (Segment start end_)
              end)).1
        else self in
      set_drawing self1
        (mkDrawing (isDrawingEnabled d) false None (drawingMode d) (drawingPoints d))
  | _, _ => self
  end.

End LineManager.

(** ** Concrete registries and trackers used by the examples below *)

Module Scenario.
Import LineManager.

(** A manager over a 200 x 200 canvas showing a 200 x 200 video. *)
Definition manager : LineManager := constructor 200 200 200 200.

(** A vertical line at x = 100, drawn from the top of the canvas to its
    bottom. *)
Definition testLine : Request := LineReq None (100, 0)%Q (100, 200)%Q.

Definition withTestLine : LineManager := (addLine manager testLine).1.

(** The same line drawn from the bottom to the top. *)
Definition upwardLine : Request := LineReq None (100, 200)%Q (100, 0)%Q.

Definition withUpwardLine : LineManager := (addLine manager upwardLine).1.

(** Ten lines, ids 1 to 10, then track 5 crosses all of them at time 1000. *)
Definition tenLines : LineManager :=
  fold_left (λ s _, (addLine s upwardLine).1) (seq 0 10) manager.

Definition tenLinesCrossed : LineManager :=
  (checkLineCrossings tenLines 5 (50, 50)%Q (150, 50)%Q 1000).1.

(** A rectangle area with corners (0,0) and (100,100). *)
Definition withArea : LineManager :=
  (addLine manager (AreaReq None (Segment (0, 0)%Q (100, 100)%Q))).1.

(** Track 1 walks into the area, out of it and in again within 200 ms. *)
Definition inOutIn : list Call :=
  [ mkCall 1 (150, 150)%Q (50, 50)%Q 1000;
    mkCall 1 (50, 50)%Q (150, 150)%Q 1100;
    mkCall 1 (150, 150)%Q (50, 50)%Q 1200 ].

(** Track 7 is inside the area. *)
Definition occupied : LineManager :=
  (checkLineCrossings withArea 7 (150, 150)%Q (50, 50)%Q 1000).1.

(** A request for a line of length zero. *)
Definition pointLine : Request := LineReq None (5, 5)%Q (5, 5)%Q.

(** A manager in the middle of a line drag that started at (10,10). *)
Definition dragging : LineManager :=
  handleMouseDown
    (set_drawing manager (mkDrawing true false None line [])) 10 10.

(** A manager with three polygon vertices placed. *)
Definition threePoints : LineManager :=
  set_drawing manager
    (mkDrawing true false None area [(0, 0)%Q; (100, 0)%Q; (0, 100)%Q]).

(** Track 1 crosses the upward line at 1000, comes back at 1500 and crosses
    again at 3500. *)
Definition backAndForth : list Call :=
  [ mkCall 1 (50, 50)%Q (150, 50)%Q 1000;
    mkCall 1 (150, 50)%Q (50, 50)%Q 1500;
    mkCall 1 (50, 50)%Q (150, 50)%Q 3500 ].

End Scenario.

Module TrackerScenario.
Import Tracker.

(** A tracker with the default options and a loaded model. *)
Definition tracker : PersonTracker :=
  set_isModelLoaded (constructor (mkOptions None None None)) true.

(** A person seen in a 10 x 10 box whose left edge is at [x]. *)
Definition person (x : Q) : Detection :=
  mkDetection "person" (9 # 10) (x, 0, 10, 10)%Q None.

(** Two people in the first frame give the tracks 1 and 2. *)
Definition twoTracks : PersonTracker :=
  (updateTracks tracker [person 0; person 100] 0).1.

(** Next frame: two detections next to track 1, one on track 2. *)
Definition crowded : list Detection := [person 1; person 1; person 100].

(** Fifteen frames without any detection. *)
Definition aged : PersonTracker := run twoTracks (replicate 15 ([], 10%Z)).

(** One person detected at the same place in twelve frames. *)
Definition twelveFrames : list (list Detection * Z) := replicate 12 ([person 0], 7%Z).

End TrackerScenario.

(** ** The other operations of the line manager, and sequences of them *)

Module Registry.
Import LineManager.

Definition enableDrawing (self : LineManager) : LineManager :=
  let d := drawing self in
  set_drawing self
    (mkDrawing true (isDrawing d) (drawingLine d) (drawingMode d) (drawingPoints d)).

Definition disableDrawing (self : LineManager) : LineManager :=
  let d := drawing self in
  set_drawing self (mkDrawing false false None (drawingMode d) (drawingPoints d)).

(** [setDrawingMode]: any text but ['line'] and ['area'] is refused. *)
Definition setDrawingMode (self : LineManager) (mode : string) : LineManager :=
  let d := drawing self in
  if bool_decide (mode = "line") then
    set_drawing self
      (mkDrawing (isDrawingEnabled d) (isDrawing d) (drawingLine d) line (drawingPoints d))
  else if bool_decide (mode = "area") then
    set_drawing self
      (mkDrawing (isDrawingEnabled d) (isDrawing d) (drawingLine d) area (drawingPoints d))
  else self.

Definition handleMouseLeave (self : LineManager) : LineManager :=
  let d := drawing self in
  if isDrawing d then
    set_drawing self
      (mkDrawing (isDrawingEnabled d) false None (drawingMode d) (drawingPoints d))
  else self.

Definition handleTouchStart (self : LineManager) (x y : Q) : LineManager :=
  let d := drawing self in
  if negb (isDrawingEnabled d) then self
  else
    set_drawing self
      (mkDrawing (isDrawingEnabled d) true (Some ((x, y), (x, y))) (drawingMode d)
                 (drawingPoints d)).

Definition handleTouchMove (self : LineManager) (x y : Q) : LineManager :=
  let d := drawing self in
  match isDrawing d, drawingLine d with
  | true, Some (start, _) =>
      set_drawing self
        (mkDrawing (isDrawingEnabled d) (isDrawing d) (Some (start, (x, y))) (drawingMode d)
                   (drawingPoints d))
  | _, _ => self
  end.

(** One call on the manager, from the application or from the canvas. *)
Inductive Op :=
| OpAddLine (req : Request)
| OpRemoveLine (lineId : nat)
| OpClearLines
| OpRenameLine (lineId : nat) (newName : string)
| OpResetCounts
| OpCheckLineCrossings (personId : nat) (prevPos currentPos : Point) (now : Z)
| OpEnableDrawing
| OpDisableDrawing
| OpSetDrawingMode (mode : string)
| OpMouseDown (x y : Q)
| OpMouseMove (x y : Q)
| OpMouseUp (x y : Q)
| OpMouseLeave
| OpTouchStart (x y : Q)
| OpTouchMove (x y : Q)
| OpTouchEnd.

(** The manager after the call, with the events the call forwarded. *)
Definition applyOp (self : LineManager) (op : Op) : LineManager * list CrossingEvent :=
  match op with
  | OpAddLine req => ((addLine self req).1, [])
  | OpRemoveLine lineId => ((removeLine self lineId).1, [])
  | OpClearLines => (clearLines self, [])
  | OpRenameLine lineId newName => ((renameLine self lineId newName).1, [])
  | OpResetCounts => (resetCounts self, [])
  | OpCheckLineCrossings personId prevPos currentPos now =>
      checkLineCrossings self personId prevPos currentPos now
  | OpEnableDrawing => (enableDrawing self, [])
  | OpDisableDrawing => (disableDrawing self, [])
  | OpSetDrawingMode mode => (setDrawingMode self mode, [])
  | OpMouseDown x y => (handleMouseDown self x y, [])
  | OpMouseMove x y => (handleMouseMove self x y, [])
  | OpMouseUp x y => (handleMouseUp self x y, [])
  | OpMouseLeave => (handleMouseLeave self, [])
  | OpTouchStart x y => (handleTouchStart self x y, [])
  | OpTouchMove x y => (handleTouchMove self x y, [])
  | OpTouchEnd => (handleTouchEnd self, [])
  end.

Fixpoint runOps (self : LineManager) (ops : list Op) : LineManager * list CrossingEvent :=
  match ops with
  | [] => (self, [])
  | op :: rest =>
      let '(self1, ev) := applyOp self op in
      let '(self2, evs) := runOps self1 rest in
      (self2, ev ++ evs)
  end.

End Registry.

Module RegistryScenario.
Import LineManager Registry.

(** Track 1 crosses the upward line at 1000, comes back at 1500 and crosses
    again at 3500, while a second line is added and removed and the first
    one is renamed. *)
Definition busy : list Op :=
  [ OpCheckLineCrossings 1 (50, 50)%Q (150, 50)%Q 1000;
    OpAddLine Scenario.testLine;
    OpRemoveLine 2;
    OpRenameLine 1 "Door";
    OpCheckLineCrossings 1 (150, 50)%Q (50, 50)%Q 1500;
    OpCheckLineCrossings 1 (50, 50)%Q (150, 50)%Q 3500 ].

(** Track 1 crosses the line at 1000 and comes back at 1100, with a reset of
    the counters in between. *)
Definition resetBetween : list Op :=
  [ OpCheckLineCrossings 1 (50, 50)%Q (150, 50)%Q 1000;
    OpResetCounts;
    OpCheckLineCrossings 1 (150, 50)%Q (50, 50)%Q 1100 ].

(** Track 5 crosses the ten lines at 1000 and comes back at 1100, with line 1
    removed in between. *)
Definition removalBetween : list Op :=
  [ OpCheckLineCrossings 5 (50, 50)%Q (150, 50)%Q 1000;
    OpRemoveLine 1;
    OpCheckLineCrossings 5 (150, 50)%Q (50, 50)%Q 1100 ].

End RegistryScenario.

Module RegistrySpec.
Import LineManager Registry.

(** A line carries a segment, an orientation and no membership set; an
    area carries no orientation. *)
Definition wellShaped (b : Boundary) : Prop :=
  match type b with
  | line => (∃ s e, shape b = Segment s e) ∧ is_Some (orientation b) ∧ peopleInside b = ∅
  | area => orientation b = None
  end.

(** The registry is consistent: ids are positive, distinct and below
    [nextLineId], and the boundaries are exactly the keys of
    [lineCrossings]. *)
Definition registryOk (self : LineManager) : Prop :=
  NoDup (id <$> lines self) ∧
  (∀ b, b ∈ lines self → (1 ≤ id b < nextLineId self)%nat) ∧
  (∀ k, is_Some (lineCrossings self !! k) ↔ k ∈ id <$> lines self) ∧
  (∀ b, b ∈ lines self → wellShaped b).

(** What stays of a boundary when somebody walks through it. *)
Definition skeleton (b : Boundary) : nat * BType * string * option Orientation * Shape :=
  (id b, type b, name b, orientation b, shape b).

(** The counter of a direction, 0 for a boundary without counters. *)
Definition counterOf (d : Direction) (k : nat) (self : LineManager) : nat :=
  let c := default {| count_in := 0; count_out := 0 |} (lineCrossings self !! k) in
  match d with dir_in => count_in c | dir_out => count_out c end.

Definition Direction_eqb (d1 d2 : Direction) : bool :=
  match d1, d2 with
  | dir_in, dir_in | dir_out, dir_out => true
  | _, _ => false
  end.

(** The number of events of a direction forwarded for boundary [k]. *)
Definition countEvents (d : Direction) (k : nat) (evs : list CrossingEvent) : nat :=
  length (filter (λ e, ev_lineId e = k ∧ Direction_eqb (ev_direction e) d = true) evs).

(** Strings without the character that separates the parts of a key. *)
Fixpoint noDash (s : string) : Prop :=
  match s with
  | EmptyString => True
  | String c s' => c ≠ "-"%char ∧ noDash s'
  end.

(** The parts of the manager a crossing check never writes. *)
Definition frame (self : LineManager) : Q * Q * Q * Q * nat * Drawing :=
  (canvas_width self, canvas_height self, videoWidth self, videoHeight self,
   nextLineId self, drawing self).

(** One boundary of the loop: no event and the same counters, or one
    event of that boundary and one counter of it advanced. *)
Definition oneStep (self self' : LineManager) (b : Boundary) (personId : nat) (now : Z)
    (ev : list CrossingEvent) : Prop :=
  frame self' = frame self ∧ lines self' = lines self ∧
  ((ev = [] ∧ lineCrossings self' = lineCrossings self ∧ crossedTracks self' = crossedTracks self)
   ∨ ∃ d x c, ev = [mkEvent (id b) (name b) personId d x now] ∧
              self' = set_crossedTracks
                        (set_lineCrossings self (bump d (id b) (lineCrossings self))) c).

(** An event as the loop makes it for the call at hand. *)
Definition eventOf (ls : list Boundary) (personId : nat) (now : Z) (e : CrossingEvent) : Prop :=
  ev_personId e = personId ∧ ev_timestamp e = now ∧
  ∃ b, b ∈ ls ∧ id b = ev_lineId e ∧ name b = ev_lineName e.

(** The counters of an area and the people it holds: entries are exits
    plus the people inside. *)
Definition occ (self : LineManager) (b : Boundary) : Prop :=
  type b = area →
  counterOf dir_in (id b) self = (counterOf dir_out (id b) self + size (peopleInside b))%nat.

Definition occupancyOk (self : LineManager) : Prop := ∀ b, b ∈ lines self → occ self b.

(** What a check of track [personId] at the canvas position [pos] does to
    the membership set of an area: the track is in the set exactly when
    the position is inside, the other tracks are where they were. *)
Definition follows (personId : nat) (pos : Point) (b b' : Boundary) : Prop :=
  type b = area →
  ∀ u, u ∈ peopleInside b'
       ↔ if decide (u = personId) then isInsideArea b pos = true else u ∈ peopleInside b.

(** What the events of a check of track [personId] tell of an area: the
    other tracks are in [peopleInside] as before, and there is one ['in']
    event of the area when the track came into the set, one ['out'] event
    when it left the set, and no event of the area otherwise. *)
Definition reported (personId : nat) (evs : list CrossingEvent) (b b' : Boundary) : Prop :=
  type b = area →
  (∀ u, u ≠ personId → (u ∈ peopleInside b' ↔ u ∈ peopleInside b)) ∧
  countEvents dir_in (id b) evs
    = (if bool_decide ((personId ∉ peopleInside b) ∧ personId ∈ peopleInside b')
       then 1 else 0)%nat ∧
  countEvents dir_out (id b) evs
    = (if bool_decide (personId ∈ peopleInside b ∧ personId ∉ peopleInside b')
       then 1 else 0)%nat.

(** An event of a line of the list. *)
Definition lineEvent (ls : list Boundary) (e : CrossingEvent) : Prop :=
  ∃ b, b ∈ ls ∧ type b = line ∧ id b = ev_lineId e.

(** The calls that can take the record of the pair of track [t] and
    boundary [b] out of [crossedTracks]: [resetCounts] and [clearLines]
    empty the map, [removeLine] drops the keys that contain the text
    "-<lineId>". *)
Definition erases (t b : nat) (op : Op) : bool :=
  match op with
  | OpResetCounts | OpClearLines => true
  | OpRemoveLine lineId => includes (crossingKey t b) ("-" +:+ pretty lineId)
  | _ => false
  end.

(** The events of track [t] on boundary [b] are a cooldown apart. *)
Definition pairSpaced (t b : nat) (evs : list CrossingEvent) : Prop :=
  ∀ i j e1 e2, (i < j)%nat → evs !! i = Some e1 → evs !! j = Some e2 →
    ev_personId e1 = t → ev_lineId e1 = b → ev_personId e2 = t → ev_lineId e2 = b →
    (ev_timestamp e1 + cooldown ≤ ev_timestamp e2)%Z.

(** Every event of track [t] on boundary [b] is covered by the record of
    the pair, which is at least as recent. *)
Definition pairRecorded (t b : nat) (evs : list CrossingEvent) (m : gmap string Crossing)
    : Prop :=
  ∀ e, e ∈ evs → ev_personId e = t → ev_lineId e = b →
       ∃ r, m !! crossingKey t b = Some r ∧ (ev_timestamp e ≤ timestamp r)%Z.

(** The id [b] was handed out, and it belongs to a line if to anything. *)
Definition lineOnly (b : nat) (self : LineManager) : Prop :=
  (b < nextLineId self)%nat ∧ ∀ x, x ∈ lines self → id x = b → type x = line.

End RegistrySpec.


(** ** A frame of the tracker: vocabulary *)

Module TrackerFrameSpec.
Import Tracker.

(** The call of [onTrackUpdated] for a pair of the matching: the track
    after [updateTrack] with the detection of the pair. *)
Definition refreshed (s : PersonTracker) (detections : list Detection) (now : Z)
    (m : nat * nat) : option (nat * Track) :=
  match detections !! m.2, tracks s !! m.1 with
  | Some detection, Some track => Some (m.1, updateTrack s track detection now)
  | _, _ => None
  end.

(** The last history entry of a track repeats its box and the centre of
    its box. *)
Definition mirrored (t : Track) : Prop :=
  ∃ e, last (history t) = Some e ∧ h_bbox e = bbox t ∧
       centroid e = centroid_of (bbox t).

(** Tracks are stored under their own id with a mirrored last entry, and
    counters exist for live tracks only and stay within the limit. *)
Definition tidy (s : PersonTracker) : Prop :=
  (∀ k t, tracks s !! k = Some t → id t = k ∧ mirrored t) ∧
  (∀ k n, disappeared s !! k = Some n →
          is_Some (tracks s !! k) ∧ (n ≤ maxDisappearedFrames s)%nat).

(** The detection [j'] of the frame is in a pair of a row before [i']. *)
Definition taken (trackIds : list nat) (matched : list (nat * nat)) (i' j' : nat) : Prop :=
  ∃ t i, (t, j') ∈ matched ∧ (i < i')%nat ∧ trackIds !! i = Some t.

(** What the rows before [i] have settled: a pair holds the best value
    of its row among the detections left by the rows before it, the
    first one of them; a row without a pair had no detection left that
    reaches [minIoU]. *)
Definition greedyInv (trackIds : list nat) (matrix : list (list Q)) (i : nat)
    (matched : list (nat * nat)) : Prop :=
  (∀ t j i' row v, (t, j) ∈ matched → trackIds !! i' = Some t →
     matrix !! i' = Some row → row !! j = Some v →
     ∀ j' v', row !! j' = Some v' → (v < v' ∨ (v <= v' ∧ (j' < j)%nat))%Q →
              taken trackIds matched i' j') ∧
  (∀ i' t row, (i' < i)%nat → trackIds !! i' = Some t → t ∉ matched.*1 →
     matrix !! i' = Some row →
     ∀ j' v', row !! j' = Some v' → (minIoU <= v')%Q → taken trackIds matched i' j').

End TrackerFrameSpec.

(** ** The application: what it does with the tracker's calls and the manager's events *)

Module App.

(** [this.counts]. *)
Record Totals := mkTotals { total : nat; total_in : nat; total_out : nat }.

Record CountInApp := mkApp {
  tracker : Tracker.PersonTracker;
  lineManager : LineManager.LineManager;
  counts : Totals;
  frameCount : nat;
  isRunning : bool
}.

Definition detectionInterval : nat := 3.

(** The tracker of the application and its state before counting starts. *)
Definition trackerOptions : Tracker.Options :=
  Tracker.mkOptions (Some (4 # 10)) (Some 15%nat) (Some 10%nat).

Definition constructor (lineManager : LineManager.LineManager) : CountInApp :=
  {| tracker := Tracker.constructor trackerOptions;
     lineManager := lineManager;
     counts := {| total := 0; total_in := 0; total_out := 0 |};
     frameCount := 0;
     isRunning := false |}.

(** [lineManager.onLineCrossed], the part that runs before the first
    [await]: the counter of the direction, then the total. *)
Definition onLineCrossed (c : Totals) (event : LineManager.CrossingEvent) : Totals :=
  let c1 :=
    match LineManager.ev_direction event with
    | LineManager.dir_in => mkTotals (total c) (S (total_in c)) (total_out c)
    | LineManager.dir_out => mkTotals (total c) (total_in c) (S (total_out c))
    end in
  mkTotals (total_in c1 + total_out c1) (total_in c1) (total_out c1).

(** The call [tracker.onTrackUpdated] makes to [checkLineCrossings], if
    it makes one; [clock] is what [Date.now()] gives the manager. *)
Definition checkOf (clock : Z) (cb : nat * Tracker.Track) : option LineManager.Call :=
  let '(trackId, track) := cb in
  let h := Tracker.history track in
  if (2 <=? length h)%nat then
    match h !! (length h - 1)%nat, h !! (length h - 2)%nat with
    | Some last, Some before =>
        Some (LineManager.mkCall trackId (Tracker.centroid before) (Tracker.centroid last) clock)
    | _, _ => None
    end
  else None.

(** [tracker.onTrackUpdated] with the events the manager forwards counted
    by [onLineCrossed]. *)
Definition onTrackUpdated (st : LineManager.LineManager * Totals) (clock : Z)
    (cb : nat * Tracker.Track) : LineManager.LineManager * Totals :=
  match checkOf clock cb with
  | Some c =>
      let '(lm, events) :=
        LineManager.checkLineCrossings st.1 (LineManager.call_person c)
          (LineManager.call_prev c) (LineManager.call_curr c) (LineManager.call_now c) in
      (lm, fold_left onLineCrossed events st.2)
  | None => st
  end.

(** [processFrame] of the application. The tracker calls [onTrackUpdated]
    from inside its loop over the pairs; the manager and the totals read
    nothing of the tracker but the track handed over, so the calls are
    made here in the same order once the tracker has returned. An
    exception of the tracker is caught and logged. *)
Definition processFrame (app : CountInApp) (outcome : Tracker.DetectorOutcome)
    (now clock : Z) : CountInApp :=
  if negb (isRunning app) then app
  else
    let n := S (frameCount app) in
    if (n mod detectionInterval =? 0)%nat then
      match Tracker.processFrame (tracker app) outcome now with
      | inl _ => mkApp (tracker app) (lineManager app) (counts app) n (isRunning app)
      | inr (tracker', result) =>
          let '(lm, c) :=
            fold_left (λ st cb, onTrackUpdated st clock cb) (Tracker.callbacks result)
                      (lineManager app, counts app) in
          mkApp tracker' lm c n (isRunning app)
      end
    else mkApp (tracker app) (lineManager app) (counts app) n (isRunning app).

(** The frames the browser delivers, one after the other. *)
Definition runFrames (app : CountInApp) (frames : list (Tracker.DetectorOutcome * Z * Z))
    : CountInApp :=
  fold_left (λ a f, processFrame a f.1.1 f.1.2 f.2) frames app.

End App.

Module AppSpec.
Import App.

(** The check the application makes for a pair of the matching when
    histories hold two entries or more: from the centre of the box the
    track had to the centre of the box of the detection. *)
Definition motionOf (s : Tracker.PersonTracker) (detections : list Tracker.Detection)
    (clock : Z) (m : nat * nat) : option LineManager.Call :=
  match detections !! m.2, Tracker.tracks s !! m.1 with
  | Some detection, Some track =>
      Some (LineManager.mkCall m.1 (Tracker.centroid_of (Tracker.bbox track))
              (Tracker.centroid_of (Tracker.det_bbox detection)) clock)
  | _, _ => None
  end.

(** The frames that reach the tracker when [frameCount] is [n]. *)
Fixpoint everyThird {A} (n : nat) (frames : list A) : list A :=
  match frames with
  | [] => []
  | f :: rest =>
      if (S n mod detectionInterval =? 0)%nat then f :: everyThird (S n) rest
      else everyThird (S n) rest
  end.

(** The sum of the counters of a direction over the boundaries. *)
Definition sumCounters (d : LineManager.Direction) (lm : LineManager.LineManager) : nat :=
  sum_list ((λ b, RegistrySpec.counterOf d (LineManager.id b) lm) <$> LineManager.lines lm).

Definition totalOf (d : LineManager.Direction) (c : Totals) : nat :=
  match d with LineManager.dir_in => total_in c | LineManager.dir_out => total_out c end.

End AppSpec.

(** An application at work, for the examples. *)

Module AppScenario.

(** A person seen in a 40 x 40 box whose left edge is at [x]. *)
Definition walker (x : Q) : Tracker.Detection :=
  Tracker.mkDetection "person" (9 # 10) (x, 0, 40, 40)%Q None.

(** The application counting over the test line, its model loaded. *)
Definition counting : App.CountInApp :=
  App.mkApp TrackerScenario.tracker Scenario.withTestLine (App.mkTotals 0 0 0) 0 true.

(** Six frames, 100 ms apart: the walker moves to the right, the boxes
    of the third and the sixth frame are 20 apart and their centres lie
    left and right of the test line. *)
Definition walk : list (Tracker.DetectorOutcome * Z * Z) :=
  [ (Tracker.Predictions [walker 60], 100, 101)%Z;
    (Tracker.Predictions [walker 65], 200, 201)%Z;
    (Tracker.Predictions [walker 70], 300, 301)%Z;
    (Tracker.Predictions [walker 75], 400, 401)%Z;
    (Tracker.Predictions [walker 80], 500, 501)%Z;
    (Tracker.Predictions [walker 90], 600, 601)%Z ].

End AppScenario.

(** ** Vocabulary of the statements *)

Module LineManagerSpec.
Import LineManager.

(** The counters of a boundary that was never crossed. *)
Definition zero : Counts := {| count_in := 0; count_out := 0 |}.

(** The geometry and the type a request asks for. *)
Definition shapeOf (req : Request) : Shape :=
  match req with
  | LineReq _ start end_ => Segment start end_
  | AreaReq _ sh => sh
  end.

Definition typeOf (req : Request) : BType :=
  match req with
  | LineReq _ _ _ => line
  | AreaReq _ _ => area
  end.

(** Two events of the same track on the same line are a cooldown apart. *)
Definition apart (isLine : nat → Prop) (e1 e2 : CrossingEvent) : Prop :=
  ev_personId e1 = ev_personId e2 → ev_lineId e1 = ev_lineId e2 →
  isLine (ev_lineId e1) →
  (ev_timestamp e1 + cooldown ≤ ev_timestamp e2)%Z.

Definition spaced (isLine : nat → Prop) (evs : list CrossingEvent) : Prop :=
  ∀ i j e1 e2, (i < j)%nat → evs !! i = Some e1 → evs !! j = Some e2 → apart isLine e1 e2.

(** Every forwarded line event is covered by an entry of the map that is
    at least as recent. *)
Definition recorded (isLine : nat → Prop) (evs : list CrossingEvent)
    (m : gmap string Crossing) : Prop :=
  ∀ e, e ∈ evs → isLine (ev_lineId e) →
       ∃ r, m !! crossingKey (ev_personId e) (ev_lineId e) = Some r ∧
            (ev_timestamp e ≤ timestamp r)%Z.

(** A registry in which [isLine] tells the lines from the areas. *)
Definition sorted_out (isLine : nat → Prop) (ls : list Boundary) : Prop :=
  ∀ b, b ∈ ls → (type b = line → isLine (id b)) ∧ (type b = area → ¬ isLine (id b)).

End LineManagerSpec.

Module TrackerSpec.
Import Tracker.

(** The fields no loop writes. *)
Definition config (self : PersonTracker) : Q * nat * nat * bool :=
  (confidenceThreshold self, maxDisappearedFrames self, historyLength self,
   isModelLoaded self).

(** What the loop state holds for track [k]. *)
Definition view (k : nat) (acc : gmap nat nat * gmap nat Track * list nat)
    : option nat * option Track * bool :=
  (acc.1.1 !! k, acc.1.2 !! k, bool_decide (k ∈ acc.2)).

(** The effect of the iteration for [k] on what the state holds for [k]. *)
Definition stepView (self : PersonTracker) (k : nat)
    (v : option nat * option Track * bool) : option nat * option Track * bool :=
  match v.1.2 with
  | Some _ => v
  | None =>
      let n := S (default 0%nat v.1.1) in
      if (maxDisappearedFrames self <? n)%nat then (Some n, None, true)
      else (Some n, tracks self !! k, v.2)
  end.

(** [this.disappeared[k] || 0]: the counter of track [k]. *)
Definition counter (self : PersonTracker) (k : nat) : nat :=
  default 0%nat (disappeared self !! k).

(** [this] and [currentTracks] of a loop state. *)
Definition ls_self (st : LoopState) : PersonTracker := st.1.1.1.

Definition ls_cur (st : LoopState) : gmap nat Track := st.1.1.2.

(** What holds of the loop state of the general path, relative to the
    tracker [s] the frame started from and the ids [matchedIds] of the
    matched tracks. *)
Definition frameInv (s : PersonTracker) (matchedIds : list nat) (st : LoopState) : Prop :=
  config (ls_self st) = config s ∧
  (nextTrackId s ≤ nextTrackId (ls_self st))%nat ∧
  (∀ k, is_Some (tracks (ls_self st) !! k) ↔ is_Some (tracks s !! k)) ∧
  (∀ k, is_Some (ls_cur st !! k) →
        is_Some (tracks s !! k) ∨ (nextTrackId s ≤ k < nextTrackId (ls_self st))%nat) ∧
  (∀ k, k ∉ matchedIds → (k < nextTrackId s)%nat →
        tracks (ls_self st) !! k = tracks s !! k ∧
        ls_cur st !! k = None ∧
        disappeared (ls_self st) !! k = disappeared s !! k).

(** The loop state of the general path after both loops. *)
Definition afterLoops (s : PersonTracker) (detections : list Detection) (now : Z)
    : LoopState :=
  fold_left (unmatchedStep detections now) (association s detections).2
    (fold_left (matchedStep detections now) (association s detections).1 (s, ∅, [], [])).

(** Every id in use was handed out before: it is below [nextTrackId]. *)
Definition idsBelowNext (s : PersonTracker) : Prop :=
  ∀ k, is_Some (tracks s !! k) → (k < nextTrackId s)%nat.

(** A history of one up to [historyLength] entries. *)
Definition historyWithin (hl : nat) (t : Track) : Prop :=
  (1 ≤ length (history t) ≤ hl)%nat.

(** The detection a matching pairs with track [t], if any. *)
Definition pairedWith (t : nat) (matched : list (nat * nat)) : option nat :=
  snd <$> head (filter (λ m, m.1 = t) matched).

(** The life of track [t] over a sequence of frames, told from the
    matchings alone. [tr] is the track as stored and [c] the number of
    frames in a row that did not pair it. A frame that pairs it refreshes
    it with the detection of the pair and puts the count back to 0; a frame
    that does not pair it adds one to the count and leaves the track as it
    is, unless the count now exceeds [maxDisappearedFrames]: then the track
    is gone, whatever the later frames hold. (A pair always names a
    detection of its frame; the branch for a pair that does not is never
    taken.) *)
Fixpoint lifeOf (s : PersonTracker) (t : nat) (tr : Track) (c : nat)
    (frames : list (list Detection * Z)) : option (Track * nat) :=
  match frames with
  | [] => Some (tr, c)
  | f :: rest =>
      let s' := (updateTracks s f.1 f.2).1 in
      match pairedWith t (association s f.1).1 with
      | Some j =>
          match f.1 !! j with
          | Some d => lifeOf s' t (updateTrack s tr d f.2) 0 rest
          | None => None
          end
      | None =>
          if (maxDisappearedFrames s <? S c)%nat then None
          else lifeOf s' t tr (S c) rest
      end
  end.

(** What the outer loop has established before it looks at row [i]. *)
Definition matchInv (trackIds : list nat) (matrix : list (list Q))
    (i : nat) (matched : list (nat * nat)) (md : gset nat) : Prop :=
  (∀ j, j ∈ md ↔ j ∈ matched.*2) ∧
  NoDup matched.*2 ∧
  NoDup matched.*1 ∧
  (∀ trackId j, (trackId, j) ∈ matched →
     ∃ i' row v, (i' < i)%nat ∧ trackIds !! i' = Some trackId ∧
                 matrix !! i' = Some row ∧ row !! j = Some v ∧ (minIoU <= v)%Q).

End TrackerSpec.

(** ** Rational comparisons *)

Lemma Qltb_true (a b : Q) : Qltb a b = true ↔ (a < b)%Q.
Proof.
  unfold Qltb. rewrite negb_true_iff. split.
  - intros H. apply Qnot_le_lt. intros Hle.
    apply Qle_bool_iff in Hle. congruence.
  - intros H. destruct (Qle_bool b a) eqn:E; [|done].
    apply Qle_bool_iff in E. exfalso. apply (Qlt_not_le _ _ H E).
Qed.

Lemma Qltb_false (a b : Q) : Qltb a b = false ↔ (b <= a)%Q.
Proof.
  unfold Qltb. rewrite negb_false_iff. apply Qle_bool_iff.
Qed.

Module LineManagerProofs.
Import LineManager LineManagerSpec.

(** *** Direction of a crossing *)

Lemma branches_agree (prevSide currSide : Q) :
  verticalBranch prevSide currSide = horizontalBranch prevSide currSide.
Proof. reflexivity. Qed.

Lemma direction_unfold (p1 p2 lineStart lineEnd : Point) :
  determineLineCrossingDirection p1 p2 lineStart lineEnd =
  verticalBranch
    (getSide p1.1 p1.2 lineStart.1 lineStart.2 lineEnd.1 lineEnd.2)
    (getSide p2.1 p2.2 lineStart.1 lineStart.2 lineEnd.1 lineEnd.2).
Proof.
  unfold determineLineCrossingDirection.
  destruct (Qltb _ _); reflexivity.
Qed.

Lemma verticalBranch_in (prevSide currSide : Q) :
  verticalBranch prevSide currSide = dir_in ↔ (prevSide <= 0 ∧ 0 < currSide)%Q.
Proof.
  unfold verticalBranch.
  destruct (Qle_bool prevSide 0) eqn:E1, (Qltb 0 currSide) eqn:E2; simpl.
  - apply Qle_bool_iff in E1. apply Qltb_true in E2. done.
  - apply Qltb_false in E2. split; [done|].
    intros [_ H]. exfalso. apply (Qlt_not_le _ _ H E2).
  - split; [done|]. intros [H _]. apply Qle_bool_iff in H. congruence.
  - split; [done|]. intros [H _]. apply Qle_bool_iff in H. congruence.
Qed.

(** C7: [determineLineCrossingDirection] answers ['in'] exactly when the
    signed side of the previous position is at most 0 and that of the
    current position is above 0, and ['out'] in every other case; the
    value returned in the vertical branch is the value returned in the
    horizontal branch, whatever the two sides are. *)
Theorem C7_direction_by_sign_only (p1 p2 lineStart lineEnd : Point) :
  let prevSide := getSide p1.1 p1.2 lineStart.1 lineStart.2 lineEnd.1 lineEnd.2 in
  let currSide := getSide p2.1 p2.2 lineStart.1 lineStart.2 lineEnd.1 lineEnd.2 in
  (determineLineCrossingDirection p1 p2 lineStart lineEnd = dir_in
     ↔ (prevSide <= 0 ∧ 0 < currSide)%Q) ∧
  (determineLineCrossingDirection p1 p2 lineStart lineEnd = dir_out
     ↔ ¬ (prevSide <= 0 ∧ 0 < currSide)%Q) ∧
  (∀ a b : Q, verticalBranch a b = horizontalBranch a b).
Proof.
  intros prevSide currSide. rewrite direction_unfold.
  fold prevSide currSide. split; [apply verticalBranch_in|]. split.
  - rewrite <- verticalBranch_in.
    destruct (verticalBranch prevSide currSide); split; congruence.
  - apply branches_agree.
Qed.

(** *** Reset of the counters *)

(** C3 (as the code has it): [resetCounts] gives every boundary that has
    counters the counters 0/0 and creates no entry, empties the map of
    recent crossings, and leaves the list of boundaries, hence the
    [peopleInside] set of every area, as it was. *)
Theorem C3_resetCounts_effect (self : LineManager) :
  (∀ b, b ∈ lines self → is_Some (lineCrossings self !! id b)) →
  (∀ b, b ∈ lines (resetCounts self) →
        lineCrossings (resetCounts self) !! id b = Some zero) ∧
  (∀ k, lineCrossings (resetCounts self) !! k = (λ _, zero) <$> lineCrossings self !! k) ∧
  crossedTracks (resetCounts self) = ∅ ∧
  lines (resetCounts self) = lines self.
Proof.
  intros Hreg. unfold resetCounts; simpl.
  assert (Hk : ∀ k, ((λ _, {| count_in := 0; count_out := 0 |}) <$> lineCrossings self) !! k
                    = (λ _, zero) <$> lineCrossings self !! k)
    by (intros k; apply lookup_fmap).
  repeat split; [|done].
  intros b Hb. rewrite Hk. destruct (Hreg b Hb) as [c ->]. done.
Qed.

Lemma C3_resetCounts_effect_witness :
  (∀ b, b ∈ lines Scenario.occupied → is_Some (lineCrossings Scenario.occupied !! id b)) ∧
  lineCrossings (resetCounts Scenario.occupied) !! 1%nat = Some zero.
Proof.
  assert (H : ∀ b, b ∈ lines Scenario.occupied
                   → is_Some (lineCrossings Scenario.occupied !! id b)).
  { intros b Hb. vm_compute in Hb.
    apply list_elem_of_singleton in Hb. subst b. vm_compute. eauto. }
  split; [exact H|].
  destruct (C3_resetCounts_effect Scenario.occupied H) as (_ & Hk & _).
  rewrite Hk. vm_compute. reflexivity.
Defined.

(** C3, the claim as written fails: after track 7 entered the area,
    [resetCounts] zeroes the counters but the area still holds track 7 in
    [peopleInside]. *)
Lemma C3_inside_set_survives_reset :
  lineCrossings Scenario.occupied !! 1%nat = Some {| count_in := 1; count_out := 0 |} ∧
  lineCrossings (resetCounts Scenario.occupied) !! 1%nat = Some zero ∧
  map (λ b, (type b, elements (peopleInside b))) (lines (resetCounts Scenario.occupied))
    = [(area, [7%nat])].
Proof. vm_compute. done. Qed.

(** *** Removal of a boundary *)

Lemma removeLine_counts_other (self : LineManager) (b b' : nat) :
  b ≠ b' → lineCrossings (removeLine self b).1 !! b' = lineCrossings self !! b'.
Proof.
  intros Hne. unfold removeLine.
  destruct (existsb _ _); simpl; [|done].
  by rewrite lookup_delete_ne.
Qed.

(** What [removeLine] keeps of the map of recent crossings: the entries
    whose key does not contain the text "-<id>" anywhere. *)
Lemma removeLine_crossed_lookup (self : LineManager) (b : nat) (key : string) :
  (removeLine self b).2 = true →
  crossedTracks (removeLine self b).1 !! key =
    if includes key ("-" +:+ pretty b) then None else crossedTracks self !! key.
Proof.
  unfold removeLine. destruct (existsb _ _); simpl; [|done]. intros _.
  destruct (includes key _) eqn:E.
  - apply map_lookup_filter_None. right. intros x _. simpl. congruence.
  - destruct (crossedTracks self !! key) as [x|] eqn:Hx.
    + apply map_lookup_filter_Some. done.
    + apply map_lookup_filter_None. by left.
Qed.

(** C10, the code at the failing input: lines 1 to 10 exist and track 5
    has a recent crossing of line 10 on record; removing line 1 erases
    that record, because the key "5-10" contains "-1". The counters of
    line 10 are kept. *)
Theorem C10_removeLine_erases_record_of_line_10 :
  crossedTracks Scenario.tenLinesCrossed !! crossingKey 5 10
    = Some {| timestamp := 1000; direction := dir_in |} ∧
  (removeLine Scenario.tenLinesCrossed 1).2 = true ∧
  crossedTracks (removeLine Scenario.tenLinesCrossed 1).1 !! crossingKey 5 10 = None ∧
  lineCrossings (removeLine Scenario.tenLinesCrossed 1).1 !! 10%nat
    = Some {| count_in := 1; count_out := 0 |}.
Proof. vm_compute. done. Qed.

(** *** Scenario A *)

(** The motion (50,50) to (150,50) over the line at x = 100 drawn from the
    top of the canvas to the bottom is counted ['out'], for every track. *)
Lemma downward_line_counts_out (personId : nat) (now : Z) :
  personId ≠ 0%nat →
  let r := checkLineCrossings Scenario.withTestLine personId (50, 50)%Q (150, 50)%Q now in
  map (λ e, (ev_lineId e, ev_personId e, ev_direction e, ev_timestamp e)) r.2
    = [(1%nat, personId, dir_out, now)] ∧
  lineCrossings r.1 !! 1%nat = Some {| count_in := 0; count_out := 1 |}.
Proof.
  intros Hp. destruct personId as [|p]; [done|].
  unfold checkLineCrossings.
  change (S p =? 0)%nat with false. cbv iota.
  change (lines Scenario.withTestLine) with
    [mkBoundary 1 line "North Entrance" (Some vertical)
       (Segment (100, 0)%Q (100, 200)%Q) ∅].
  unfold crossingLoop, type, checkLine, shape.
  match goal with
  | |- context [lineIntersection ?a ?b ?c ?d] =>
      let v := eval vm_compute in (lineIntersection a b c d) in
      change (lineIntersection a b c d) with v
  end.
  cbv iota beta.
  change (crossedTracks Scenario.withTestLine) with (∅ : gmap string Crossing).
  rewrite lookup_empty.
  match goal with
  | |- context [determineLineCrossingDirection ?a ?b ?c ?d] =>
      change (determineLineCrossingDirection a b c d) with dir_out
  end.
  simpl. split; [done|].
  reflexivity.
Qed.

(** The same motion over the same line drawn from the bottom to the top
    is counted ['in'], for every track. *)
Lemma upward_line_counts_in (personId : nat) (now : Z) :
  personId ≠ 0%nat →
  let r := checkLineCrossings Scenario.withUpwardLine personId (50, 50)%Q (150, 50)%Q now in
  map (λ e, (ev_lineId e, ev_personId e, ev_direction e, ev_timestamp e)) r.2
    = [(1%nat, personId, dir_in, now)] ∧
  lineCrossings r.1 !! 1%nat = Some {| count_in := 1; count_out := 0 |}.
Proof.
  intros Hp. destruct personId as [|p]; [done|].
  unfold checkLineCrossings.
  change (S p =? 0)%nat with false. cbv iota.
  change (lines Scenario.withUpwardLine) with
    [mkBoundary 1 line "North Entrance" (Some vertical)
       (Segment (100, 200)%Q (100, 0)%Q) ∅].
  unfold crossingLoop, type, checkLine, shape.
  match goal with
  | |- context [lineIntersection ?a ?b ?c ?d] =>
      let v := eval vm_compute in (lineIntersection a b c d) in
      change (lineIntersection a b c d) with v
  end.
  cbv iota beta.
  change (crossedTracks Scenario.withUpwardLine) with (∅ : gmap string Crossing).
  rewrite lookup_empty.
  match goal with
  | |- context [determineLineCrossingDirection ?a ?b ?c ?d] =>
      change (determineLineCrossingDirection a b c d) with dir_in
  end.
  simpl. split; [done|].
  reflexivity.
Qed.

(** C2 (as the code has it): with a single vertical line at x = 100 on a
    canvas 200 wide, the motion (50,50) to (150,50) of any track gives
    exactly one event, and the order in which the two end points of the
    line were drawn settles its direction. Drawn from the bottom (100,200)
    to the top (100,0), the event is ['in'] and the counters of the line
    become in 1, out 0; drawn from the top (100,0) to the bottom (100,200),
    the event is ['out'] and the counters become in 0, out 1. *)
Theorem C2_direction_follows_the_drawing_order (personId : nat) (now : Z) :
  personId ≠ 0%nat →
  let up := checkLineCrossings Scenario.withUpwardLine personId (50, 50)%Q (150, 50)%Q now in
  let down := checkLineCrossings Scenario.withTestLine personId (50, 50)%Q (150, 50)%Q now in
  (map (λ e, (ev_lineId e, ev_personId e, ev_direction e, ev_timestamp e)) up.2
     = [(1%nat, personId, dir_in, now)] ∧
   lineCrossings up.1 !! 1%nat = Some {| count_in := 1; count_out := 0 |}) ∧
  (map (λ e, (ev_lineId e, ev_personId e, ev_direction e, ev_timestamp e)) down.2
     = [(1%nat, personId, dir_out, now)] ∧
   lineCrossings down.1 !! 1%nat = Some {| count_in := 0; count_out := 1 |}).
Proof.
  intros Hp. split.
  - exact (upward_line_counts_in personId now Hp).
  - exact (downward_line_counts_out personId now Hp).
Qed.

Lemma C2_direction_follows_the_drawing_order_witness :
  (7 ≠ 0)%nat ∧
  (map (λ e, (ev_lineId e, ev_personId e, ev_direction e, ev_timestamp e))
       (checkLineCrossings Scenario.withUpwardLine 7 (50, 50)%Q (150, 50)%Q 1000).2
     = [(1%nat, 7%nat, dir_in, 1000%Z)] ∧
   lineCrossings (checkLineCrossings Scenario.withUpwardLine 7 (50, 50)%Q (150, 50)%Q 1000).1
     !! 1%nat = Some {| count_in := 1; count_out := 0 |}).
Proof.
  split; [lia|].
  apply (C2_direction_follows_the_drawing_order 7 1000). lia.
Defined.

(** C2, the claim as written fails: over the vertical line at x = 100
    drawn from the top of the canvas to the bottom, the motion (50,50) to
    (150,50) of track 1 gives one event, and it is ['out']; the counters of
    the line are in 0, out 1. *)
Lemma C2_line_drawn_downwards_counts_out :
  lines Scenario.withTestLine
    = [mkBoundary 1 line "North Entrance" (Some vertical)
         (Segment (100, 0)%Q (100, 200)%Q) ∅] ∧
  map (λ e, (ev_lineId e, ev_personId e, ev_direction e, ev_timestamp e))
      (checkLineCrossings Scenario.withTestLine 1 (50, 50)%Q (150, 50)%Q 1000).2
    = [(1%nat, 1%nat, dir_out, 1000%Z)] ∧
  lineCrossings (checkLineCrossings Scenario.withTestLine 1 (50, 50)%Q (150, 50)%Q 1000).1
    !! 1%nat = Some {| count_in := 0; count_out := 1 |}.
Proof.
  split; [reflexivity|].
  exact (downward_line_counts_out 1 1000 ltac:(discriminate)).
Qed.

(** *** Creation of a boundary *)

Lemma lines_set_drawing (self : LineManager) (d : Drawing) :
  lines (set_drawing self d) = lines self.
Proof. reflexivity. Qed.

Lemma addLine_lines (self : LineManager) (req : Request) :
  lines (addLine self req).1 = lines self ++ [(addLine self req).2].
Proof. by destruct req. Qed.

Lemma addLine_boundary (self : LineManager) (req : Request) :
  id (addLine self req).2 = nextLineId self ∧
  type (addLine self req).2 = typeOf req ∧
  shape (addLine self req).2 = shapeOf req.
Proof. by destruct req. Qed.

(** C8 (as the code has it): [addLine] validates nothing. Every request
    is stored at the end of the registry under the next id, with the
    geometry it came with and counters 0/0. The screening is done by the
    gestures that call [addLine]: a boundary added by [handleMouseUp] is a
    line whose end points are at least 20 apart, and a boundary added by
    [handleMouseDown] is a polygon area of at least three vertices. *)
Theorem C8_addLine_stores_every_request :
  (∀ self req,
     lines (addLine self req).1 = lines self ++ [(addLine self req).2] ∧
     id (addLine self req).2 = nextLineId self ∧
     type (addLine self req).2 = typeOf req ∧
     shape (addLine self req).2 = shapeOf req ∧
     lineCrossings (addLine self req).1 !! nextLineId self = Some zero) ∧
  (∀ self x y b,
     b ∈ lines (handleMouseUp self x y) →
     b ∈ lines self ∨
     ∃ start end_, type b = line ∧ shape b = Segment start end_ ∧
                   longEnough start end_ = true) ∧
  (∀ self x y b,
     b ∈ lines (handleMouseDown self x y) →
     b ∈ lines self ∨
     ∃ points, type b = area ∧ shape b = Polygon points ∧ (3 ≤ length points)%nat).
Proof.
  split; [|split].
  - intros self req. split; [apply addLine_lines|].
    destruct (addLine_boundary self req) as (? & ? & ?).
    repeat split; try done.
    destruct req; simpl; apply lookup_insert_eq.
  - intros self x y b. unfold handleMouseUp.
    destruct (isDrawing (drawing self)); [|by left].
    destruct (drawingMode (drawing self)); [|by left].
    destruct (drawingLine (drawing self)) as [[start e0]|]; [|by left].
    rewrite lines_set_drawing.
    destruct (longEnough start (x, y)) eqn:E; [|by left].
    rewrite addLine_lines. intros [H|H]%elem_of_app; [by left|].
    apply list_elem_of_singleton in H. subst b.
    right. exists start, (x, y). done.
  - intros self x y b. unfold handleMouseDown.
    destruct (isDrawingEnabled (drawing self)); simpl negb; cbv iota; [|by left].
    destruct (drawingMode (drawing self)); [by left|].
    destruct (drawingPoints (drawing self)) as [|p0 ps] eqn:Ep; [by left|].
    destruct ((3 <=? length (p0 :: ps))%nat && _) eqn:E; [|by left].
    rewrite lines_set_drawing, addLine_lines.
    intros [H|H]%elem_of_app; [by left|].
    apply list_elem_of_singleton in H. subst b.
    right. exists (p0 :: ps). repeat split.
    apply andb_true_iff in E as [E _]. apply Nat.leb_le in E. exact E.
Qed.

Lemma C8_addLine_stores_every_request_witness :
  (∃ b, b ∈ lines (handleMouseUp Scenario.dragging 10 200) ∧ type b = line) ∧
  (∃ b, b ∈ lines (handleMouseDown Scenario.threePoints 1 1) ∧ type b = area).
Proof.
  destruct C8_addLine_stores_every_request as (Hadd & Hup & Hdown).
  split.
  - destruct (Hadd Scenario.manager (LineReq None (10, 10)%Q (10, 200)%Q)) as (_ & _ & Ht & _).
    exists (addLine Scenario.manager (LineReq None (10, 10)%Q (10, 200)%Q)).2.
    assert (Hin : (addLine Scenario.manager (LineReq None (10, 10)%Q (10, 200)%Q)).2
                  ∈ lines (handleMouseUp Scenario.dragging 10 200))
      by (vm_compute; apply list_elem_of_singleton; done).
    split; [exact Hin|].
    destruct (Hup _ _ _ _ Hin) as [Hold | (s0 & e0 & Hl & _)]; [|exact Hl].
    vm_compute in Hold. by apply not_elem_of_nil in Hold.
  - exists (addLine Scenario.threePoints
              (AreaReq None (Polygon [(0, 0)%Q; (100, 0)%Q; (0, 100)%Q]))).2.
    assert (Hin : (addLine Scenario.threePoints
                     (AreaReq None (Polygon [(0, 0)%Q; (100, 0)%Q; (0, 100)%Q]))).2
                  ∈ lines (handleMouseDown Scenario.threePoints 1 1))
      by (vm_compute; apply list_elem_of_singleton; done).
    split; [exact Hin|].
    destruct (Hdown _ _ _ _ Hin) as [Hold | (pts & Ht & _)]; [|exact Ht].
    vm_compute in Hold. by apply not_elem_of_nil in Hold.
Defined.

(** C8, the claim as written fails: [addLine] accepts a line whose two
    end points are the same point and stores it. *)
Lemma C8_zero_length_line_is_stored :
  Scenario.pointLine = LineReq None (5, 5)%Q (5, 5)%Q ∧
  map (λ b, (id b, type b, shape b)) (lines (addLine Scenario.manager Scenario.pointLine).1)
    = [(1%nat, line, Segment (5, 5)%Q (5, 5)%Q)].
Proof. vm_compute. done. Qed.

(** *** Deduplication of line crossings *)

Section dedup.

(** The ids of the registry that belong to lines. *)
Variable isLine : nat → Prop.

Local Abbreviation apart := (LineManagerSpec.apart isLine).
Local Abbreviation spaced := (LineManagerSpec.spaced isLine).
Local Abbreviation recorded := (LineManagerSpec.recorded isLine).
Local Abbreviation sorted_out := (LineManagerSpec.sorted_out isLine).

Lemma spaced_snoc (past : list CrossingEvent) (e' : CrossingEvent) :
  spaced past → (∀ e, e ∈ past → apart e e') → spaced (past ++ [e']).
Proof.
  intros Hs Hnew i j e1 e2 Hij H1 H2.
  destruct (decide (j < length past)%nat) as [Hj|Hj].
  - rewrite lookup_app_l in H1 by lia. rewrite lookup_app_l in H2 by lia.
    exact (Hs i j e1 e2 Hij H1 H2).
  - assert (j = length past) as ->.
    { apply lookup_lt_Some in H2. rewrite length_app in H2. simpl in H2. lia. }
    rewrite lookup_app_l in H1 by lia.
    rewrite lookup_app_r in H2 by lia.
    rewrite Nat.sub_diag in H2. simpl in H2. injection H2 as <-.
    apply Hnew. by eapply list_elem_of_lookup_2.
Qed.

Lemma checkLine_cases (self : LineManager) (l : Boundary) (personId : nat)
    (p c : Point) (now : Z) :
  checkLine self l personId p c now = (self, []) ∨
  ∃ d x,
    (∀ r, crossedTracks self !! crossingKey personId (id l) = Some r →
          (cooldown ≤ now - timestamp r)%Z) ∧
    checkLine self l personId p c now =
      (set_crossedTracks
         (set_lineCrossings self (bump d (id l) (lineCrossings self)))
         (<[crossingKey personId (id l) := {| timestamp := now; direction := d |}]>
            (crossedTracks self)),
       [ mkEvent (id l) (name l) personId d x now ]).
Proof.
  unfold checkLine. destruct (shape l) as [s e|pts]; [|by left].
  destruct (lineIntersection p c s e) as [x|]; [|by left].
  destruct (crossedTracks self !! crossingKey personId (id l)) as [r|] eqn:Hr.
  - case_bool_decide as Ht; [by left|].
    right. eexists _, x. split; [|reflexivity].
    intros r' [= <-]. lia.
  - right. eexists _, x. split; [|reflexivity]. intros r' [=].
Qed.

Lemma checkLine_keeps (self : LineManager) (l : Boundary) (personId : nat)
    (p c : Point) (now : Z) (past : list CrossingEvent) :
  recorded past (crossedTracks self) → spaced past →
  recorded (past ++ (checkLine self l personId p c now).2)
           (crossedTracks (checkLine self l personId p c now).1) ∧
  spaced (past ++ (checkLine self l personId p c now).2).
Proof.
  intros Hrec Hsp.
  destruct (checkLine_cases self l personId p c now) as [->|(d & x & Hold & ->)]; simpl.
  { by rewrite app_nil_r. }
  set (key := crossingKey personId (id l)) in *.
  split.
  - intros e [He|He]%elem_of_app Hl.
    + destruct (Hrec e He Hl) as (r & Hr & Hle).
      destruct (decide (crossingKey (ev_personId e) (ev_lineId e) = key)) as [Heq|Hne].
      * rewrite Heq, lookup_insert_eq. eexists; split; [done|]. simpl.
        rewrite Heq in Hr. specialize (Hold r Hr). unfold cooldown in Hold. lia.
      * rewrite lookup_insert_ne by done. eauto.
    + apply list_elem_of_singleton in He. subst e. simpl. fold key.
      rewrite lookup_insert_eq. eexists; split; [done|]. simpl. lia.
  - apply spaced_snoc; [done|].
    intros e He Hp Hid Hl. simpl in *.
    destruct (Hrec e He Hl) as (r & Hr & Hle).
    rewrite Hp, Hid in Hr. specialize (Hold r Hr). lia.
Qed.

Lemma checkAreaCrossing_keeps (self : LineManager) (a : Boundary) (personId : nat)
    (c : Point) (now : Z) (past : list CrossingEvent) :
  ¬ isLine (id a) →
  recorded past (crossedTracks self) → spaced past →
  recorded (past ++ (checkAreaCrossing self a personId c now).2)
           (crossedTracks (checkAreaCrossing self a personId c now).1.1) ∧
  spaced (past ++ (checkAreaCrossing self a personId c now).2) ∧
  id (checkAreaCrossing self a personId c now).1.2 = id a ∧
  type (checkAreaCrossing self a personId c now).1.2 = type a.
Proof.
  intros Hna Hrec Hsp. unfold checkAreaCrossing.
  assert (Hev : ∀ e, ev_lineId e = id a →
            recorded (past ++ [e]) (crossedTracks self) ∧ spaced (past ++ [e])).
  { intros e He. split.
    - intros e' [H|H]%elem_of_app Hl; [by apply Hrec|].
      apply list_elem_of_singleton in H. subst e'. rewrite He in Hl. done.
    - apply spaced_snoc; [done|]. intros e' _ _ Hid Hl.
      rewrite Hid, He in Hl. done. }
  destruct (isInsideArea a c && _).
  { simpl. destruct (Hev (mkEvent (id a) (name a) personId dir_in c now) eq_refl). done. }
  destruct (negb _ && _).
  { simpl. destruct (Hev (mkEvent (id a) (name a) personId dir_out c now) eq_refl). done. }
  simpl. by rewrite app_nil_r.
Qed.

Lemma crossingLoop_keeps (ls : list Boundary) :
  ∀ (self : LineManager) (personId : nat) (p c : Point) (now : Z)
    (past : list CrossingEvent),
  sorted_out ls →
  recorded past (crossedTracks self) → spaced past →
  recorded (past ++ (crossingLoop self ls personId p c now).2)
           (crossedTracks (crossingLoop self ls personId p c now).1.1) ∧
  spaced (past ++ (crossingLoop self ls personId p c now).2) ∧
  sorted_out (crossingLoop self ls personId p c now).1.2.
Proof.
  induction ls as [|b rest IH]; intros self personId p c now past Hso Hrec Hsp.
  { simpl. by rewrite app_nil_r. }
  assert (Hrest : sorted_out rest).
  { intros b' Hb'. apply Hso. by right. }
  destruct (Hso b ltac:(by left)) as [Hline Harea].
  simpl. destruct (type b) eqn:Ht.
  - destruct (checkLine_keeps self b personId p c now past Hrec Hsp) as [Hrec1 Hsp1].
    destruct (checkLine self b personId p c now) as [self1 ev]. simpl in *.
    specialize (IH self1 personId p c now (past ++ ev) Hrest Hrec1 Hsp1).
    destruct (crossingLoop self1 rest personId p c now) as [[self2 rest'] evs].
    simpl in *. rewrite <- !app_assoc in IH. destruct IH as (? & ? & Hso').
    split; [done|]. split; [done|].
    intros b' [->|Hb']%elem_of_cons; [|by apply Hso'].
    rewrite Ht. split; [done|]. intros [=].
  - destruct (checkAreaCrossing_keeps self b personId c now past (Harea eq_refl) Hrec Hsp)
      as (Hrec1 & Hsp1 & Hid & Hty).
    destruct (checkAreaCrossing self b personId c now) as [[self1 b1] ev]. simpl in *.
    specialize (IH self1 personId p c now (past ++ ev) Hrest Hrec1 Hsp1).
    destruct (crossingLoop self1 rest personId p c now) as [[self2 rest'] evs].
    simpl in *. rewrite <- !app_assoc in IH. destruct IH as (? & ? & Hso').
    split; [done|]. split; [done|].
    intros b' [->|Hb']%elem_of_cons; [|by apply Hso'].
    rewrite Hid, Hty, Ht. split; [intros [=]|]. intros _. by apply Harea.
Qed.

Lemma runChecks_keeps (cs : list Call) :
  ∀ (self : LineManager) (past : list CrossingEvent),
  sorted_out (lines self) →
  recorded past (crossedTracks self) → spaced past →
  spaced (past ++ (runChecks self cs).2).
Proof.
  induction cs as [|k rest IH]; intros self past Hso Hrec Hsp.
  { simpl. by rewrite app_nil_r. }
  simpl. unfold checkLineCrossings.
  destruct (call_person k =? 0)%nat.
  { specialize (IH self past Hso Hrec Hsp).
    destruct (runChecks self rest) as [self2 evs]. done. }
  match goal with
  | |- context [crossingLoop self (lines self) ?pid ?p ?c ?t] =>
      destruct (crossingLoop_keeps (lines self) self pid p c t past Hso Hrec Hsp)
        as (Hrec1 & Hsp1 & Hso1);
      destruct (crossingLoop self (lines self) pid p c t) as [[self1 ls1] ev]
  end.
  simpl in *.
  specialize (IH (set_lines self1 ls1) (past ++ ev) Hso1 Hrec1 Hsp1).
  destruct (runChecks (set_lines self1 ls1) rest) as [self2 evs].
  simpl in *. by rewrite <- app_assoc in IH.
Qed.

End dedup.

End LineManagerProofs.

(** ** Enumeration of an object with integer keys *)

Lemma elem_of_Object_keys {V} (m : gmap nat V) (k : nat) :
  k ∈ Object_keys m ↔ is_Some (m !! k).
Proof.
  unfold Object_keys. rewrite merge_sort_Permutation, elem_of_elements.
  apply elem_of_dom.
Qed.

Lemma NoDup_Object_keys {V} (m : gmap nat V) : NoDup (Object_keys m).
Proof.
  unfold Object_keys. rewrite merge_sort_Permutation. apply NoDup_elements.
Qed.

Lemma omap_lookup_total {A B} (f : A → option B) (l : list A) :
  (∀ x, x ∈ l → is_Some (f x)) →
  ∀ i, omap f l !! i = l !! i ≫= f.
Proof.
  induction l as [|a l IH]; intros Hall i; [done|].
  destruct (Hall a) as [b Hb]; [by left|]. simpl. rewrite Hb.
  destruct i as [|i]; simpl; [done|].
  apply IH. intros x Hx. apply Hall. by right.
Qed.

Lemma Object_values_lookup {V} (m : gmap nat V) (i : nat) :
  Object_values m !! i = Object_keys m !! i ≫= λ k, m !! k.
Proof.
  unfold Object_values. apply omap_lookup_total.
  intros k Hk. by apply elem_of_Object_keys.
Qed.

Lemma fold_left_inv {A B} (f : A → B → A) (P : A → Prop) (l : list B) (a : A) :
  P a → (∀ a x, x ∈ l → P a → P (f a x)) → P (fold_left f l a).
Proof.
  revert a. induction l as [|x l IH]; intros a Ha Hstep; [done|].
  simpl. apply IH.
  - apply Hstep; [left | done].
  - intros a' x' Hx'. apply Hstep. by right.
Qed.

Module TrackerProofs.
Import Tracker TrackerSpec.

(** *** The loop of [handleDisappearances], key by key *)

Lemma view_step_same (self : PersonTracker) (k : nat) acc :
  view k (disappearStep self acc k) = stepView self k (view k acc).
Proof.
  destruct acc as [[dis cur] gone]. unfold disappearStep, stepView, view. simpl.
  destruct (cur !! k) as [t|] eqn:Hc; simpl; [by rewrite Hc|].
  destruct (maxDisappearedFrames self <? _)%nat; simpl.
  - rewrite lookup_insert_eq, Hc. f_equal.
    apply bool_decide_eq_true. apply elem_of_app. right. by left.
  - destruct (tracks self !! k) as [t|]; simpl.
    + by rewrite !lookup_insert_eq.
    + by rewrite lookup_insert_eq, Hc.
Qed.

Lemma view_step_other (self : PersonTracker) (k a : nat) acc :
  k ≠ a → view k (disappearStep self acc a) = view k acc.
Proof.
  intros Hne. destruct acc as [[dis cur] gone]. unfold disappearStep, view. simpl.
  destruct (cur !! a) as [t|]; simpl; [done|].
  destruct (maxDisappearedFrames self <? _)%nat; simpl.
  - rewrite lookup_insert_ne by done. f_equal.
    apply bool_decide_ext. rewrite elem_of_app, list_elem_of_singleton. tauto.
  - destruct (tracks self !! a); simpl; by rewrite ?lookup_insert_ne by done.
Qed.

Lemma view_fold_other (self : PersonTracker) (k : nat) (ks : list nat) :
  ∀ acc, k ∉ ks → view k (fold_left (disappearStep self) ks acc) = view k acc.
Proof.
  induction ks as [|a ks IH]; intros acc Hk; [done|].
  apply not_elem_of_cons in Hk as [Hne Hk]. simpl.
  rewrite IH by done. by apply view_step_other.
Qed.

Lemma view_fold_same (self : PersonTracker) (k : nat) (ks : list nat) :
  ∀ acc, NoDup ks → k ∈ ks →
    view k (fold_left (disappearStep self) ks acc) = stepView self k (view k acc).
Proof.
  induction ks as [|a ks IH]; intros acc Hnd Hk; [by apply not_elem_of_nil in Hk|].
  apply NoDup_cons in Hnd as [Ha Hnd]. simpl.
  destruct (decide (k = a)) as [->|Hne].
  - rewrite view_fold_other by done. apply view_step_same.
  - apply elem_of_cons in Hk as [?|Hk]; [done|].
    rewrite IH by done. by rewrite view_step_other.
Qed.

Lemma lookup_fold_delete (gone : list nat) :
  ∀ (d : gmap nat nat) (k : nat),
    fold_left (λ d trackId, delete trackId d) gone d !! k =
      if bool_decide (k ∈ gone) then None else d !! k.
Proof.
  induction gone as [|a gone IH]; intros d k; [done|].
  simpl. rewrite IH.
  destruct (decide (k = a)) as [->|Hne].
  - rewrite lookup_delete_eq.
    rewrite (bool_decide_eq_true_2 (a ∈ a :: gone)) by (by left).
    by case_bool_decide.
  - rewrite lookup_delete_ne by done.
    apply (f_equal (λ b : bool, if b then None else d !! k)).
    apply bool_decide_ext. rewrite elem_of_cons. tauto.
Qed.

(** What [handleDisappearances] leaves for track [k]: a track of
    [currentTracks] stays as it is; a track of [this.tracks] that is not
    in [currentTracks] has its counter advanced, and is dropped together
    with its counter when the counter exceeds [maxDisappearedFrames]. *)
Lemma handleDisappearances_lookup (self : PersonTracker) (cur : gmap nat Track)
    (upd : list nat) (cbs : list (nat * Track)) (k : nat) :
  let self' := (handleDisappearances self cur upd cbs).1 in
  let n := S (default 0%nat (disappeared self !! k)) in
  match cur !! k, tracks self !! k with
  | Some t, _ => tracks self' !! k = Some t ∧ disappeared self' !! k = disappeared self !! k
  | None, Some t =>
      if (maxDisappearedFrames self <? n)%nat
      then tracks self' !! k = None ∧ disappeared self' !! k = None
      else tracks self' !! k = Some t ∧ disappeared self' !! k = Some n
  | None, None => tracks self' !! k = None ∧ disappeared self' !! k = disappeared self !! k
  end.
Proof.
  unfold handleDisappearances.
  pose proof (view_fold_same self k (Object_keys (tracks self))
                (disappeared self, cur, []) (NoDup_Object_keys _)) as Hin.
  pose proof (view_fold_other self k (Object_keys (tracks self))
                (disappeared self, cur, [])) as Hout.
  rewrite elem_of_Object_keys in Hin, Hout.
  destruct (fold_left _ _ _) as [[dis cur'] gone]. simpl.
  rewrite lookup_fold_delete.
  unfold view, stepView in *. simpl in *.
  destruct (tracks self !! k) as [t|] eqn:Ht.
  - specialize (Hin ltac:(eauto)). clear Hout.
    destruct (cur !! k) as [t'|] eqn:Hc; simpl in *.
    + by injection Hin as -> -> ->.
    + destruct (maxDisappearedFrames self <? _)%nat; by injection Hin as -> -> ->.
  - specialize (Hout ltac:(by intros [? ?])). clear Hin.
    injection Hout as -> -> ->.
    by destruct (cur !! k).
Qed.

Lemma handleDisappearances_static (self : PersonTracker) (cur : gmap nat Track)
    (upd : list nat) (cbs : list (nat * Track)) :
  config (handleDisappearances self cur upd cbs).1 = config self ∧
  nextTrackId (handleDisappearances self cur upd cbs).1 = nextTrackId self.
Proof.
  unfold handleDisappearances. by destruct (fold_left _ _ _) as [[dis cur'] gone].
Qed.

(** What a frame without detections does to track [k]. *)
Lemma empty_frame_lookup (self : PersonTracker) (now : Z) (k : nat) :
  let self' := (updateTracks self [] now).1 in
  match tracks self !! k with
  | Some t =>
      if (maxDisappearedFrames self <? S (counter self k))%nat
      then tracks self' !! k = None ∧ disappeared self' !! k = None
      else tracks self' !! k = Some t ∧ disappeared self' !! k = Some (S (counter self k))
  | None => tracks self' !! k = None ∧ disappeared self' !! k = disappeared self !! k
  end.
Proof.
  unfold updateTracks. simpl.
  pose proof (handleDisappearances_lookup self ∅ [] [] k) as H.
  simpl in H. rewrite lookup_empty in H. exact H.
Qed.

(** C9: when the detector call throws, [processFrame] does not fail: it
    returns what it returns on a frame whose detector answers with no
    prediction, namely [updateTracks] on the empty array. On that frame no
    track is created and the loop over the live tracks advances the
    counter of every one of them by exactly one; a track whose advanced
    counter is still within [maxDisappearedFrames] is kept as the very same
    object (bbox and history included); a track whose advanced counter
    exceeds the limit is removed, as on every empty frame. *)
Theorem C9_detector_failure_is_an_empty_frame
    (self : PersonTracker) (error : string) (now : Z) :
  isModelLoaded self = true →
  processFrame self (Throws error) now = inr (updateTracks self [] now) ∧
  processFrame self (Throws error) now = processFrame self (Predictions []) now ∧
  (∀ k t, tracks self !! k = Some t →
     (fold_left (disappearStep self) (Object_keys (tracks self))
                (disappeared self, ∅, [])).1.1 !! k = Some (S (counter self k)) ∧
     ((S (counter self k) ≤ maxDisappearedFrames self)%nat →
        tracks (updateTracks self [] now).1 !! k = Some t ∧
        disappeared (updateTracks self [] now).1 !! k = Some (S (counter self k))) ∧
     ((maxDisappearedFrames self < S (counter self k))%nat →
        tracks (updateTracks self [] now).1 !! k = None)) ∧
  (∀ k, tracks self !! k = None → tracks (updateTracks self [] now).1 !! k = None).
Proof.
  intros Hloaded. unfold processFrame. rewrite Hloaded. simpl.
  split; [done|]. split; [done|]. split.
  - intros k t Ht. split.
    + pose proof (view_fold_same self k (Object_keys (tracks self))
                    (disappeared self, ∅, []) (NoDup_Object_keys _)) as Hv.
      rewrite elem_of_Object_keys, Ht in Hv. specialize (Hv ltac:(eauto)).
      unfold view, stepView in Hv. simpl in Hv. rewrite lookup_empty in Hv. simpl in Hv.
      destruct (_ <? _)%nat; by injection Hv as -> _ _.
    + pose proof (empty_frame_lookup self now k) as H.
      simpl in H. rewrite Ht in H.
      destruct (maxDisappearedFrames self <? S (counter self k))%nat eqn:E.
      * apply Nat.ltb_lt in E. split; [lia|]. intros _. apply H.
      * apply Nat.ltb_ge in E. split; [done|]. lia.
  - intros k Hk. pose proof (empty_frame_lookup self now k) as H.
    simpl in H. rewrite Hk in H. apply H.
Qed.

Lemma C9_detector_failure_is_an_empty_frame_witness :
  isModelLoaded TrackerScenario.twoTracks = true ∧
  processFrame TrackerScenario.twoTracks (Throws "inference failed") 40
    = inr (updateTracks TrackerScenario.twoTracks [] 40) ∧
  tracks (updateTracks TrackerScenario.twoTracks [] 40).1 !! 1%nat
    = Some (initializeTrack 1 (TrackerScenario.person 0) 0) ∧
  disappeared (updateTracks TrackerScenario.twoTracks [] 40).1 !! 1%nat = Some 1%nat.
Proof.
  assert (Hl : isModelLoaded TrackerScenario.twoTracks = true) by reflexivity.
  destruct (C9_detector_failure_is_an_empty_frame
              TrackerScenario.twoTracks "inference failed" 40 Hl) as (H1 & _ & H3 & _).
  split; [exact Hl|]. split; [exact H1|].
  destruct (H3 1%nat (initializeTrack 1 (TrackerScenario.person 0) 0)) as (_ & Hkeep & _).
  { vm_compute. reflexivity. }
  apply Hkeep. vm_compute. lia.
Defined.

(** *** The loops of [updateTracks] *)

Ltac open_matched st m :=
  destruct st as [[[self cur] upd] cbs]; destruct m as [trackId detectionIdx];
  unfold matchedStep, ls_self, ls_cur; simpl;
  destruct (_ !! detectionIdx) as [detection|]; simpl;
  [destruct (tracks self !! trackId) as [track|] eqn:Htrack; simpl|].

Ltac open_unmatched st detections j :=
  destruct st as [[[self cur] upd] cbs];
  unfold unmatchedStep, ls_self, ls_cur; simpl;
  destruct (detections !! j) as [detection|]; simpl.

Lemma matchedStep_config detections now st m :
  config (ls_self (matchedStep detections now st m)) = config (ls_self st) ∧
  nextTrackId (ls_self (matchedStep detections now st m)) = nextTrackId (ls_self st).
Proof. open_matched st m; done. Qed.

Lemma matchedStep_other detections now st m (k : nat) :
  k ≠ m.1 →
  tracks (ls_self (matchedStep detections now st m)) !! k = tracks (ls_self st) !! k ∧
  ls_cur (matchedStep detections now st m) !! k = ls_cur st !! k ∧
  disappeared (ls_self (matchedStep detections now st m)) !! k
    = disappeared (ls_self st) !! k.
Proof.
  intros Hne. open_matched st m; simpl in Hne; try done.
  by rewrite !lookup_insert_ne.
Qed.

Lemma matchedStep_dom detections now st m (k : nat) :
  (is_Some (tracks (ls_self (matchedStep detections now st m)) !! k)
     ↔ is_Some (tracks (ls_self st) !! k)) ∧
  (is_Some (ls_cur (matchedStep detections now st m) !! k) →
     is_Some (ls_cur st !! k) ∨ is_Some (tracks (ls_self st) !! k)).
Proof.
  open_matched st m; try by (split; [done | by left]).
  destruct (decide (k = trackId)) as [->|Hne].
  - rewrite !lookup_insert_eq, Htrack. split; [by split; eauto | by right].
  - rewrite !lookup_insert_ne by done. split; [done | by left].
Qed.

Lemma matchedStep_all (Q : Track → Prop) detections now st m :
  (∀ self t d, historyLength self = historyLength (ls_self st) → Q t →
               Q (updateTrack self t d now)) →
  (∀ k t, tracks (ls_self st) !! k = Some t → Q t) →
  (∀ k t, ls_cur st !! k = Some t → Q t) →
  (∀ k t, tracks (ls_self (matchedStep detections now st m)) !! k = Some t → Q t) ∧
  (∀ k t, ls_cur (matchedStep detections now st m) !! k = Some t → Q t).
Proof.
  intros Hup Ht Hc. open_matched st m; try done.
  unfold ls_self, ls_cur in *. simpl in *.
  assert (Q (updateTrack self track detection now)) by (apply Hup; eauto).
  split; intros k t; (destruct (decide (k = trackId)) as [->|Hne];
    [rewrite lookup_insert_eq; by intros [= <-] | rewrite lookup_insert_ne by done; eauto]).
Qed.

Lemma unmatchedStep_config detections now st j :
  config (ls_self (unmatchedStep detections now st j)) = config (ls_self st) ∧
  tracks (ls_self (unmatchedStep detections now st j)) = tracks (ls_self st) ∧
  (nextTrackId (ls_self st) ≤ nextTrackId (ls_self (unmatchedStep detections now st j)))%nat.
Proof. open_unmatched st detections j; repeat split; lia. Qed.

Lemma unmatchedStep_other detections now st j (k : nat) :
  (k < nextTrackId (ls_self st))%nat →
  ls_cur (unmatchedStep detections now st j) !! k = ls_cur st !! k ∧
  disappeared (ls_self (unmatchedStep detections now st j)) !! k
    = disappeared (ls_self st) !! k.
Proof.
  intros Hlt. open_unmatched st detections j; [|done]. unfold ls_self in Hlt. simpl in Hlt.
  rewrite !lookup_insert_ne by lia. done.
Qed.

Lemma unmatchedStep_dom detections now st j (k : nat) :
  is_Some (ls_cur (unmatchedStep detections now st j) !! k) →
  is_Some (ls_cur st !! k) ∨
  (nextTrackId (ls_self st) ≤ k
   < nextTrackId (ls_self (unmatchedStep detections now st j)))%nat.
Proof.
  open_unmatched st detections j; [|by left].
  destruct (decide (k = nextTrackId self)) as [->|Hne].
  - intros _. right. lia.
  - rewrite lookup_insert_ne by done. by left.
Qed.

Lemma unmatchedStep_all (Q : Track → Prop) detections now st j :
  (∀ k d, Q (initializeTrack k d now)) →
  (∀ k t, ls_cur st !! k = Some t → Q t) →
  (∀ k t, ls_cur (unmatchedStep detections now st j) !! k = Some t → Q t).
Proof.
  intros Hinit Hc. open_unmatched st detections j; [|done].
  intros k t. destruct (decide (k = nextTrackId self)) as [->|Hne].
  - rewrite lookup_insert_eq. by intros [= <-].
  - rewrite lookup_insert_ne by done. apply Hc.
Qed.

Lemma firstStep_config now st d :
  config (ls_self (firstStep now st d)) = config (ls_self st) ∧
  tracks (ls_self (firstStep now st d)) = tracks (ls_self st) ∧
  disappeared (ls_self (firstStep now st d)) = disappeared (ls_self st) ∧
  nextTrackId (ls_self (firstStep now st d)) = S (nextTrackId (ls_self st)).
Proof. by destruct st as [[[self cur] upd] cbs]. Qed.

Lemma firstStep_lookup now st d (k : nat) :
  ls_cur (firstStep now st d) !! k =
    if decide (k = nextTrackId (ls_self st))
    then Some (initializeTrack k d now) else ls_cur st !! k.
Proof.
  destruct st as [[[self cur] upd] cbs]. unfold firstStep, ls_cur, ls_self. simpl.
  case_decide as Hk.
  - subst k. apply lookup_insert_eq.
  - by rewrite lookup_insert_ne.
Qed.

(** *** One frame *)

Lemma frameInv_init (s : PersonTracker) (ids : list nat) : frameInv s ids (s, ∅, [], []).
Proof.
  unfold frameInv, ls_self, ls_cur. simpl. repeat split; try done.
  intros k [? Hk]. by rewrite lookup_empty in Hk.
Qed.

Lemma frameInv_matched s ids detections now st m :
  m.1 ∈ ids → frameInv s ids st → frameInv s ids (matchedStep detections now st m).
Proof.
  intros Hm (Hc & Hn & Ht & Hcur & Hun).
  destruct (matchedStep_config detections now st m) as [Hc' Hn'].
  split; [congruence|]. split; [lia|]. split; [|split].
  - intros k. destruct (matchedStep_dom detections now st m k) as [-> _]. apply Ht.
  - intros k Hk. destruct (matchedStep_dom detections now st m k) as [_ Hd].
    destruct (Hd Hk) as [H|H].
    + destruct (Hcur k H) as [?|?]; [by left | right; lia].
    + left. by apply Ht.
  - intros k Hk Hlt.
    destruct (matchedStep_other detections now st m k) as (-> & -> & ->).
    + intros ->. done.
    + by apply Hun.
Qed.

Lemma frameInv_unmatched s ids detections now st j :
  frameInv s ids st → frameInv s ids (unmatchedStep detections now st j).
Proof.
  intros (Hc & Hn & Ht & Hcur & Hun).
  destruct (unmatchedStep_config detections now st j) as (Hc' & Ht' & Hn').
  split; [congruence|]. split; [lia|]. split; [|split].
  - intros k. rewrite Ht'. apply Ht.
  - intros k Hk. destruct (unmatchedStep_dom detections now st j k Hk) as [H|H].
    + destruct (Hcur k H) as [?|?]; [by left | right; lia].
    + right. lia.
  - intros k Hk Hlt. rewrite Ht'.
    destruct (unmatchedStep_other detections now st j k) as (-> & ->); [lia|].
    by apply Hun.
Qed.

Lemma frameInv_afterLoops s detections now :
  frameInv s (association s detections).1.*1 (afterLoops s detections now).
Proof.
  unfold afterLoops. apply fold_left_inv.
  - apply fold_left_inv; [apply frameInv_init|].
    intros st m Hm. apply frameInv_matched.
    apply list_elem_of_fmap. by exists m.
  - intros st j _. apply frameInv_unmatched.
Qed.

(** [updateTracks], path by path. *)
Lemma updateTracks_paths (s : PersonTracker) (detections : list Detection) (now : Z) :
  (detections = [] ∧ updateTracks s detections now = handleDisappearances s ∅ [] []) ∨
  (detections ≠ [] ∧ tracks s = ∅ ∧
   ∃ st, st = fold_left (firstStep now) detections (s, ∅, [], []) ∧
         (updateTracks s detections now).1 = set_tracks (ls_self st) (ls_cur st)) ∨
  (detections ≠ [] ∧ tracks s ≠ ∅ ∧
   ∃ st, st = afterLoops s detections now ∧
         updateTracks s detections now =
           handleDisappearances (ls_self st) (ls_cur st) st.1.2 st.2).
Proof.
  unfold updateTracks.
  destruct detections as [|d ds]; [by left|]. right.
  change (length (d :: ds) =? 0)%nat with false. cbv iota.
  destruct (length (Object_keys (tracks s)) =? 0)%nat eqn:E.
  - left. split; [done|]. split.
    + apply Nat.eqb_eq, nil_length_inv in E. apply map_eq. intros k.
      rewrite lookup_empty. apply eq_None_not_Some. rewrite <- elem_of_Object_keys, E.
      apply not_elem_of_nil.
    + eexists; split; [reflexivity|].
      by destruct (fold_left _ _ _) as [[[self' cur'] upd'] cbs'].
  - right. split; [done|]. split.
    + intros He. rewrite He in E. done.
    + exists (afterLoops s (d :: ds) now). split; [done|].
      unfold afterLoops, association.
      destruct (matchDetectionsToTracks _ _ _) as [matched unmatched]. simpl.
      by destruct (fold_left _ _ _) as [[[self' cur'] upd'] cbs'].
Qed.

Lemma firstLoop_inv (s : PersonTracker) (detections : list Detection) (now : Z) :
  let st := fold_left (firstStep now) detections (s, ∅, [], []) in
  config (ls_self st) = config s ∧
  (nextTrackId s ≤ nextTrackId (ls_self st))%nat ∧
  disappeared (ls_self st) = disappeared s ∧
  (∀ k t, ls_cur st !! k = Some t →
          (nextTrackId s ≤ k < nextTrackId (ls_self st))%nat ∧
          ∃ d, d ∈ detections ∧ t = initializeTrack k d now).
Proof.
  simpl. apply fold_left_inv.
  - unfold ls_self, ls_cur. simpl. repeat split; try done; by rewrite lookup_empty in H.
  - intros st d Hd (Hc & Hn & Hdis & Hcur).
    destruct (firstStep_config now st d) as (Hc' & _ & Hdis' & Hn').
    split; [congruence|]. split; [lia|]. split; [congruence|].
    intros k t. rewrite firstStep_lookup. case_decide as Hk.
    + intros [= <-]. split; [lia|]. by exists d.
    + intros H. destruct (Hcur k t H) as [? ?]. split; [lia | done].
Qed.

(** The configuration is kept and the id counter never goes back. *)
Lemma updateTracks_config (s : PersonTracker) (detections : list Detection) (now : Z) :
  config (updateTracks s detections now).1 = config s ∧
  (nextTrackId s ≤ nextTrackId (updateTracks s detections now).1)%nat.
Proof.
  destruct (updateTracks_paths s detections now)
    as [[_ ->] | [(_ & _ & st & -> & ->) | (_ & _ & st & -> & ->)]].
  - destruct (handleDisappearances_static s ∅ [] []) as [-> ->]. done.
  - destruct (firstLoop_inv s detections now) as (Hc & Hn & _). done.
  - destruct (frameInv_afterLoops s detections now) as (Hc & Hn & _).
    set (st := afterLoops s detections now) in *.
    destruct (handleDisappearances_static (ls_self st) (ls_cur st) st.1.2 st.2)
      as [-> ->]. done.
Qed.

(** A track of the new state is a track of the old state under the same
    id, or it carries an id handed out during this frame. *)
Lemma updateTracks_dom (s : PersonTracker) (detections : list Detection) (now : Z) (k : nat) :
  is_Some (tracks (updateTracks s detections now).1 !! k) →
  is_Some (tracks s !! k) ∨
  (nextTrackId s ≤ k < nextTrackId (updateTracks s detections now).1)%nat.
Proof.
  destruct (updateTracks_paths s detections now)
    as [[_ ->] | [(_ & _ & st & -> & ->) | (_ & _ & st & Hst & Hu)]].
  - pose proof (handleDisappearances_lookup s ∅ [] [] k) as H. simpl in H.
    rewrite lookup_empty in H. intros [t Ht].
    destruct (tracks s !! k); [by left|]. destruct H as [H _]. congruence.
  - destruct (firstLoop_inv s detections now) as (_ & _ & _ & Hcur).
    intros [t Ht]. right. by destruct (Hcur k t Ht).
  - rewrite Hu. destruct (frameInv_afterLoops s detections now) as (_ & Hn & Ht & Hcur & _).
    rewrite <- Hst in *.
    destruct (handleDisappearances_static (ls_self st) (ls_cur st) st.1.2 st.2)
      as [_ ->].
    pose proof (handleDisappearances_lookup (ls_self st) (ls_cur st) st.1.2 st.2 k) as H.
    simpl in H. intros [t Hk].
    destruct (ls_cur st !! k) as [t'|] eqn:Hc.
    + apply Hcur. by rewrite Hc.
    + destruct (tracks (ls_self st) !! k) as [t'|] eqn:Ht'.
      * left. apply Ht. by rewrite Ht'.
      * destruct H as [H _]. congruence.
Qed.

(** *** Life cycle of a track *)

Lemma idsBelowNext_constructor (options : Options) : idsBelowNext (constructor options).
Proof. intros k [t Ht]. simpl in Ht. by rewrite lookup_empty in Ht. Qed.

Lemma idsBelowNext_updateTracks (s : PersonTracker) (detections : list Detection) (now : Z) :
  idsBelowNext s → idsBelowNext (updateTracks s detections now).1.
Proof.
  intros Hs k Hk.
  destruct (updateTracks_config s detections now) as [_ Hn].
  destruct (updateTracks_dom s detections now k Hk) as [H|H]; [|lia].
  specialize (Hs k H). lia.
Qed.

Lemma idsBelowNext_run (frames : list (list Detection * Z)) :
  ∀ s, idsBelowNext s → idsBelowNext (run s frames).
Proof.
  induction frames as [|f frames IH]; intros s Hs; [done|].
  apply IH. by apply idsBelowNext_updateTracks.
Qed.

(** An id that was handed out and is no longer in use never comes back. *)
Lemma run_absent (frames : list (list Detection * Z)) :
  ∀ s t, idsBelowNext s → tracks s !! t = None → (t < nextTrackId s)%nat →
         tracks (run s frames) !! t = None.
Proof.
  induction frames as [|f frames IH]; intros s t Hs Ht Hlt; [done|].
  simpl. destruct (updateTracks_config s f.1 f.2) as [_ Hn].
  apply IH; [by apply idsBelowNext_updateTracks | | lia].
  apply eq_None_not_Some. intros Hk.
  destruct (updateTracks_dom s f.1 f.2 t Hk) as [H|H]; [|lia].
  rewrite Ht in H. by destruct H.
Qed.

(** A track that no detection was matched to in this frame. *)
Lemma updateTracks_unmatched (s : PersonTracker) (detections : list Detection) (now : Z)
    (t : nat) (tr : Track) :
  idsBelowNext s → tracks s !! t = Some tr →
  t ∉ (association s detections).1.*1 →
  if (maxDisappearedFrames s <? S (counter s t))%nat
  then tracks (updateTracks s detections now).1 !! t = None ∧
       disappeared (updateTracks s detections now).1 !! t = None
  else tracks (updateTracks s detections now).1 !! t = Some tr ∧
       disappeared (updateTracks s detections now).1 !! t = Some (S (counter s t)).
Proof.
  intros Hs Ht Hun.
  destruct (updateTracks_paths s detections now)
    as [[-> _] | [(_ & He & _) | (_ & _ & st & Hst & ->)]].
  - pose proof (empty_frame_lookup s now t) as H. simpl in H. by rewrite Ht in H.
  - rewrite He, lookup_empty in Ht. done.
  - destruct (frameInv_afterLoops s detections now) as (Hc & _ & _ & _ & Hinv).
    rewrite <- Hst in *.
    destruct (Hinv t Hun) as (Ht' & Hcur & Hdis); [apply Hs; by rewrite Ht|].
    pose proof (handleDisappearances_lookup (ls_self st) (ls_cur st) st.1.2 st.2 t) as H.
    simpl in H. rewrite Hcur, Ht', Ht, Hdis in H.
    assert (maxDisappearedFrames (ls_self st) = maxDisappearedFrames s) as Hm
      by (unfold config in Hc; congruence).
    rewrite Hm in H. exact H.
Qed.

(** *** History of a track *)

Lemma updateTracks_all (Q : Track → Prop) (s : PersonTracker)
    (detections : list Detection) (now : Z) :
  (∀ self t d, historyLength self = historyLength s → Q t → Q (updateTrack self t d now)) →
  (∀ k d, Q (initializeTrack k d now)) →
  (∀ k t, tracks s !! k = Some t → Q t) →
  ∀ k t, tracks (updateTracks s detections now).1 !! k = Some t → Q t.
Proof.
  intros Hup Hinit Hs k t.
  destruct (updateTracks_paths s detections now)
    as [[_ ->] | [(_ & _ & st & -> & ->) | (_ & _ & st & Hst & ->)]].
  - pose proof (handleDisappearances_lookup s ∅ [] [] k) as H. simpl in H.
    rewrite lookup_empty in H. intros Hk.
    destruct (tracks s !! k) as [t'|] eqn:Ht'; [|destruct H; congruence].
    destruct (_ <? _)%nat; destruct H as [H _]; [congruence|].
    rewrite H in Hk. injection Hk as <-. eauto.
  - destruct (firstLoop_inv s detections now) as (_ & _ & _ & Hcur).
    simpl. intros Hk. destruct (Hcur k t Hk) as (_ & d & _ & ->). apply Hinit.
  - assert (Hall : historyLength (ls_self st) = historyLength s ∧
                   (∀ k t, tracks (ls_self st) !! k = Some t → Q t) ∧
                   (∀ k t, ls_cur st !! k = Some t → Q t)).
    { rewrite Hst. unfold afterLoops. apply fold_left_inv.
      - apply fold_left_inv.
        + unfold ls_self, ls_cur. simpl. split; [done|]. split; [done|].
          intros ? ? H. by rewrite lookup_empty in H.
        + intros st' m _ (Hh & Ht & Hc).
          destruct (matchedStep_config detections now st' m) as [Hc' _].
          split; [unfold config in Hc'; congruence|].
          apply matchedStep_all; [|done..].
          intros self t' d Hself. apply Hup. congruence.
      - intros st' j _ (Hh & Ht & Hc).
        destruct (unmatchedStep_config detections now st' j) as (Hc' & -> & _).
        split; [unfold config in Hc'; congruence|]. split; [done|].
        by apply unmatchedStep_all. }
    destruct Hall as (_ & Ht & Hc).
    pose proof (handleDisappearances_lookup (ls_self st) (ls_cur st) st.1.2 st.2 k) as H.
    simpl in H. intros Hk.
    destruct (ls_cur st !! k) as [t'|] eqn:Hc'.
    { destruct H as [H _]. rewrite H in Hk. injection Hk as <-. eauto. }
    destruct (tracks (ls_self st) !! k) as [t'|] eqn:Ht'; [|destruct H; congruence].
    destruct (_ <? _)%nat; destruct H as [H _]; [congruence|].
    rewrite H in Hk. injection Hk as <-. eauto.
Qed.

Lemma updateTrack_historyWithin (self : PersonTracker) (t : Track) (d : Detection) (now : Z) :
  historyWithin (historyLength self) t →
  historyWithin (historyLength self) (updateTrack self t d now).
Proof.
  unfold historyWithin, updateTrack. simpl. intros [H1 H2].
  destruct (history t) as [|e h]; simpl in *; [lia|].
  rewrite length_app. simpl.
  destruct (_ <? _)%nat eqn:E.
  - rewrite length_app. simpl. lia.
  - apply Nat.ltb_ge in E. simpl. rewrite length_app in *. simpl in *. lia.
Qed.

Lemma run_historyWithin (frames : list (list Detection * Z)) :
  ∀ s, (1 ≤ historyLength s)%nat →
       (∀ k t, tracks s !! k = Some t → historyWithin (historyLength s) t) →
       historyLength (run s frames) = historyLength s ∧
       ∀ k t, tracks (run s frames) !! k = Some t → historyWithin (historyLength s) t.
Proof.
  induction frames as [|f frames IH]; intros s Hhl Hs; [done|].
  simpl. destruct (updateTracks_config s f.1 f.2) as [Hc _].
  assert (Hh : historyLength (updateTracks s f.1 f.2).1 = historyLength s)
    by (unfold config in Hc; congruence).
  destruct (IH (updateTracks s f.1 f.2).1) as [IH1 IH2].
  - lia.
  - rewrite Hh. apply (updateTracks_all (historyWithin (historyLength s))); [| |done].
    + intros self t d <-. apply updateTrack_historyWithin.
    + intros k d. unfold historyWithin. simpl. lia.
  - rewrite IH1, Hh. split; [done|]. intros k t Hk. rewrite <- Hh. by eapply IH2.
Qed.

(** C6: along every sequence of frames from a new tracker, every live
    track has between one and [historyLength] history entries. An update
    appends the new entry at the end; when the history is already full it
    then drops exactly the first, oldest entry, and the others keep their
    order. Without an option [historyLength] is 10. *)
Theorem C6_history_is_a_bounded_queue :
  (∀ options frames k t,
     tracks (run (constructor options) frames) !! k = Some t →
     (1 ≤ length (history t) ≤ historyLength (run (constructor options) frames))%nat) ∧
  (∀ self track d now,
     (length (history track) < historyLength self)%nat →
     history (updateTrack self track d now) =
       history track ++ [mkHistoryEntry now (det_bbox d) (centroid_of (det_bbox d))
                                        (det_score d)]) ∧
  (∀ self track d now oldest others,
     history track = oldest :: others →
     (historyLength self ≤ length (history track))%nat →
     history (updateTrack self track d now) =
       others ++ [mkHistoryEntry now (det_bbox d) (centroid_of (det_bbox d))
                                 (det_score d)]) ∧
  (∀ c m, historyLength (constructor (mkOptions c m None)) = 10%nat).
Proof.
  split; [|split; [|split; [|done]]].
  - intros options frames k t Hk.
    destruct (run_historyWithin frames (constructor options)) as [Hh Hall].
    + simpl. by destruct (opt_historyLength options) as [[|n]|]; simpl; lia.
    + intros k' t' H. simpl in H. by rewrite lookup_empty in H.
    + rewrite Hh. by eapply Hall.
  - intros self track d now Hlt. unfold updateTrack. simpl.
    rewrite length_app. simpl.
    destruct (_ <? _)%nat eqn:E; [|done]. apply Nat.ltb_lt in E. lia.
  - intros self track d now oldest others Hh Hge. unfold updateTrack. simpl.
    rewrite Hh in *. simpl in *. rewrite length_app. simpl.
    destruct (_ <? _)%nat eqn:E; [done|]. apply Nat.ltb_ge in E. lia.
Qed.

(** *** Association of detections to tracks *)

Lemma scanRow_found (md : gset nat) (row : list Q) :
  ∀ (j0 : nat) (maxIoU : Q) (maxIdx : option nat) (v : Q) (j : nat),
    scanRow md row j0 maxIoU maxIdx = (v, Some j) →
    (maxIdx = Some j ∧ v = maxIoU) ∨
    ((j0 ≤ j)%nat ∧ row !! (j - j0)%nat = Some v ∧ j ∉ md).
Proof.
  induction row as [|x row IH]; intros j0 maxIoU maxIdx v j; simpl.
  { intros [= -> ->]. by left. }
  destruct (negb (bool_decide (j0 ∈ md)) && Qltb maxIoU x) eqn:E; intros H.
  - apply IH in H as [[[= ->] ->] | (Hle & Hrow & Hmd)]; right.
    + rewrite Nat.sub_diag. split; [lia|]. split; [done|].
      apply andb_true_iff in E as [E _]. apply negb_true_iff in E.
      by apply bool_decide_eq_false in E.
    + split; [lia|]. split; [|done].
      replace (j - j0)%nat with (S (j - S j0)) by lia. done.
  - apply IH in H as [? | (Hle & Hrow & Hmd)]; [by left | right].
    split; [lia|]. split; [|done].
    replace (j - j0)%nat with (S (j - S j0)) by lia. done.
Qed.

Section matching.

Variable trackIds : list nat.
Variable matrix : list (list Q).
Hypothesis trackIds_NoDup : NoDup trackIds.

Local Abbreviation matchInv := (TrackerSpec.matchInv trackIds matrix).

Lemma matchInv_mono i matched md : matchInv i matched md → matchInv (S i) matched md.
Proof.
  intros (? & ? & ? & H). repeat split; try done; try by apply H0.
  intros trackId j Hin. destruct (H trackId j Hin) as (i' & row & v & ? & ?).
  exists i', row, v. split; [lia | done].
Qed.

Lemma matchRows_inv (rows : list (list Q)) :
  ∀ i matched md,
    (∀ n, rows !! n = matrix !! (i + n)%nat) →
    (i + length rows ≤ length trackIds)%nat →
    matchInv i matched md →
    matchInv (i + length rows)
             (matchRows trackIds rows i matched md).1
             (matchRows trackIds rows i matched md).2.
Proof.
  induction rows as [|row rest IH]; intros i matched md Hrows Hlen Hinv.
  { simpl. by rewrite Nat.add_0_r. }
  simpl in Hlen.
  assert (Hrest : ∀ n, rest !! n = matrix !! (S i + n)%nat).
  { intros n. replace (S i + n)%nat with (i + S n)%nat by lia. by rewrite <- Hrows. }
  destruct (lookup_lt_is_Some_2 trackIds i ltac:(lia)) as [trackId Hid].
  simpl. rewrite Hid. simpl.
  destruct (scanRow md row 0 (-1)%Q None) as [maxIoU maxIdx] eqn:Hscan.
  replace (i + S (length rest))%nat with (S i + length rest)%nat by lia.
  destruct (Qle_bool minIoU maxIoU) eqn:Hmin;
    [destruct maxIdx as [j|]|]; try (apply IH; [done | lia | by apply matchInv_mono]).
  apply IH; [done | lia |].
  apply scanRow_found in Hscan as [[[=] _] | (_ & Hrow & Hmd)].
  rewrite Nat.sub_0_r in Hrow.
  destruct Hinv as (Hset & Hnd2 & Hnd1 & Hall).
  split; [|split; [|split]].
  - intros j'. rewrite fmap_app, elem_of_app, elem_of_union, elem_of_singleton, Hset.
    simpl. rewrite list_elem_of_singleton. tauto.
  - rewrite fmap_app. apply NoDup_app. split; [done|]. split; [|apply NoDup_singleton].
    intros j' Hj' ->%list_elem_of_singleton. apply Hmd. by apply Hset.
  - rewrite fmap_app. apply NoDup_app. split; [done|]. split; [|apply NoDup_singleton].
    intros t' Ht' ->%list_elem_of_singleton.
    apply list_elem_of_fmap in Ht' as [[t0 j0] [Heq Hin]]. simpl in Heq. subst t0.
    destruct (Hall trackId j0 Hin) as (i' & _ & _ & Hi' & Hid' & _).
    pose proof (NoDup_lookup trackIds i' i trackId trackIds_NoDup Hid' Hid). lia.
  - intros t' j' [Hin | Hin%list_elem_of_singleton]%elem_of_app.
    + destruct (Hall t' j' Hin) as (i' & row' & v & ? & ?).
      exists i', row', v. split; [lia | done].
    + injection Hin as -> ->. exists i, row, maxIoU.
      split; [lia|]. split; [done|]. split.
      * rewrite <- (Nat.add_0_r i), <- Hrows. done.
      * split; [done|]. by apply Qle_bool_iff.
Qed.

End matching.

Lemma Object_keys_empty {V} (m : gmap nat V) : m = ∅ → Object_keys m = [].
Proof.
  intros ->. apply elem_of_nil_inv. intros k Hk%elem_of_Object_keys.
  rewrite lookup_empty in Hk. by destruct Hk.
Qed.

Lemma calculateIoUMatrix_lookup (s : PersonTracker) (detections : list Detection)
    (i : nat) (row : list Q) :
  calculateIoUMatrix s detections !! i = Some row →
  ∃ trackId tr,
    Object_keys (tracks s) !! i = Some trackId ∧ tracks s !! trackId = Some tr ∧
    row = (λ d, calculateIoU (bbox tr) (det_bbox d)) <$> detections.
Proof.
  unfold calculateIoUMatrix.
  change (map ?f ?l) with (f <$> l).
  rewrite list_lookup_fmap, Object_values_lookup.
  destruct (Object_keys (tracks s) !! i) as [trackId|]; [|done]. simpl.
  destruct (tracks s !! trackId) as [tr|] eqn:Htr; [|done]. simpl.
  intros [= <-]. by exists trackId, tr.
Qed.

Lemma calculateIoUMatrix_length (s : PersonTracker) (detections : list Detection) :
  length (calculateIoUMatrix s detections) = length (Object_keys (tracks s)).
Proof.
  unfold calculateIoUMatrix. rewrite length_map.
  destruct (decide (length (Object_values (tracks s)) = length (Object_keys (tracks s))))
    as [?|Hne]; [done|].
  exfalso.
  destruct (decide (length (Object_values (tracks s)) < length (Object_keys (tracks s)))%nat)
    as [Hlt|Hge].
  - destruct (lookup_lt_is_Some_2 (Object_keys (tracks s))
                (length (Object_values (tracks s))) Hlt) as [k Hk].
    pose proof (Object_values_lookup (tracks s) (length (Object_values (tracks s)))) as H.
    rewrite Hk in H. simpl in H.
    rewrite lookup_ge_None_2 in H by lia.
    assert (is_Some (tracks s !! k)) as [? Hs].
    { apply elem_of_Object_keys. by eapply list_elem_of_lookup_2. }
    congruence.
  - destruct (lookup_lt_is_Some_2 (Object_values (tracks s))
                (length (Object_keys (tracks s))) ltac:(lia)) as [t Ht].
    rewrite Object_values_lookup, lookup_ge_None_2 in Ht by lia. done.
Qed.

(** The matching of one frame. *)
Lemma association_spec (s : PersonTracker) (detections : list Detection) :
  NoDup (association s detections).1.*2 ∧
  NoDup (association s detections).1.*1 ∧
  (∀ trackId j, (trackId, j) ∈ (association s detections).1 →
     ∃ tr d, tracks s !! trackId = Some tr ∧ detections !! j = Some d ∧
             (minIoU <= calculateIoU (bbox tr) (det_bbox d))%Q) ∧
  (∀ j, j ∈ (association s detections).2 ↔
        (j < length detections)%nat ∧ j ∉ (association s detections).1.*2).
Proof.
  unfold association, matchDetectionsToTracks.
  destruct (length (calculateIoUMatrix s detections) =? 0)%nat eqn:E.
  { simpl. repeat split; try apply NoDup_nil_2.
    - intros ? ? H. by apply not_elem_of_nil in H.
    - apply elem_of_seq in H. lia.
    - apply not_elem_of_nil.
    - intros [? _]. apply elem_of_seq. lia. }
  pose proof (matchRows_inv (Object_keys (tracks s)) (calculateIoUMatrix s detections)
                (NoDup_Object_keys _) (calculateIoUMatrix s detections) 0 [] ∅) as H.
  destruct (matchRows _ _ 0 [] ∅) as [matched md]. simpl in *.
  destruct H as (Hset & Hnd2 & Hnd1 & Hall).
  - done.
  - by rewrite calculateIoUMatrix_length.
  - split; [|split; [|split]]; simpl; try apply NoDup_nil_2.
    + intros j. split; intros H.
      * by apply not_elem_of_empty in H.
      * by apply not_elem_of_nil in H.
    + intros ? ? H. by apply not_elem_of_nil in H.
  - split; [done|]. split; [done|]. split.
    + intros trackId j Hin.
      destruct (Hall trackId j Hin) as (i' & row & v & _ & Hid & Hrow & Hv & Hmin).
      apply calculateIoUMatrix_lookup in Hrow as (trackId' & tr & Hid' & Htr & ->).
      assert (trackId' = trackId) as -> by congruence.
      rewrite list_lookup_fmap in Hv.
      destruct (detections !! j) as [d|]; [|done]. injection Hv as <-.
      by exists tr, d.
    + intros j. rewrite list_elem_of_filter, elem_of_seq, Hset. simpl. split.
      * intros [? ?]. split; [lia | done].
      * intros [? ?]. split; [done | lia].
Qed.

(** *** New tracks for the detections left over *)

Lemma unmatchedStep_valid detections now st j d :
  detections !! j = Some d →
  nextTrackId (ls_self (unmatchedStep detections now st j)) = S (nextTrackId (ls_self st)) ∧
  ls_cur (unmatchedStep detections now st j) !! nextTrackId (ls_self st)
    = Some (initializeTrack (nextTrackId (ls_self st)) d now).
Proof.
  intros Hd. destruct st as [[[self cur] upd] cbs].
  unfold unmatchedStep, ls_self, ls_cur. rewrite Hd. simpl.
  by rewrite lookup_insert_eq.
Qed.

Lemma unmatchedLoop_keeps detections now (idxs : list nat) st (k : nat) :
  (k < nextTrackId (ls_self st))%nat →
  (nextTrackId (ls_self st)
     ≤ nextTrackId (ls_self (fold_left (unmatchedStep detections now) idxs st)))%nat ∧
  ls_cur (fold_left (unmatchedStep detections now) idxs st) !! k = ls_cur st !! k.
Proof.
  intros Hk. apply fold_left_inv; [done|].
  intros st' j _ [Hn Hc].
  destruct (unmatchedStep_config detections now st' j) as (_ & _ & Hn').
  destruct (unmatchedStep_other detections now st' j k) as [-> _]; [lia|].
  split; [lia | done].
Qed.

Lemma unmatchedLoop_spawns detections now (idxs : list nat) :
  ∀ st pos j d,
    (∀ j, j ∈ idxs → is_Some (detections !! j)) →
    idxs !! pos = Some j → detections !! j = Some d →
    ls_cur (fold_left (unmatchedStep detections now) idxs st)
      !! (nextTrackId (ls_self st) + pos)%nat
    = Some (initializeTrack (nextTrackId (ls_self st) + pos) d now).
Proof.
  induction idxs as [|a idxs IH]; intros st pos j d Hvalid Hpos Hd; [done|].
  destruct (Hvalid a) as [da Hda]; [by left|].
  destruct (unmatchedStep_valid detections now st a da Hda) as [Hn Hc].
  simpl. destruct pos as [|pos]; simpl in Hpos.
  - injection Hpos as ->. assert (da = d) as -> by congruence.
    rewrite Nat.add_0_r.
    destruct (unmatchedLoop_keeps detections now idxs
                (unmatchedStep detections now st j) (nextTrackId (ls_self st)))
      as [_ ->]; [lia | done].
  - replace (nextTrackId (ls_self st) + S pos)%nat
      with (nextTrackId (ls_self (unmatchedStep detections now st a)) + pos)%nat by lia.
    apply (IH _ pos j d); [|done..].
    intros j' Hj'. apply Hvalid. by right.
Qed.

Lemma firstLoop_keeps now (ds : list Detection) st (k : nat) :
  (k < nextTrackId (ls_self st))%nat →
  ls_cur (fold_left (firstStep now) ds st) !! k = ls_cur st !! k.
Proof.
  intros Hk.
  cut ((nextTrackId (ls_self st) ≤ nextTrackId (ls_self (fold_left (firstStep now) ds st)))%nat
       ∧ ls_cur (fold_left (firstStep now) ds st) !! k = ls_cur st !! k); [by intros [_ ?]|].
  apply fold_left_inv; [done|].
  intros st' d _ [Hn Hc].
  destruct (firstStep_config now st' d) as (_ & _ & _ & ->).
  rewrite firstStep_lookup. case_decide; [lia|]. split; [lia | done].
Qed.

Lemma firstLoop_spawns now (ds : list Detection) :
  ∀ st pos d,
    ds !! pos = Some d →
    ls_cur (fold_left (firstStep now) ds st) !! (nextTrackId (ls_self st) + pos)%nat
    = Some (initializeTrack (nextTrackId (ls_self st) + pos) d now).
Proof.
  induction ds as [|a ds IH]; intros st pos d Hpos; [done|].
  destruct (firstStep_config now st a) as (_ & _ & _ & Hn).
  simpl. destruct pos as [|pos]; simpl in Hpos.
  - injection Hpos as ->. rewrite Nat.add_0_r.
    rewrite firstLoop_keeps by lia.
    rewrite firstStep_lookup. by case_decide.
  - replace (nextTrackId (ls_self st) + S pos)%nat
      with (nextTrackId (ls_self (firstStep now st a)) + pos)%nat by lia.
    by apply IH.
Qed.

Lemma association_no_tracks (s : PersonTracker) (detections : list Detection) :
  tracks s = ∅ → association s detections = ([], seq 0 (length detections)).
Proof.
  intros He. unfold association, matchDetectionsToTracks.
  rewrite calculateIoUMatrix_length, (Object_keys_empty _ He). done.
Qed.

(** The detection at place [pos] of the left-over list becomes the track
    with id [nextTrackId + pos]. *)
Lemma updateTracks_spawns (s : PersonTracker) (detections : list Detection) (now : Z)
    (pos j : nat) (d : Detection) :
  (association s detections).2 !! pos = Some j →
  detections !! j = Some d →
  tracks (updateTracks s detections now).1 !! (nextTrackId s + pos)%nat
    = Some (initializeTrack (nextTrackId s + pos) d now).
Proof.
  intros Hpos Hd.
  destruct (updateTracks_paths s detections now)
    as [[-> _] | [(_ & He & st & -> & ->) | (_ & _ & st & Hst & ->)]].
  - done.
  - rewrite (association_no_tracks _ _ He) in Hpos. simpl in Hpos.
    apply lookup_seq in Hpos as [-> _]. simpl in Hd. simpl.
    by apply (firstLoop_spawns now detections (s, ∅, [], []) pos d).
  - pose proof (handleDisappearances_lookup (ls_self st) (ls_cur st) st.1.2 st.2
                  (nextTrackId s + pos)) as H.
    simpl in H.
    assert (Hc : ls_cur st !! (nextTrackId s + pos)%nat
                 = Some (initializeTrack (nextTrackId s + pos) d now)).
    { rewrite Hst. unfold afterLoops.
      set (st1 := fold_left (matchedStep detections now) (association s detections).1
                    (s, ∅, [], [])).
      assert (Hn : nextTrackId (ls_self st1) = nextTrackId s).
      { unfold st1. apply fold_left_inv; [done|].
        intros st' m _ <-. apply matchedStep_config. }
      rewrite <- Hn. apply (unmatchedLoop_spawns _ _ _ _ pos j d); [|done..].
      intros j' Hj'. apply lookup_lt_is_Some_2.
      by apply (association_spec s detections) in Hj' as [? _]. }
    rewrite Hc in H. apply H.
Qed.

(** C4: the matching of a frame pairs no detection index twice and no
    track id twice; every pair joins a live track and a detection of the
    frame whose IoU is at least 0.3; the detections left over are the
    indices of the frame that occur in no pair, and each of them becomes a
    track of its own under a fresh id: the one at place [pos] of the
    left-over list is the track [nextTrackId + pos] after the frame. *)
Theorem C4_association_is_a_partial_matching
    (s : PersonTracker) (detections : list Detection) (now : Z) :
  NoDup (association s detections).1.*2 ∧
  NoDup (association s detections).1.*1 ∧
  (∀ trackId j, (trackId, j) ∈ (association s detections).1 →
     ∃ tr d, tracks s !! trackId = Some tr ∧ detections !! j = Some d ∧
             (3 # 10 <= calculateIoU (bbox tr) (det_bbox d))%Q) ∧
  (∀ j, j ∈ (association s detections).2 ↔
        (j < length detections)%nat ∧ j ∉ (association s detections).1.*2) ∧
  (∀ pos j d,
     (association s detections).2 !! pos = Some j → detections !! j = Some d →
     tracks (updateTracks s detections now).1 !! (nextTrackId s + pos)%nat
       = Some (initializeTrack (nextTrackId s + pos) d now)).
Proof.
  destruct (association_spec s detections) as (H2 & H1 & Hiou & Hun).
  split; [done|]. split; [done|]. split; [exact Hiou|]. split; [done|].
  intros pos j d. apply updateTracks_spawns.
Qed.

(** *** The theorems on a concrete run *)

Lemma idsBelowNext_twoTracks : idsBelowNext TrackerScenario.twoTracks.
Proof.
  apply idsBelowNext_updateTracks. intros k [t Ht].
  simpl in Ht. by rewrite lookup_empty in Ht.
Qed.

Lemma C4_association_is_a_partial_matching_witness :
  (association TrackerScenario.twoTracks TrackerScenario.crowded).1
    = [(1%nat, 0%nat); (2%nat, 2%nat)] ∧
  (association TrackerScenario.twoTracks TrackerScenario.crowded).2 = [1%nat] ∧
  (∃ tr d, tracks TrackerScenario.twoTracks !! 1%nat = Some tr ∧
           TrackerScenario.crowded !! 0%nat = Some d ∧
           (3 # 10 <= calculateIoU (bbox tr) (det_bbox d))%Q) ∧
  tracks (updateTracks TrackerScenario.twoTracks TrackerScenario.crowded 5).1 !! 3%nat
    = Some (initializeTrack 3 (TrackerScenario.person 1) 5).
Proof.
  destruct (C4_association_is_a_partial_matching
              TrackerScenario.twoTracks TrackerScenario.crowded 5)
    as (_ & _ & Hiou & _ & Hspawn).
  assert (Hm : (association TrackerScenario.twoTracks TrackerScenario.crowded).1
               = [(1%nat, 0%nat); (2%nat, 2%nat)]) by (vm_compute; reflexivity).
  assert (Hu : (association TrackerScenario.twoTracks TrackerScenario.crowded).2 = [1%nat])
    by (vm_compute; reflexivity).
  split; [exact Hm|]. split; [exact Hu|]. split.
  - apply Hiou. rewrite Hm. by left.
  - apply (Hspawn 0%nat 1%nat (TrackerScenario.person 1)); [by rewrite Hu | reflexivity].
Defined.

Lemma C6_history_is_a_bounded_queue_witness :
  ∃ t, tracks (run (constructor (mkOptions None None None)) TrackerScenario.twelveFrames)
         !! 1%nat = Some t ∧
       length (history t) = 10%nat ∧
       (1 ≤ length (history t)
        ≤ historyLength (run (constructor (mkOptions None None None))
                             TrackerScenario.twelveFrames))%nat.
Proof.
  destruct (tracks (run (constructor (mkOptions None None None)) TrackerScenario.twelveFrames)
              !! 1%nat) as [t|] eqn:Ht; [|by vm_compute in Ht].
  exists t. split; [done|]. split.
  - vm_compute in Ht. injection Ht as <-. reflexivity.
  - destruct C6_history_is_a_bounded_queue as [Hbound _].
    apply (Hbound _ _ 1%nat t Ht).
Defined.

End TrackerProofs.


(** ** Rational arithmetic used below *)

Lemma Qltb_ext (a b c d : Q) : (a == b)%Q → (c == d)%Q → Qltb a c = Qltb b d.
Proof. intros Hab Hcd. unfold Qltb. by rewrite Hab, Hcd. Qed.

(** ** Geometry of the crossing tests *)

Module GeometryProofs.
Import LineManager LineManagerSpec LineManagerProofs.

Lemma Qdiv_bounds (n d : Q) :
  ¬ (d == 0)%Q → Qltb (n / d) 0 = false → Qltb 1 (n / d) = false →
  (n * (n - d) <= 0)%Q.
Proof.
  intros Hd H0 H1. apply Qltb_false in H0, H1.
  set (u := (n / d)%Q) in *.
  assert (Hn : (n == d * u)%Q) by (unfold u; field; exact Hd).
  rewrite Hn.
  assert (0 <= d * d)%Q by nra.
  assert (u * (u - 1) <= 0)%Q by nra.
  nra.
Qed.

Lemma Qabs_large_nonzero (d : Q) : Qltb (Qabs d) (1 # 10000) = false → ¬ (d == 0)%Q.
Proof.
  intros H%Qltb_false Hd. rewrite Hd in H. vm_compute in H. by apply H.
Qed.

(** What [lineIntersection] computed when it answers with a point. *)
Lemma lineIntersection_Some (p1 p2 p3 p4 pt : Point) :
  lineIntersection p1 p2 p3 p4 = Some pt →
  let den := ((p4.2 - p3.2) * (p2.1 - p1.1) - (p4.1 - p3.1) * (p2.2 - p1.2))%Q in
  let ua := (((p4.1 - p3.1) * (p1.2 - p3.2) - (p4.2 - p3.2) * (p1.1 - p3.1)) / den)%Q in
  let ub := (((p2.1 - p1.1) * (p1.2 - p3.2) - (p2.2 - p1.2) * (p1.1 - p3.1)) / den)%Q in
  ¬ (den == 0)%Q ∧ (0 <= ua <= 1)%Q ∧ (0 <= ub <= 1)%Q ∧
  pt = (p1.1 + ua * (p2.1 - p1.1), p1.2 + ua * (p2.2 - p1.2))%Q.
Proof.
  destruct p1 as [x1 y1], p2 as [x2 y2], p3 as [x3 y3], p4 as [x4 y4].
  unfold lineIntersection. cbn [fst snd].
  destruct (Qltb (Qabs ?[d]) (1 # 10000)) eqn:Hden; [done|].
  match goal with |- context [if ?b then _ else _] => destruct b eqn:Hor; [done|] end.
  intros [= <-].
  apply orb_false_iff in Hor as [Hor H4]. apply orb_false_iff in Hor as [Hor H3].
  apply orb_false_iff in Hor as [H1 H2].
  apply Qabs_large_nonzero in Hden.
  apply Qltb_false in H1, H2, H3, H4. done.
Qed.

(** The signed sides at an intersection. *)
Lemma lineIntersection_sides (p1 p2 p3 p4 pt : Point) :
  lineIntersection p1 p2 p3 p4 = Some pt →
  (getSide p1.1 p1.2 p3.1 p3.2 p4.1 p4.2 * getSide p2.1 p2.2 p3.1 p3.2 p4.1 p4.2 <= 0)%Q ∧
  (getSide p3.1 p3.2 p1.1 p1.2 p2.1 p2.2 * getSide p4.1 p4.2 p1.1 p1.2 p2.1 p2.2 <= 0)%Q.
Proof.
  intros H. apply lineIntersection_Some in H as (Hden & [Ha0 Ha1] & [Hb0 Hb1] & _).
  destruct p1 as [x1 y1], p2 as [x2 y2], p3 as [x3 y3], p4 as [x4 y4].
  unfold getSide. simpl in *.
  set (den := ((y4 - y3) * (x2 - x1) - (x4 - x3) * (y2 - y1))%Q) in *.
  set (na := ((x4 - x3) * (y1 - y3) - (y4 - y3) * (x1 - x3))%Q) in *.
  set (nb := ((x2 - x1) * (y1 - y3) - (y2 - y1) * (x1 - x3))%Q) in *.
  pose proof (Qdiv_bounds na den Hden) as HA.
  pose proof (Qdiv_bounds nb den Hden) as HB.
  rewrite !Qltb_false in HA, HB. specialize (HA Ha0 Ha1). specialize (HB Hb0 Hb1).
  split.
  - assert (E : ((x4 - x3) * (y2 - y3) - (y4 - y3) * (x2 - x3) == na - den)%Q)
      by (unfold na, den; ring).
    rewrite E. exact HA.
  - assert (E1 : ((x2 - x1) * (y3 - y1) - (y2 - y1) * (x3 - x1) == - nb)%Q)
      by (unfold nb; ring).
    assert (E2 : ((x2 - x1) * (y4 - y1) - (y2 - y1) * (x4 - x1) == - (nb - den))%Q)
      by (unfold nb, den; ring).
    rewrite E1, E2. nra.
Qed.

(** X2: for positions and end points on whole coordinates, when
    [lineIntersection] answers with a point, the two positions of the
    track are not strictly on the same side of the line, and the two ends
    of the line are not strictly on the same side of the trajectory. *)
Theorem intersection_separates (p1 p2 p3 p4 pt : Point) :
  wholePoint p1 → wholePoint p2 → wholePoint p3 → wholePoint p4 →
  lineIntersection p1 p2 p3 p4 = Some pt →
  (getSide p1.1 p1.2 p3.1 p3.2 p4.1 p4.2 * getSide p2.1 p2.2 p3.1 p3.2 p4.1 p4.2 <= 0)%Q ∧
  (getSide p3.1 p3.2 p1.1 p1.2 p2.1 p2.2 * getSide p4.1 p4.2 p1.1 p1.2 p2.1 p2.2 <= 0)%Q.
Proof. intros _ _ _ _. exact (lineIntersection_sides p1 p2 p3 p4 pt). Qed.

Lemma lineIntersection_no_motion (p p3 p4 : Point) : lineIntersection p p p3 p4 = None.
Proof.
  destruct p as [x y], p3 as [x3 y3], p4 as [x4 y4]. unfold lineIntersection.
  assert (E : ((y4 - y3) * (x - x) - (x4 - x3) * (y - y) == 0)%Q) by ring.
  destruct (Qltb (Qabs ?[d]) (1 # 10000)) eqn:Hden; [done|].
  apply Qltb_false in Hden. rewrite E in Hden. by vm_compute in Hden.
Qed.

Lemma crossingLoop_still (ls : list Boundary) :
  ∀ self t p now,
    crossedTracks (crossingLoop self ls t p p now).1.1 = crossedTracks self ∧
    ∀ e, e ∈ (crossingLoop self ls t p p now).2 →
         ∃ b, b ∈ ls ∧ type b = area ∧ id b = ev_lineId e.
Proof.
  induction ls as [|b rest IH]; intros self t p now; simpl.
  { split; [done|]. by intros e ?%not_elem_of_nil. }
  destruct (type b) eqn:Ht.
  - assert (Hl : checkLine self b t p p now = (self, [])).
    { unfold checkLine. destruct (shape b) as [s e|]; [|done].
      by rewrite lineIntersection_no_motion. }
    rewrite Hl. destruct (IH self t p now) as [Hc Hev].
    destruct (crossingLoop self rest t p p now) as [[self2 rest'] evs]. simpl in *.
    split; [done|]. intros e He. destruct (Hev e He) as (b' & Hb' & ?).
    exists b'. split; [by right | done].
  - assert (Ha : crossedTracks (checkAreaCrossing self b t p now).1.1 = crossedTracks self ∧
                 ∀ e, e ∈ (checkAreaCrossing self b t p now).2 → ev_lineId e = id b).
    { unfold checkAreaCrossing.
      destruct (isInsideArea b p && _); [|destruct (negb _ && _)]; simpl;
        (split; [done|]); intros e He;
        [by apply list_elem_of_singleton in He as -> ..| by apply not_elem_of_nil in He]. }
    destruct Ha as [Hc1 Hev1].
    destruct (checkAreaCrossing self b t p now) as [[self1 b1] ev]. simpl in *.
    destruct (IH self1 t p now) as [Hc Hev].
    destruct (crossingLoop self1 rest t p p now) as [[self2 rest'] evs]. simpl in *.
    split; [congruence|]. intros e [He|He]%elem_of_app.
    + exists b. split; [by left|]. split; [done|]. symmetry. by apply Hev1.
    + destruct (Hev e He) as (b' & Hb' & ?). exists b'. split; [by right | done].
Qed.

(** X3: a track whose position did not change crosses no line. For a
    video that has a size (width and height 1 or more, so that the scaling
    is finite) and a canvas, a position and end points of the lines of
    moderate magnitude, [checkLineCrossings] with the previous position
    equal to the current one records no crossing of a line and forwards no
    event but those of areas: the denominator is 0 and [lineIntersection]
    answers [null]. *)
Theorem still_track_crosses_no_line (self : LineManager) (personId : nat) (p : Point)
    (now : Z) :
  (1 <= videoWidth self)%Q → (1 <= videoHeight self)%Q →
  moderate (canvas_width self) → moderate (canvas_height self) → moderatePoint p →
  (∀ l s e, l ∈ lines self → shape l = Segment s e → moderatePoint s ∧ moderatePoint e) →
  let r := checkLineCrossings self personId p p now in
  crossedTracks r.1 = crossedTracks self ∧
  ∀ e, e ∈ r.2 → ∃ b, b ∈ lines self ∧ type b = area ∧ id b = ev_lineId e.
Proof.
  intros _ _ _ _ _ _. unfold checkLineCrossings. destruct (personId =? 0)%nat.
  { simpl. split; [done|]. by intros e ?%not_elem_of_nil. }
  match goal with
  | |- context [crossingLoop self (lines self) personId ?a ?a now] =>
      pose proof (crossingLoop_still (lines self) self personId a now) as H;
      destruct (crossingLoop self (lines self) personId a a now) as [[self' ls] evs]
  end.
  exact H.
Qed.

(** X4: for positions and end points on whole coordinates and a
    trajectory that does cross the line, the direction is ['in'] exactly
    when the current position is on the positive side; the reverse walk is
    ['in'] exactly when the first walk started on the positive side. *)
Theorem direction_of_a_real_crossing (p1 p2 lineStart lineEnd pt : Point) :
  wholePoint p1 → wholePoint p2 → wholePoint lineStart → wholePoint lineEnd →
  lineIntersection p1 p2 lineStart lineEnd = Some pt →
  (determineLineCrossingDirection p1 p2 lineStart lineEnd = dir_in
     ↔ (0 < getSide p2.1 p2.2 lineStart.1 lineStart.2 lineEnd.1 lineEnd.2)%Q) ∧
  (determineLineCrossingDirection p2 p1 lineStart lineEnd = dir_in
     ↔ (0 < getSide p1.1 p1.2 lineStart.1 lineStart.2 lineEnd.1 lineEnd.2)%Q).
Proof.
  intros _ _ _ _ H. apply lineIntersection_sides in H as [H _].
  rewrite !direction_unfold, !verticalBranch_in.
  split; split; try (intros [_ ?]; done); intros Hc; (split; [nra | done]).
Qed.

(** X5: for two corners on whole coordinates, the rectangle test of
    [checkAreaCrossing] holds exactly for the points of the box spanned by
    the corners, border included, and it does not depend on which corner is
    [start] and which is [end]. *)
Theorem rectangle_test_is_the_bounding_box (a : Boundary) (s e pt : Point) :
  wholePoint s → wholePoint e →
  shape a = Segment s e →
  (isInsideArea a pt = true ↔
     (Qmin s.1 e.1 <= pt.1 <= Qmax s.1 e.1)%Q ∧ (Qmin s.2 e.2 <= pt.2 <= Qmax s.2 e.2)%Q) ∧
  isInsideArea a pt = isInsideArea (mkBoundary (id a) (type a) (name a) (orientation a)
                                       (Segment e s) (peopleInside a)) pt.
Proof.
  intros _ _ Hs.
  assert (Hchar : ∀ s e : Point,
    (Qle_bool (Qmin s.1 e.1) pt.1 && Qle_bool pt.1 (Qmin s.1 e.1 + Qabs (e.1 - s.1)) &&
     Qle_bool (Qmin s.2 e.2) pt.2 && Qle_bool pt.2 (Qmin s.2 e.2 + Qabs (e.2 - s.2)) = true)
    ↔ (Qmin s.1 e.1 <= pt.1 <= Qmax s.1 e.1)%Q ∧ (Qmin s.2 e.2 <= pt.2 <= Qmax s.2 e.2)%Q).
  { intros s' e'. rewrite !andb_true_iff, !Qle_bool_iff.
    assert (Hspan : ∀ u v : Q, (Qmin u v + Qabs (v - u) == Qmax u v)%Q).
    { intros u v. destruct (Qlt_le_dec u v) as [Hlt|Hle].
      - rewrite Q.min_l, Q.max_r, Qabs_pos by lra. ring.
      - rewrite Q.min_r, Q.max_l, Qabs_neg by lra. ring. }
    rewrite !Hspan. tauto. }
  unfold isInsideArea. rewrite Hs. simpl. split; [apply Hchar|].
  apply eq_true_iff_eq. rewrite !Hchar.
  rewrite (Q.min_comm e.1 s.1), (Q.max_comm e.1 s.1), (Q.min_comm e.2 s.2), (Q.max_comm e.2 s.2).
  done.
Qed.

(** The crossing test of the ray with a vertical edge at [a]. *)
Lemma vertical_edge (x y a ya yb : Q) :
  ¬ (yb - ya == 0)%Q →
  Qltb x ((a - a) * (y - ya) / (yb - ya) + a) = Qltb x a.
Proof. intros H. apply Qltb_ext; [reflexivity|]. field. exact H. Qed.

(** X27: for a polygon that is an upright rectangle, given corner by
    corner, with [y0], [y1] and the height of the point of moderate
    magnitude, [isPointInPolygon] holds exactly for the points with
    [x0 <= x < x1] and [y0 <= y < y1]: the borders at [x0] and [y0] are
    inside, those at [x1] and [y1] are not, where the corner-to-corner
    form of an area takes the whole border in. *)
Theorem rectangle_polygon_is_half_open (x0 y0 x1 y1 : Q) (pt : Point) :
  moderate y0 → moderate y1 → moderate pt.2 →
  (x0 < x1)%Q → (y0 < y1)%Q →
  (isPointInPolygon pt [(x0, y0); (x1, y0); (x1, y1); (x0, y1)] = true
   ↔ (x0 <= pt.1 < x1)%Q ∧ (y0 <= pt.2 < y1)%Q).
Proof.
  intros _ _ _ Hx Hy. destruct pt as [x y]. unfold isPointInPolygon.
  cbn [last rayCast fst snd].
  rewrite (vertical_edge x y x0 y0 y1) by lra.
  rewrite (vertical_edge x y x1 y1 y0) by lra.
  destruct (Qltb y y0) eqn:E0, (Qltb y y1) eqn:E1, (Qltb x x0) eqn:F0, (Qltb x x1) eqn:F1;
    cbn [eqb negb andb];
    rewrite ?Qltb_true, ?Qltb_false in *;
    (split; [try discriminate; intros _; split; split; lra | try reflexivity; intros [[? ?] [? ?]]; lra]).
Qed.

Lemma whole_small (z : Z) : (Z.abs z ≤ 2 ^ 24)%Z → whole (inject_Z z).
Proof. intros Hz. by exists z. Qed.

Lemma intersection_separates_witness :
  (getSide 50 50 100 0 100 200 * getSide 150 50 100 0 100 200 <= 0)%Q ∧
  (getSide 100 0 50 50 150 50 * getSide 100 200 50 50 150 50 <= 0)%Q.
Proof.
  refine (intersection_separates (50, 50)%Q (150, 50)%Q (100, 0)%Q (100, 200)%Q
            _ _ _ _ _ eq_refl);
    split; apply (whole_small _); lia.
Defined.

Lemma still_track_crosses_no_line_witness :
  (checkLineCrossings Scenario.withUpwardLine 1 (50, 50)%Q (50, 50)%Q 1000).2 = [].
Proof.
  destruct (still_track_crosses_no_line Scenario.withUpwardLine 1 (50, 50)%Q 1000)
    as [_ H].
  - by vm_compute.
  - by vm_compute.
  - by vm_compute.
  - by vm_compute.
  - split; by vm_compute.
  - intros l s e Hl Hs.
    assert (l = (addLine Scenario.manager Scenario.upwardLine).2) as ->.
    { apply list_elem_of_singleton. exact Hl. }
    vm_compute in Hs. injection Hs as <- <-. repeat split; by vm_compute.
  - destruct (checkLineCrossings _ _ _ _ _).2 as [|e evs]; [reflexivity|].
    destruct (H e ltac:(left)) as (b & Hb & Ht & _).
    exfalso.
    assert (b = (addLine Scenario.manager Scenario.upwardLine).2) as ->.
    { apply list_elem_of_singleton. exact Hb. }
    discriminate Ht.
Defined.

Lemma direction_of_a_real_crossing_witness :
  (determineLineCrossingDirection (50, 50)%Q (150, 50)%Q (100, 0)%Q (100, 200)%Q = dir_in
     ↔ (0 < getSide 150 50 100 0 100 200)%Q) ∧
  (determineLineCrossingDirection (150, 50)%Q (50, 50)%Q (100, 0)%Q (100, 200)%Q = dir_in
     ↔ (0 < getSide 50 50 100 0 100 200)%Q).
Proof.
  refine (direction_of_a_real_crossing (50, 50)%Q (150, 50)%Q (100, 0)%Q (100, 200)%Q
            _ _ _ _ _ eq_refl);
    split; apply (whole_small _); lia.
Defined.

Lemma rectangle_test_is_the_bounding_box_witness :
  isInsideArea (mkBoundary 1 area "Area 1" None (Segment (100, 100)%Q (0, 0)%Q) ∅)
               (50, 50)%Q = true.
Proof.
  destruct (rectangle_test_is_the_bounding_box
              (mkBoundary 1 area "Area 1" None (Segment (100, 100)%Q (0, 0)%Q) ∅)
              (100, 100)%Q (0, 0)%Q (50, 50)%Q) as [[_ H] _];
    [split; apply (whole_small _); lia .. | reflexivity |].
  apply H. vm_compute. repeat split; discriminate.
Defined.

Lemma rectangle_polygon_is_half_open_witness :
  isPointInPolygon (50, 50)%Q [(0, 0); (100, 0); (100, 100); (0, 100)]%Q = true.
Proof.
  apply (rectangle_polygon_is_half_open 0 0 100 100 (50, 50)%Q);
    [by vm_compute .. | reflexivity | reflexivity |].
  simpl. split; split; lra.
Defined.

(** On the border the two forms of an area differ: the corner-to-corner
    rectangle holds the point (100, 50), the polygon with the same four
    corners does not. *)
Lemma border_point_of_the_two_forms :
  isPointInPolygon (100, 50)%Q [(0, 0); (100, 0); (100, 100); (0, 100)]%Q = false ∧
  isInsideArea (mkBoundary 1 area "Area 1" None (Segment (0, 0)%Q (100, 100)%Q) ∅) (100, 50)%Q
    = true.
Proof. by vm_compute. Qed.

End GeometryProofs.

(** ** The registry of boundaries under its operations *)

Module RegistryProofs.
Import LineManager LineManagerSpec LineManagerProofs Registry RegistrySpec.

Lemma pretty_N_char_noDash (x : N) : pretty_N_char x ≠ "-"%char.
Proof. unfold pretty_N_char. repeat case_match; discriminate. Qed.

Lemma pretty_N_go_noDash (x : N) : ∀ s, noDash s → noDash (pretty_N_go x s).
Proof.
  induction (N.lt_wf_0 x) as [x _ IH]. intros s Hs.
  destruct (decide (x = 0)%N) as [->|Hx]; [by rewrite pretty_N_go_0|].
  rewrite pretty_N_go_step by lia. apply IH.
  - apply N.div_lt; lia.
  - split; [apply pretty_N_char_noDash | done].
Qed.

Lemma pretty_nat_noDash (n : nat) : noDash (pretty n).
Proof.
  unfold pretty, pretty_nat, pretty, pretty_N.
  case_decide; [by repeat split|]. by apply pretty_N_go_noDash.
Qed.

Lemma dash_split (a a' b b' : string) :
  noDash a → noDash a' →
  a +:+ String "-" b = a' +:+ String "-" b' → a = a' ∧ b = b'.
Proof.
  revert a'. induction a as [|c a IH]; intros [|c' a'] Ha Ha'; simpl.
  - by intros [= ->].
  - intros [= <- _]. by destruct Ha'.
  - intros [= -> _]. by destruct Ha.
  - intros [= -> H]. destruct Ha as [_ Ha], Ha' as [_ Ha'].
    destruct (IH a' Ha Ha' H) as [-> ->]. done.
Qed.

Lemma crossingKey_eq (t b t' b' : nat) :
  crossingKey t b = crossingKey t' b' → t = t' ∧ b = b'.
Proof.
  unfold crossingKey. intros H.
  apply dash_split in H as [H1 H2]; try apply pretty_nat_noDash.
  split; by apply (inj pretty).
Qed.

Lemma substring_prefix (sub c : string) :
  String.substring 0 (String.length sub) (sub +:+ c) = sub.
Proof.
  induction sub as [|x sub IH]; [by destruct c|].
  change (String x (String.substring 0 (String.length sub) (sub +:+ c)) = String x sub).
  by rewrite IH.
Qed.

Lemma substring_skip (a s : string) (n : nat) :
  String.substring (String.length a) n (a +:+ s) = String.substring 0 n s.
Proof.
  induction a as [|x a IH]; [done|].
  change (String.substring (String.length a) n (a +:+ s) = String.substring 0 n s).
  exact IH.
Qed.

Lemma includes_middle (a sub c : string) : includes (a +:+ sub +:+ c) sub = true.
Proof.
  unfold includes.
  destruct (String.index 0 sub (a +:+ sub +:+ c)) as [m|] eqn:E; [done|].
  exfalso. destruct sub as [|x sub].
  - apply String.index_correct4 in E. lia.
  - apply (String.index_correct3 0 (String.length a)) in E; [|done|lia].
    apply E. by rewrite substring_skip, substring_prefix.
Qed.

Lemma append_empty_r (s : string) : s +:+ "" = s.
Proof.
  induction s as [|c s IH]; [done|].
  change (String c (s +:+ "") = String c s). by rewrite IH.
Qed.

Lemma includes_own_key (t b : nat) :
  includes (crossingKey t b) ("-" +:+ pretty b) = true.
Proof.
  unfold crossingKey.
  pose proof (includes_middle (pretty t) ("-" +:+ pretty b) "") as H.
  by rewrite (append_empty_r ("-" +:+ pretty b)) in H.
Qed.

(** *** The registry under its operations *)

Lemma spliceById_elem (k : nat) (l : list Boundary) :
  NoDup (id <$> l) → ∀ b, b ∈ spliceById k l ↔ b ∈ l ∧ id b ≠ k.
Proof.
  induction l as [|a l IH]; intros Hnd b; simpl.
  { split; [by intros ?%not_elem_of_nil | by intros [?%not_elem_of_nil _]]. }
  rewrite fmap_cons in Hnd. apply NoDup_cons in Hnd as [Ha Hnd].
  destruct (id a =? k)%nat eqn:E.
  - apply Nat.eqb_eq in E. rewrite elem_of_cons. split.
    + intros Hb. split; [by right|]. intros Hk. apply Ha.
      rewrite E, <- Hk. apply list_elem_of_fmap. by exists b.
    + intros [[->|Hb] Hk]; done.
  - apply Nat.eqb_neq in E. rewrite !elem_of_cons, IH by done. split.
    + intros [->|[? ?]]; [by split; [left|] | by split; [right|]].
    + intros [[->|?] ?]; [by left | by right].
Qed.

Lemma spliceById_ids (k : nat) (l : list Boundary) :
  id <$> spliceById k l `sublist_of` id <$> l.
Proof.
  induction l as [|a l IH]; simpl; [done|].
  destruct (id a =? k)%nat.
  - by apply sublist_cons.
  - by apply sublist_skip.
Qed.

Lemma existsb_id (k : nat) (l : list Boundary) :
  existsb (λ b, (id b =? k)%nat) l = true ↔ k ∈ id <$> l.
Proof.
  rewrite existsb_exists, list_elem_of_fmap. split.
  - intros (b & Hb & E). apply Nat.eqb_eq in E. exists b.
    split; [done|]. by apply list_elem_of_In.
  - intros (b & -> & Hb). exists b. split; [by apply list_elem_of_In | apply Nat.eqb_refl].
Qed.

Lemma spliceById_absent (k : nat) (l : list Boundary) :
  k ∉ id <$> l → spliceById k l = l.
Proof.
  induction l as [|a l IH]; simpl; [done|]. rewrite not_elem_of_cons.
  intros [Hne Hk]. destruct (id a =? k)%nat eqn:E.
  - apply Nat.eqb_eq in E. congruence.
  - by rewrite IH.
Qed.

(** [renameLine] on the list of boundaries. *)
Lemma renameLine_lines (self : LineManager) (k : nat) (n : string) :
  NoDup (id <$> lines self) →
  lines (renameLine self k n).1
    = (λ b, if (id b =? k)%nat then set_name b n else b) <$> lines self.
Proof.
  intros Hnd. unfold renameLine.
  destruct (existsb _ _) eqn:E.
  - simpl. revert Hnd. clear E. generalize (lines self) as l.
    induction l as [|a l IH]; intros Hnd; [done|].
    rewrite fmap_cons in Hnd. apply NoDup_cons in Hnd as [Ha Hnd].
    rewrite fmap_cons. destruct (id a =? k)%nat eqn:Ea.
    + f_equal. apply Nat.eqb_eq in Ea.
      clear IH. induction l as [|c l IH]; [done|].
      rewrite fmap_cons in Ha, Hnd. apply not_elem_of_cons in Ha as [Hc Ha].
      apply NoDup_cons in Hnd as [_ Hnd].
      rewrite fmap_cons. destruct (id c =? k)%nat eqn:Ec.
      * apply Nat.eqb_eq in Ec. congruence.
      * f_equal. by apply IH.
    + f_equal. by apply IH.
  - simpl. assert (Hk : k ∉ id <$> lines self).
    { intros H%existsb_id. congruence. }
    clear E Hnd. induction (lines self) as [|a l IH]; [done|].
    rewrite fmap_cons in Hk. apply not_elem_of_cons in Hk as [Hne Hk].
    rewrite fmap_cons. destruct (id a =? k)%nat eqn:Ea.
    + apply Nat.eqb_eq in Ea. congruence.
    + f_equal. by apply IH.
Qed.

(** *** What a crossing check changes *)

Lemma counterOf_bump (d d0 : Direction) (k k0 : nat) (self : LineManager)
    (c : gmap string Crossing) :
  counterOf d k (set_crossedTracks (set_lineCrossings self (bump d0 k0 (lineCrossings self))) c)
  = (counterOf d k self + if bool_decide (k0 = k) && Direction_eqb d0 d then 1 else 0)%nat.
Proof.
  unfold counterOf, bump. simpl.
  destruct (decide (k0 = k)) as [->|Hne].
  - rewrite lookup_insert_eq, bool_decide_eq_true_2 by done. simpl.
    destruct d0, d; simpl; lia.
  - rewrite lookup_insert_ne, bool_decide_eq_false_2 by done. simpl. lia.
Qed.

Lemma countEvents_app (d : Direction) (k : nat) (e1 e2 : list CrossingEvent) :
  countEvents d k (e1 ++ e2) = (countEvents d k e1 + countEvents d k e2)%nat.
Proof. unfold countEvents. by rewrite filter_app, length_app. Qed.

Lemma countEvents_one (d : Direction) (k : nat) (e : CrossingEvent) :
  countEvents d k [e]
  = if bool_decide (ev_lineId e = k) && Direction_eqb (ev_direction e) d then 1%nat else 0%nat.
Proof.
  unfold countEvents. rewrite filter_cons, filter_nil.
  case_decide as H.
  - destruct H as [-> ->]. by rewrite bool_decide_eq_true_2.
  - case_bool_decide; [|done]. destruct (Direction_eqb _ _) eqn:E; [|done].
    exfalso. by apply H.
Qed.

Lemma checkLine_oneStep self l personId p c now :
  oneStep self (checkLine self l personId p c now).1 l personId now
          (checkLine self l personId p c now).2.
Proof.
  destruct (checkLine_cases self l personId p c now) as [->|(d & x & _ & ->)].
  - by repeat split; try left.
  - repeat split. right. by eexists d, x, _.
Qed.

Lemma checkAreaCrossing_oneStep self a personId c now :
  oneStep self (checkAreaCrossing self a personId c now).1.1 a personId now
          (checkAreaCrossing self a personId c now).2 ∧
  skeleton (checkAreaCrossing self a personId c now).1.2 = skeleton a.
Proof.
  unfold checkAreaCrossing.
  destruct (isInsideArea a c && _); [|destruct (negb _ && _)]; simpl.
  - split; [|done]. repeat split. right. eexists dir_in, c, (crossedTracks self).
    split; [done|]. by destruct self.
  - split; [|done]. repeat split. right. eexists dir_out, c, (crossedTracks self).
    split; [done|]. by destruct self.
  - split; [|done]. by repeat split; try left.
Qed.

Lemma oneStep_counter self self' b personId now ev (d : Direction) (k : nat) :
  oneStep self self' b personId now ev →
  counterOf d k self' = (counterOf d k self + countEvents d k ev)%nat.
Proof.
  intros (_ & _ & [(-> & Hl & _) | (d0 & x & c & -> & ->)]).
  - unfold counterOf. rewrite Hl. unfold countEvents. simpl. lia.
  - by rewrite counterOf_bump, countEvents_one.
Qed.

Lemma oneStep_dom self self' b personId now ev (k : nat) :
  oneStep self self' b personId now ev →
  (is_Some (lineCrossings self' !! k)
     ↔ is_Some (lineCrossings self !! k) ∨ ∃ e, e ∈ ev ∧ ev_lineId e = k).
Proof.
  intros (_ & _ & [(-> & -> & _) | (d0 & x & c & -> & ->)]).
  - split; [by left|]. intros [?|(e & ?%not_elem_of_nil & _)]; done.
  - simpl. unfold bump. destruct (decide (id b = k)) as [<-|Hne].
    + rewrite lookup_insert_eq. split; [|by eauto].
      intros _. right. eexists. split; [by left | done].
    + rewrite lookup_insert_ne by done. split; [by left|].
      intros [?|(e & ->%list_elem_of_singleton & ?)]; done.
Qed.

Lemma oneStep_events self self' b personId now ev e :
  oneStep self self' b personId now ev → e ∈ ev → eventOf [b] personId now e.
Proof.
  intros (_ & _ & [(-> & _) | (d0 & x & c & -> & _)]) He.
  - by apply not_elem_of_nil in He.
  - apply list_elem_of_singleton in He. subst e. repeat split.
    exists b. split; [by left | done].
Qed.

Lemma crossingLoop_effect (ls : list Boundary) :
  ∀ self personId p c now,
    let r := crossingLoop self ls personId p c now in
    frame r.1.1 = frame self ∧ lines r.1.1 = lines self ∧
    skeleton <$> r.1.2 = skeleton <$> ls ∧
    Forall2 (λ b b', type b = line → b' = b) ls r.1.2 ∧
    (∀ e, e ∈ r.2 → eventOf ls personId now e) ∧
    (∀ d k, counterOf d k r.1.1 = (counterOf d k self + countEvents d k r.2)%nat) ∧
    (∀ k, is_Some (lineCrossings r.1.1 !! k)
          ↔ is_Some (lineCrossings self !! k) ∨ ∃ e, e ∈ r.2 ∧ ev_lineId e = k).
Proof.
  induction ls as [|b rest IH]; intros self personId p c now.
  { simpl. split; [done|]. split; [done|]. split; [done|]. split; [constructor|].
    split; [by intros e ?%not_elem_of_nil|]. split.
    - intros d k. unfold countEvents. simpl. lia.
    - intros k. split; [by left|]. intros [?|(e & ?%not_elem_of_nil & _)]; done. }
  assert (Hgen : ∀ self1 b1 ev,
    oneStep self self1 b personId now ev → skeleton b1 = skeleton b →
    (type b = line → b1 = b) →
    let r := crossingLoop self1 rest personId p c now in
    frame r.1.1 = frame self ∧ lines r.1.1 = lines self ∧
    skeleton <$> (b1 :: r.1.2) = skeleton <$> (b :: rest) ∧
    Forall2 (λ b b', type b = line → b' = b) (b :: rest) (b1 :: r.1.2) ∧
    (∀ e, e ∈ ev ++ r.2 → eventOf (b :: rest) personId now e) ∧
    (∀ d k, counterOf d k r.1.1 = (counterOf d k self + countEvents d k (ev ++ r.2))%nat) ∧
    (∀ k, is_Some (lineCrossings r.1.1 !! k)
          ↔ is_Some (lineCrossings self !! k) ∨ ∃ e, e ∈ ev ++ r.2 ∧ ev_lineId e = k)).
  { intros self1 b1 ev Hstep Hsk Hline.
    destruct (IH self1 personId p c now) as (Hf & Hl & Hs & Hfa & Hev & Hcnt & Hdom).
    pose proof Hstep as (Hf1 & Hl1 & _).
    simpl. split; [congruence|]. split; [congruence|]. split; [|split; [|split; [|split]]].
    - by f_equal.
    - by constructor.
    - intros e [He|He]%elem_of_app.
      + destruct (oneStep_events _ _ _ _ _ _ e Hstep He) as (? & ? & b' & Hb' & ?).
        repeat split; try done. exists b'. split; [|done].
        apply list_elem_of_singleton in Hb'. subst. by left.
      + destruct (Hev e He) as (? & ? & b' & Hb' & ?).
        repeat split; try done. exists b'. split; [by right | done].
    - intros d k. rewrite Hcnt, (oneStep_counter _ _ _ _ _ _ d k Hstep), countEvents_app. lia.
    - intros k. rewrite Hdom, (oneStep_dom _ _ _ _ _ _ k Hstep). split.
      + intros [[?|(e & ? & ?)]|(e & ? & ?)]; [by left| |];
          right; exists e; (split; [apply elem_of_app; eauto | done]).
      + intros [?|(e & [?|?]%elem_of_app & ?)]; eauto. }
  simpl. destruct (type b) eqn:Ht.
  - pose proof (checkLine_oneStep self b personId p c now) as Hstep.
    destruct (checkLine self b personId p c now) as [self1 ev]. simpl in Hstep.
    specialize (Hgen self1 b ev Hstep eq_refl (λ _, eq_refl)).
    destruct (crossingLoop self1 rest personId p c now) as [[self2 rest'] evs]. exact Hgen.
  - pose proof (checkAreaCrossing_oneStep self b personId c now) as [Hstep Hsk].
    destruct (checkAreaCrossing self b personId c now) as [[self1 b1] ev]. simpl in Hstep, Hsk.
    assert (Hl' : area = line → b1 = b) by discriminate.
    specialize (Hgen self1 b1 ev Hstep Hsk Hl').
    destruct (crossingLoop self1 rest personId p c now) as [[self2 rest'] evs]. exact Hgen.
Qed.

Lemma checkLineCrossings_effect (self : LineManager) (personId : nat) (p c : Point) (now : Z) :
  let r := checkLineCrossings self personId p c now in
  frame r.1 = frame self ∧
  skeleton <$> lines r.1 = skeleton <$> lines self ∧
  Forall2 (λ b b', type b = line → b' = b) (lines self) (lines r.1) ∧
  (∀ e, e ∈ r.2 → eventOf (lines self) personId now e) ∧
  (∀ d k, counterOf d k r.1 = (counterOf d k self + countEvents d k r.2)%nat) ∧
  (∀ k, is_Some (lineCrossings r.1 !! k)
        ↔ is_Some (lineCrossings self !! k) ∨ ∃ e, e ∈ r.2 ∧ ev_lineId e = k).
Proof.
  unfold checkLineCrossings. destruct (personId =? 0)%nat.
  { simpl. split; [done|]. split; [done|]. split; [by apply Forall_Forall2_diag, Forall_forall|].
    split; [by intros e ?%not_elem_of_nil|]. split.
    - intros d k. unfold countEvents. simpl. lia.
    - intros k. split; [by left|]. intros [?|(e & ?%not_elem_of_nil & _)]; done. }
  match goal with
  | |- context [crossingLoop self (lines self) personId ?a ?b now] =>
      pose proof (crossingLoop_effect (lines self) self personId a b now) as H;
      destruct (crossingLoop self (lines self) personId a b now) as [[self' ls] evs]
  end.
  simpl in *. destruct H as (Hf & Hl & Hs & Hfa & Hev & Hcnt & Hdom).
  split; [done|]. split; [done|]. split; [done|]. split; [done|]. split; [exact Hcnt|exact Hdom].
Qed.

Lemma skeleton_ids (l l' : list Boundary) :
  skeleton <$> l' = skeleton <$> l → id <$> l' = id <$> l.
Proof.
  intros H. apply (f_equal (fmap (λ s : nat * BType * string * option Orientation * Shape,
                                     s.1.1.1.1))) in H.
  by rewrite <- !list_fmap_compose in H.
Qed.

(** *** The registry stays consistent *)

Lemma registryOk_constructor (cw ch vw vh : Q) : registryOk (constructor cw ch vw vh).
Proof.
  unfold registryOk. simpl. split; [apply NoDup_nil_2|]. split; [by intros b ?%not_elem_of_nil|].
  split; [|by intros b ?%not_elem_of_nil].
  intros k. rewrite lookup_empty. split; [by intros [? ?] | by intros ?%not_elem_of_nil].
Qed.

Lemma registryOk_set_drawing (self : LineManager) (d : Drawing) :
  registryOk self → registryOk (set_drawing self d).
Proof. done. Qed.

Lemma registryOk_addLine (self : LineManager) (req : Request) :
  (1 ≤ nextLineId self)%nat → registryOk self →
  registryOk (addLine self req).1 ∧ nextLineId (addLine self req).1 = S (nextLineId self).
Proof.
  intros Hn (Hnd & Hid & Hdom & Hws). split; [|by destruct req].
  pose proof (addLine_lines self req) as Hl.
  destruct (addLine_boundary self req) as (Hi & Ht & Hsh).
  assert (Hnext : nextLineId (addLine self req).1 = S (nextLineId self)) by (by destruct req).
  assert (Hlc : lineCrossings (addLine self req).1
                = <[nextLineId self := {| count_in := 0; count_out := 0 |}]> (lineCrossings self))
    by (by destruct req).
  remember (addLine self req).2 as nb eqn:Enb.
  remember (addLine self req).1 as s' eqn:Es'.
  unfold registryOk. rewrite Hl, Hnext, Hlc, fmap_app.
  change (id <$> [nb]) with [id nb]. rewrite Hi.
  split; [|split; [|split]].
  - apply NoDup_app. split; [done|]. split; [|apply NoDup_singleton].
    intros k Hk ->%list_elem_of_singleton.
    apply list_elem_of_fmap in Hk as (b & E & Hb). specialize (Hid b Hb). lia.
  - intros b [Hb| ->%list_elem_of_singleton]%elem_of_app.
    + specialize (Hid b Hb). lia.
    + rewrite Hi. lia.
  - intros k. rewrite elem_of_app, list_elem_of_singleton, <- Hdom.
    destruct (decide (nextLineId self = k)) as [<-|Hne].
    + rewrite lookup_insert_eq. split; [by right | by eauto].
    + rewrite lookup_insert_ne by done. split; [by left|]. by intros [?|?].
  - intros b [Hb| ->%list_elem_of_singleton]%elem_of_app; [by apply Hws|].
    subst nb. unfold wellShaped. destruct req; simpl; [|done].
    split; [by eauto|]. split; [by eauto | done].
Qed.

Lemma registryOk_removeLine (self : LineManager) (k : nat) :
  registryOk self → registryOk (removeLine self k).1.
Proof.
  intros (Hnd & Hid & Hdom & Hws). unfold removeLine.
  destruct (existsb _ _) eqn:E; simpl; [|done].
  unfold registryOk. simpl. split; [|split; [|split]].
  - exact (sublist_NoDup _ _ Hnd (spliceById_ids k (lines self))).
  - intros b Hb%spliceById_elem; [|done]. apply Hid, Hb.
  - intros j. rewrite list_elem_of_fmap. split.
    + intros Hj. destruct (decide (k = j)) as [->|Hne].
      { rewrite lookup_delete_eq in Hj. by destruct Hj. }
      rewrite lookup_delete_ne in Hj by done.
      apply Hdom, list_elem_of_fmap in Hj as (b & -> & Hb).
      exists b. split; [done|]. apply spliceById_elem; done.
    + intros (b & -> & Hb). apply spliceById_elem in Hb as [Hb Hne]; [|done].
      rewrite lookup_delete_ne by done. apply Hdom, list_elem_of_fmap. by exists b.
  - intros b Hb%spliceById_elem; [|done]. apply Hws, Hb.
Qed.

Lemma registryOk_renameLine (self : LineManager) (k : nat) (n : string) :
  registryOk self → registryOk (renameLine self k n).1.
Proof.
  intros (Hnd & Hid & Hdom & Hws).
  pose proof (renameLine_lines self k n Hnd) as Hl.
  assert (Hrest : nextLineId (renameLine self k n).1 = nextLineId self ∧
                  lineCrossings (renameLine self k n).1 = lineCrossings self).
  { unfold renameLine. by destruct (existsb _ _). }
  destruct Hrest as [Hn Hlc].
  assert (Hids : id <$> lines (renameLine self k n).1 = id <$> lines self).
  { rewrite Hl, <- list_fmap_compose. apply list_fmap_ext. intros i b _. simpl.
    by destruct (id b =? k)%nat. }
  unfold registryOk. rewrite Hids, Hn, Hlc. split; [done|]. split; [|split; [done|]].
  - intros b. rewrite Hl. intros (b0 & -> & Hb0)%list_elem_of_fmap.
    specialize (Hid b0 Hb0). by destruct (id b0 =? k)%nat.
  - intros b. rewrite Hl. intros (b0 & -> & Hb0)%list_elem_of_fmap.
    specialize (Hws b0 Hb0). by destruct (id b0 =? k)%nat.
Qed.

Lemma registryOk_resetCounts (self : LineManager) :
  registryOk self → registryOk (resetCounts self).
Proof.
  intros (Hnd & Hid & Hdom & Hws). unfold registryOk, resetCounts. simpl.
  split; [done|]. split; [done|]. split; [|done].
  intros k. rewrite lookup_fmap, <- Hdom. apply fmap_is_Some.
Qed.

Lemma registryOk_checkLineCrossings (self : LineManager) (personId : nat) (p c : Point)
    (now : Z) :
  registryOk self → registryOk (checkLineCrossings self personId p c now).1.
Proof.
  intros (Hnd & Hid & Hdom & Hws).
  destruct (checkLineCrossings_effect self personId p c now)
    as (Hf & Hs & Hfa & Hev & _ & Hd).
  pose proof (skeleton_ids _ _ Hs) as Hids.
  assert (Hn : nextLineId (checkLineCrossings self personId p c now).1 = nextLineId self)
    by (unfold frame in Hf; congruence).
  unfold registryOk. rewrite Hids, Hn. split; [done|]. split; [|split].
  - intros b Hb. assert (Hb' : id b ∈ id <$> lines self).
    { rewrite <- Hids. apply list_elem_of_fmap. by exists b. }
    apply list_elem_of_fmap in Hb' as (b0 & -> & Hb0). by apply Hid.
  - intros k. rewrite Hd, Hdom. split; [|by left].
    intros [?|(e & He & <-)]; [done|].
    destruct (Hev e He) as (_ & _ & b & Hb & <- & _). apply list_elem_of_fmap. by exists b.
  - intros b' Hb'. apply list_elem_of_lookup in Hb' as [i Hi].
    destruct (Forall2_lookup_r _ _ _ _ _ Hfa Hi) as (b & Hb & Hline).
    assert (Hsk : skeleton b' = skeleton b).
    { apply (f_equal (λ l, l !! i)) in Hs. rewrite !list_lookup_fmap, Hi, Hb in Hs.
      simpl in Hs. congruence. }
    specialize (Hws b ltac:(by eapply list_elem_of_lookup_2)).
    unfold wellShaped, skeleton in *. injection Hsk as ? ? ? ? ?.
    destruct (type b) eqn:Ht.
    + rewrite (Hline eq_refl). by rewrite Ht.
    + replace (type b') with area. congruence.
Qed.

Lemma registryOk_clearLines (self : LineManager) : registryOk (clearLines self).
Proof.
  unfold registryOk, clearLines. simpl. split; [apply NoDup_nil_2|].
  split; [by intros b ?%not_elem_of_nil|]. split; [|by intros b ?%not_elem_of_nil].
  intros k. rewrite lookup_empty. split; [by intros [? ?] | by intros ?%not_elem_of_nil].
Qed.

(** A gesture leaves the registry alone, or submits one request. *)
Lemma gesture_ok (self self' : LineManager) :
  (self' = self ∨ (∃ d, self' = set_drawing self d) ∨
   (∃ d req, self' = set_drawing (addLine self req).1 d)) →
  (1 ≤ nextLineId self)%nat → registryOk self →
  (nextLineId self ≤ nextLineId self')%nat ∧ registryOk self'.
Proof.
  intros [->|[[d ->]|(d & req & ->)]] Hn Hok.
  - split; [lia | done].
  - split; [simpl; lia | done].
  - destruct (registryOk_addLine self req Hn Hok) as [Hok' Hn'].
    split; [|by apply registryOk_set_drawing].
    change (nextLineId (set_drawing (addLine self req).1 d))
      with (nextLineId (addLine self req).1). lia.
Qed.

Lemma handleMouseDown_gesture (self : LineManager) (x y : Q) :
  let self' := handleMouseDown self x y in
  self' = self ∨ (∃ d, self' = set_drawing self d) ∨
  (∃ d req, self' = set_drawing (addLine self req).1 d).
Proof.
  unfold handleMouseDown. destruct (negb _); [by left|]. right.
  destruct (drawingMode _); [by eauto|].
  match goal with |- context [if ?b then _ else _] => destruct b end; eauto.
Qed.

Lemma handleMouseUp_gesture (self : LineManager) (x y : Q) :
  let self' := handleMouseUp self x y in
  self' = self ∨ (∃ d, self' = set_drawing self d) ∨
  (∃ d req, self' = set_drawing (addLine self req).1 d).
Proof.
  unfold handleMouseUp. destruct (isDrawing _); [|by left].
  destruct (drawingMode _); [|by left]. destruct (drawingLine _) as [[start e]|]; [|by left].
  right. destruct (longEnough _ _); eauto.
Qed.

Lemma handleTouchEnd_gesture (self : LineManager) :
  let self' := handleTouchEnd self in
  self' = self ∨ (∃ d, self' = set_drawing self d) ∨
  (∃ d req, self' = set_drawing (addLine self req).1 d).
Proof.
  unfold handleTouchEnd. destruct (isDrawing _); [|by left].
  destruct (drawingLine _) as [[start e]|]; [|by left].
  right. destruct (longEnough _ _); eauto.
Qed.

Lemma applyOp_registryOk (self : LineManager) (op : Op) :
  (1 ≤ nextLineId self)%nat → registryOk self →
  (nextLineId self ≤ nextLineId (applyOp self op).1)%nat ∧ registryOk (applyOp self op).1.
Proof.
  intros Hn Hok. destruct op; simpl.
  - destruct (registryOk_addLine self req Hn Hok) as [? E]. split; [|done].
    change (nextLineId self <= nextLineId (addLine self req).1)%nat. lia.
  - split; [|by apply registryOk_removeLine].
    unfold removeLine. destruct (existsb _ _); simpl; lia.
  - split; [simpl; lia | apply registryOk_clearLines].
  - split; [|by apply registryOk_renameLine].
    unfold renameLine. destruct (existsb _ _); simpl; lia.
  - split; [simpl; lia | by apply registryOk_resetCounts].
  - split; [|by apply registryOk_checkLineCrossings].
    destruct (checkLineCrossings_effect self personId prevPos currentPos now) as (Hf & _).
    unfold frame in Hf. injection Hf as _ _ _ _ -> _. lia.
  - apply (gesture_ok self (enableDrawing self)); [|done..]. right; left. by eexists.
  - apply (gesture_ok self (disableDrawing self)); [|done..]. right; left. by eexists.
  - apply (gesture_ok self (setDrawingMode self mode)); [|done..]. unfold setDrawingMode.
    repeat destruct (bool_decide _); eauto.
  - apply (gesture_ok self (handleMouseDown self x y)); [|done..].
    apply handleMouseDown_gesture.
  - apply (gesture_ok self (handleMouseMove self x y)); [|done..]. unfold handleMouseMove.
    destruct (isDrawing _); [|by left]. destruct (drawingLine _) as [[? ?]|]; eauto.
  - apply (gesture_ok self (handleMouseUp self x y)); [|done..]. apply handleMouseUp_gesture.
  - apply (gesture_ok self (handleMouseLeave self)); [|done..]. unfold handleMouseLeave.
    destruct (isDrawing _); eauto.
  - apply (gesture_ok self (handleTouchStart self x y)); [|done..]. unfold handleTouchStart.
    destruct (negb _); eauto.
  - apply (gesture_ok self (handleTouchMove self x y)); [|done..]. unfold handleTouchMove.
    destruct (isDrawing _); [|by left]. destruct (drawingLine _) as [[? ?]|]; eauto.
  - apply (gesture_ok self (handleTouchEnd self)); [|done..]. apply handleTouchEnd_gesture.
Qed.

Lemma runOps_registryOk (ops : list Op) :
  ∀ self, (1 ≤ nextLineId self)%nat → registryOk self →
    (nextLineId self ≤ nextLineId (runOps self ops).1)%nat ∧ registryOk (runOps self ops).1.
Proof.
  induction ops as [|op ops IH]; intros self Hn Hok; simpl.
  - split; [lia | done].
  - destruct (applyOp_registryOk self op Hn Hok) as [Hle Hok1].
    destruct (applyOp self op) as [self1 ev]. simpl in *.
    specialize (IH self1 ltac:(lia) Hok1).
    destruct (runOps self1 ops) as [self2 evs]. simpl in *. split; [lia | tauto].
Qed.

(** X7: whatever the application and the canvas do to a new manager, in any
    order (adding, removing, renaming, clearing, resetting, crossing
    checks, drawing gestures), the registry stays consistent: the ids of
    the boundaries are distinct, positive and below [nextLineId], the
    boundaries with counters are exactly the boundaries of the list, a
    line carries a segment and an orientation, an area no orientation. *)
Theorem registry_stays_consistent (cw ch vw vh : Q) (ops : list Op) :
  registryOk (runOps (constructor cw ch vw vh) ops).1.
Proof.
  destruct (runOps_registryOk ops (constructor cw ch vw vh)) as [_ H]; [simpl; lia| |exact H].
  apply registryOk_constructor.
Qed.

(** X8: an id is never given twice. A boundary added at any later time,
    whatever happened in between (removals and [clearLines] included),
    gets an id that differs from the id of every boundary that was ever
    in the list. *)
Theorem line_ids_are_never_reused (cw ch vw vh : Q) (before after : list Op) (req : Request)
    (b : Boundary) :
  let then_ := (runOps (constructor cw ch vw vh) before).1 in
  let later := (runOps then_ after).1 in
  b ∈ lines then_ → id (addLine later req).2 ≠ id b.
Proof.
  intros then_ later Hb.
  destruct (runOps_registryOk before (constructor cw ch vw vh)) as [Hn Hok];
    [simpl; lia | apply registryOk_constructor |].
  fold then_ in Hn, Hok. simpl in Hn.
  destruct (runOps_registryOk after then_) as [Hn' _]; [lia | done |].
  fold later in Hn'.
  destruct (addLine_boundary later req) as [-> _].
  destruct Hok as (_ & Hid & _). specialize (Hid b Hb). lia.
Qed.

(** *** Areas: who is inside, and the two counters *)

Lemma counterOf_bump_only (d d0 : Direction) (k k0 : nat) (self : LineManager) :
  counterOf d k (set_lineCrossings self (bump d0 k0 (lineCrossings self)))
  = (counterOf d k self + if bool_decide (k0 = k) && Direction_eqb d0 d then 1 else 0)%nat.
Proof.
  rewrite <- (counterOf_bump d d0 k k0 self (crossedTracks self)). done.
Qed.

Lemma checkAreaCrossing_members (self : LineManager) (a : Boundary) (t : nat) (c : Point)
    (now : Z) :
  ∀ u, u ∈ peopleInside (checkAreaCrossing self a t c now).1.2
       ↔ if decide (u = t) then isInsideArea a c = true else u ∈ peopleInside a.
Proof.
  intros u. unfold checkAreaCrossing.
  destruct (isInsideArea a c) eqn:Hin; simpl;
    destruct (bool_decide (t ∈ peopleInside a)) eqn:Hwas; simpl;
    try apply bool_decide_eq_true in Hwas; try apply bool_decide_eq_false in Hwas;
    destruct (decide (u = t)) as [->|Hne];
    rewrite ?elem_of_union, ?elem_of_difference, ?elem_of_singleton; intuition congruence.
Qed.

Lemma checkAreaCrossing_occ (self : LineManager) (a : Boundary) (t : nat) (c : Point)
    (now : Z) :
  counterOf dir_in (id a) self = (counterOf dir_out (id a) self + size (peopleInside a))%nat →
  let r := checkAreaCrossing self a t c now in
  id r.1.2 = id a ∧
  counterOf dir_in (id a) r.1.1
  = (counterOf dir_out (id a) r.1.1 + size (peopleInside r.1.2))%nat.
Proof.
  intros H. unfold checkAreaCrossing.
  destruct (isInsideArea a c) eqn:Hin;
    destruct (bool_decide (t ∈ peopleInside a)) eqn:Hwas;
    try apply bool_decide_eq_true in Hwas; try apply bool_decide_eq_false in Hwas;
    cbn [andb negb fst snd]; (split; [done|]); try done.
  - rewrite !counterOf_bump_only, bool_decide_eq_true_2 by done.
    cbn [andb Direction_eqb set_peopleInside peopleInside].
    rewrite size_union by (apply disjoint_singleton_l; exact Hwas).
    rewrite size_singleton. lia.
  - rewrite !counterOf_bump_only, bool_decide_eq_true_2 by done.
    cbn [andb Direction_eqb set_peopleInside peopleInside].
    assert (Hs : size (peopleInside a) = S (size (peopleInside a ∖ {[t]}))).
    { rewrite (union_difference_L {[t]} (peopleInside a)) at 1
        by (by apply singleton_subseteq_l).
      rewrite size_union by (apply disjoint_difference_r1; done).
      by rewrite size_singleton. }
    lia.
Qed.

Lemma crossingLoop_members (ls : list Boundary) :
  ∀ self t p c now,
    Forall2 (follows t c) ls (crossingLoop self ls t p c now).1.2.
Proof.
  induction ls as [|b rest IH]; intros self t p c now; simpl; [constructor|].
  destruct (type b) eqn:Ht.
  - destruct (checkLine self b t p c now) as [self1 ev].
    specialize (IH self1 t p c now).
    destruct (crossingLoop self1 rest t p c now) as [[self2 rest'] evs]. simpl in *.
    constructor; [|done]. unfold follows. congruence.
  - pose proof (checkAreaCrossing_members self b t c now) as Hm.
    destruct (checkAreaCrossing self b t c now) as [[self1 b1] ev].
    specialize (IH self1 t p c now).
    destruct (crossingLoop self1 rest t p c now) as [[self2 rest'] evs]. simpl in *.
    constructor; [|done]. by intros _.
Qed.

Lemma countEvents_none (d : Direction) (k : nat) (evs : list CrossingEvent) :
  (∀ e, e ∈ evs → ev_lineId e ≠ k) → countEvents d k evs = 0%nat.
Proof.
  intros H. unfold countEvents.
  induction evs as [|e evs IH]; [done|].
  rewrite filter_cons. case_decide as Hd.
  - destruct Hd as [Hd _]. exfalso. by apply (H e); [left|].
  - apply IH. intros e' He'. apply H. by right.
Qed.

Lemma eventOf_elsewhere (ls : list Boundary) (t : nat) (now : Z) (evs : list CrossingEvent)
    (d : Direction) (k : nat) :
  (∀ e, e ∈ evs → eventOf ls t now e) → k ∉ id <$> ls → countEvents d k evs = 0%nat.
Proof.
  intros Hev Hk. apply countEvents_none. intros e He <-.
  destruct (Hev e He) as (_ & _ & b & Hb & Hid & _).
  apply Hk, list_elem_of_fmap. by exists b.
Qed.

Lemma crossingLoop_occ (ls : list Boundary) :
  ∀ self t p c now,
    NoDup (id <$> ls) → (∀ b, b ∈ ls → occ self b) →
    ∀ b', b' ∈ (crossingLoop self ls t p c now).1.2 →
          occ (crossingLoop self ls t p c now).1.1 b'.
Proof.
  induction ls as [|b rest IH]; intros self t p c now Hnd Hocc; simpl.
  { by intros b' ?%not_elem_of_nil. }
  rewrite fmap_cons in Hnd. apply NoDup_cons in Hnd as [Hb Hnd].
  assert (Hgen : ∀ self1 b1 ev,
    oneStep self self1 b t now ev → id b1 = id b → occ self1 b1 →
    ∀ b', b' ∈ b1 :: (crossingLoop self1 rest t p c now).1.2 →
          occ (crossingLoop self1 rest t p c now).1.1 b').
  { intros self1 b1 ev Hstep Hid Hocc1.
    assert (Hrest : ∀ b2, b2 ∈ rest → occ self1 b2).
    { intros b2 Hb2 Ht. 
      assert (Hne : id b2 ≠ id b).
      { intros E. apply Hb. rewrite <- E. apply list_elem_of_fmap. by exists b2. }
      rewrite !(oneStep_counter _ _ _ _ _ _ _ (id b2) Hstep).
      rewrite !(eventOf_elsewhere [b] t now ev).
      - rewrite !Nat.add_0_r. apply Hocc; [by right | done].
      - intros e He. by eapply oneStep_events.
      - simpl. by intros E%list_elem_of_singleton.
      - intros e He. by eapply oneStep_events.
      - simpl. by intros E%list_elem_of_singleton. }
    specialize (IH self1 t p c now Hnd Hrest).
    destruct (crossingLoop_effect rest self1 t p c now) as (_ & _ & _ & _ & Hev & Hcnt & _).
    intros b' [->|Hb']%elem_of_cons; [|by apply IH].
    intros Ht. rewrite !Hcnt, Hid.
    rewrite !(eventOf_elsewhere rest t now _ _ (id b) Hev Hb), !Nat.add_0_r.
    rewrite <- Hid. by apply Hocc1. }
  destruct (type b) eqn:Ht.
  - pose proof (checkLine_oneStep self b t p c now) as Hstep.
    destruct (checkLine self b t p c now) as [self1 ev]. simpl in Hstep.
    specialize (Hgen self1 b ev Hstep eq_refl ltac:(unfold occ; congruence)).
    destruct (crossingLoop self1 rest t p c now) as [[self2 rest'] evs]. exact Hgen.
  - pose proof (checkAreaCrossing_oneStep self b t c now) as [Hstep _].
    assert (Hb0 : occ self b) by (apply Hocc; by left).
    pose proof (checkAreaCrossing_occ self b t c now (Hb0 Ht)) as [Hid Ho].
    destruct (checkAreaCrossing self b t c now) as [[self1 b1] ev]. simpl in Hstep, Hid, Ho.
    assert (Ho1 : occ self1 b1) by (intros _; by rewrite Hid).
    specialize (Hgen self1 b1 ev Hstep Hid Ho1).
    destruct (crossingLoop self1 rest t p c now) as [[self2 rest'] evs]. exact Hgen.
Qed.

Lemma occupancyOk_addLine (self : LineManager) (req : Request) :
  registryOk self → occupancyOk self → occupancyOk (addLine self req).1.
Proof.
  intros (_ & Hid & Hdom & _) Hocc b. rewrite addLine_lines.
  assert (Hlc : lineCrossings (addLine self req).1
                = <[nextLineId self := {| count_in := 0; count_out := 0 |}]> (lineCrossings self))
    by (by destruct req).
  intros [Hb| ->%list_elem_of_singleton]%elem_of_app Ht.
  - specialize (Hid b Hb). unfold counterOf. rewrite Hlc, lookup_insert_ne by lia.
    by apply Hocc.
  - destruct (addLine_boundary self req) as [Hi _].
    assert (Hp : peopleInside (addLine self req).2 = ∅) by (by destruct req).
    unfold counterOf. rewrite Hlc, Hi, lookup_insert_eq, Hp. done.
Qed.

Lemma gesture_occ (self self' : LineManager) :
  (self' = self ∨ (∃ d, self' = set_drawing self d) ∨
   (∃ d req, self' = set_drawing (addLine self req).1 d)) →
  registryOk self → occupancyOk self → occupancyOk self'.
Proof.
  intros [->|[[d ->]|(d & req & ->)]] Hok Hocc; [done..|].
  exact (occupancyOk_addLine self req Hok Hocc).
Qed.

Lemma occupancyOk_checkLineCrossings (self : LineManager) (t : nat) (p c : Point) (now : Z) :
  registryOk self → occupancyOk self → occupancyOk (checkLineCrossings self t p c now).1.
Proof.
  intros (Hnd & _) Hocc. unfold checkLineCrossings. destruct (t =? 0)%nat; [done|].
  match goal with
  | |- context [crossingLoop self (lines self) t ?a ?b now] =>
      pose proof (crossingLoop_occ (lines self) self t a b now Hnd Hocc) as H;
      destruct (crossingLoop self (lines self) t a b now) as [[self' ls] evs]
  end.
  exact H.
Qed.

Lemma applyOp_occupancyOk (self : LineManager) (op : Op) :
  op ≠ OpResetCounts → registryOk self → occupancyOk self →
  occupancyOk (applyOp self op).1.
Proof.
  intros Hop Hok Hocc. pose proof Hok as (Hnd & Hid & Hdom & Hws). destruct op.
  - by apply occupancyOk_addLine.
  - change (occupancyOk (removeLine self lineId).1). unfold removeLine.
    destruct (existsb _ _); [|done]. intros b Hb%spliceById_elem Ht; [|done].
    destruct Hb as [Hb Hne]. unfold counterOf. cbn [fst lineCrossings set_crossedTracks
      set_lineCrossings set_lines]. rewrite lookup_delete_ne by done. by apply Hocc.
  - by intros b ?%not_elem_of_nil.
  - change (occupancyOk (renameLine self lineId newName).1).
    intros b. rewrite (renameLine_lines self lineId newName Hnd).
    intros (b0 & -> & Hb0)%list_elem_of_fmap.
    assert (Hlc : lineCrossings (renameLine self lineId newName).1 = lineCrossings self).
    { unfold renameLine. by destruct (existsb _ _). }
    specialize (Hocc b0 Hb0). unfold occ, counterOf in *. rewrite Hlc.
    by destruct (id b0 =? lineId)%nat.
  - done.
  - by apply occupancyOk_checkLineCrossings.
  - apply (gesture_occ self (enableDrawing self)); [|done..]. right; left. by eexists.
  - apply (gesture_occ self (disableDrawing self)); [|done..]. right; left. by eexists.
  - apply (gesture_occ self (setDrawingMode self mode)); [|done..]. unfold setDrawingMode.
    repeat destruct (bool_decide _); eauto.
  - apply (gesture_occ self (handleMouseDown self x y)); [|done..].
    apply handleMouseDown_gesture.
  - apply (gesture_occ self (handleMouseMove self x y)); [|done..]. unfold handleMouseMove.
    destruct (isDrawing _); [|by left]. destruct (drawingLine _) as [[? ?]|]; eauto.
  - apply (gesture_occ self (handleMouseUp self x y)); [|done..]. apply handleMouseUp_gesture.
  - apply (gesture_occ self (handleMouseLeave self)); [|done..]. unfold handleMouseLeave.
    destruct (isDrawing _); eauto.
  - apply (gesture_occ self (handleTouchStart self x y)); [|done..]. unfold handleTouchStart.
    destruct (negb _); eauto.
  - apply (gesture_occ self (handleTouchMove self x y)); [|done..]. unfold handleTouchMove.
    destruct (isDrawing _); [|by left]. destruct (drawingLine _) as [[? ?]|]; eauto.
  - apply (gesture_occ self (handleTouchEnd self)); [|done..]. apply handleTouchEnd_gesture.
Qed.

Lemma runOps_occupancyOk (ops : list Op) :
  ∀ self, Forall (λ op, op ≠ OpResetCounts) ops →
    (1 ≤ nextLineId self)%nat → registryOk self → occupancyOk self →
    occupancyOk (runOps self ops).1.
Proof.
  induction ops as [|op ops IH]; intros self Hops Hn Hok Hocc; simpl; [done|].
  apply Forall_cons in Hops as [Hop Hops].
  destruct (applyOp_registryOk self op Hn Hok) as [Hle Hok1].
  pose proof (applyOp_occupancyOk self op Hop Hok Hocc) as Hocc1.
  destruct (applyOp self op) as [self1 ev]. simpl in *.
  specialize (IH self1 Hops ltac:(lia) Hok1 Hocc1).
  destruct (runOps self1 ops) as [self2 evs]. exact IH.
Qed.

(** X9: as long as [resetCounts] is not called, the number of people an
    area holds in [peopleInside] is its ['in'] counter minus its ['out']
    counter, whatever else is done to the manager. *)
Theorem area_occupancy_is_entries_minus_exits (cw ch vw vh : Q) (ops : list Op)
    (b : Boundary) :
  let self := (runOps (constructor cw ch vw vh) ops).1 in
  Forall (λ op, op ≠ OpResetCounts) ops → b ∈ lines self → type b = area →
  counterOf dir_in (id b) self
  = (counterOf dir_out (id b) self + size (peopleInside b))%nat.
Proof.
  intros self Hops Hb. apply (runOps_occupancyOk ops (constructor cw ch vw vh)); [done| | | |done].
  - simpl; lia.
  - apply registryOk_constructor.
  - by intros b' ?%not_elem_of_nil.
Qed.

Lemma checkAreaCrossing_reported (self : LineManager) (a : Boundary) (t : nat) (c : Point)
    (now : Z) :
  let r := checkAreaCrossing self a t c now in
  (∀ e, e ∈ r.2 → ev_lineId e = id a) ∧
  (∀ u, u ≠ t → (u ∈ peopleInside r.1.2 ↔ u ∈ peopleInside a)) ∧
  countEvents dir_in (id a) r.2
    = (if bool_decide ((t ∉ peopleInside a) ∧ t ∈ peopleInside r.1.2) then 1 else 0)%nat ∧
  countEvents dir_out (id a) r.2
    = (if bool_decide (t ∈ peopleInside a ∧ t ∉ peopleInside r.1.2) then 1 else 0)%nat.
Proof.
  unfold checkAreaCrossing.
  destruct (isInsideArea a c) eqn:Hin;
    destruct (bool_decide (t ∈ peopleInside a)) eqn:Hwas;
    try apply bool_decide_eq_true in Hwas; try apply bool_decide_eq_false in Hwas;
    cbn [andb negb fst snd set_peopleInside peopleInside].
  - split; [by intros e ?%not_elem_of_nil|]. split; [done|].
    rewrite !bool_decide_eq_false_2 by tauto. done.
  - split; [by intros e ->%list_elem_of_singleton|]. split.
    + intros u Hu. rewrite elem_of_union, elem_of_singleton. tauto.
    + rewrite !countEvents_one. cbn [ev_lineId ev_direction Direction_eqb].
      rewrite bool_decide_eq_true_2 by done. cbn [andb].
      rewrite bool_decide_eq_true_2
        by (split; [done | apply elem_of_union; left; by apply elem_of_singleton]).
      rewrite bool_decide_eq_false_2 by tauto. done.
  - split; [by intros e ->%list_elem_of_singleton|]. split.
    + intros u Hu. rewrite elem_of_difference, elem_of_singleton. tauto.
    + rewrite !countEvents_one. cbn [ev_lineId ev_direction Direction_eqb].
      rewrite bool_decide_eq_true_2 by done. cbn [andb].
      rewrite bool_decide_eq_false_2 by tauto.
      rewrite bool_decide_eq_true_2; [done|].
      split; [done|]. rewrite elem_of_difference, elem_of_singleton. tauto.
  - split; [by intros e ?%not_elem_of_nil|]. split; [done|].
    rewrite !bool_decide_eq_false_2 by tauto. done.
Qed.

Lemma crossingLoop_reported (ls : list Boundary) :
  ∀ self t p c now,
    NoDup (id <$> ls) →
    Forall2 (reported t (crossingLoop self ls t p c now).2) ls
            (crossingLoop self ls t p c now).1.2.
Proof.
  induction ls as [|b rest IH]; intros self t p c now Hnd; simpl; [constructor|].
  rewrite fmap_cons in Hnd. apply NoDup_cons in Hnd as [Hb Hnd].
  assert (Hgen : ∀ self1 b1 ev,
    (∀ e, e ∈ ev → ev_lineId e = id b) →
    (type b = area →
       (∀ u, u ≠ t → (u ∈ peopleInside b1 ↔ u ∈ peopleInside b)) ∧
       countEvents dir_in (id b) ev
         = (if bool_decide ((t ∉ peopleInside b) ∧ t ∈ peopleInside b1) then 1 else 0)%nat ∧
       countEvents dir_out (id b) ev
         = (if bool_decide (t ∈ peopleInside b ∧ t ∉ peopleInside b1) then 1 else 0)%nat) →
    Forall2 (reported t (ev ++ (crossingLoop self1 rest t p c now).2)) (b :: rest)
            (b1 :: (crossingLoop self1 rest t p c now).1.2)).
  { intros self1 b1 ev Hev Hhead.
    specialize (IH self1 t p c now Hnd).
    destruct (crossingLoop_effect rest self1 t p c now) as (_ & _ & _ & _ & Hevs & _).
    constructor.
    - intros Ht. destruct (Hhead Ht) as (Hm & Hi & Ho). split; [done|].
      rewrite !countEvents_app, !(eventOf_elsewhere rest t now _ _ (id b) Hevs Hb), !Nat.add_0_r.
      done.
    - apply Forall2_same_length_lookup. split; [by eapply Forall2_length|].
      intros i x y Hx Hy. pose proof (Forall2_lookup_lr _ _ _ _ _ _ IH Hx Hy) as Hr.
      intros Ht. destruct (Hr Ht) as (Hm & Hi & Ho). split; [done|].
      assert (Hne : ∀ d, countEvents d (id x) ev = 0%nat).
      { intros d. apply countEvents_none. intros e He E. apply Hb.
        rewrite <- (Hev e He), E. apply list_elem_of_fmap. exists x.
        split; [done | by eapply list_elem_of_lookup_2]. }
      rewrite !countEvents_app, !Hne. done. }
  destruct (type b) eqn:Ht.
  - pose proof (checkLine_oneStep self b t p c now) as Hstep.
    destruct (checkLine self b t p c now) as [self1 ev]. simpl in Hstep.
    assert (Hev : ∀ e, e ∈ ev → ev_lineId e = id b).
    { intros e He. destruct (oneStep_events _ _ _ _ _ _ e Hstep He) as (_ & _ & b' & Hb' & <- & _).
      by apply list_elem_of_singleton in Hb' as ->. }
    specialize (Hgen self1 b ev Hev ltac:(discriminate)).
    destruct (crossingLoop self1 rest t p c now) as [[self2 rest'] evs]. exact Hgen.
  - pose proof (checkAreaCrossing_reported self b t c now) as (Hev & Hm).
    destruct (checkAreaCrossing self b t c now) as [[self1 b1] ev]. simpl in Hev, Hm.
    specialize (Hgen self1 b1 ev Hev (λ _, Hm)).
    destruct (crossingLoop self1 rest t p c now) as [[self2 rest'] evs]. exact Hgen.
Qed.

(** A second visit of the areas at the position of the first reports
    nothing of them. *)
Lemma crossingLoop_settled (ls : list Boundary) :
  ∀ self t p c now,
    (∀ b, b ∈ ls → type b = area → (t ∈ peopleInside b ↔ isInsideArea b c = true)) →
    ∀ e, e ∈ (crossingLoop self ls t p c now).2 → lineEvent ls e.
Proof.
  induction ls as [|b rest IH]; intros self t p c now Hset e; simpl.
  { by intros ?%not_elem_of_nil. }
  assert (Hrest : ∀ b', b' ∈ rest → type b' = area →
                        (t ∈ peopleInside b' ↔ isInsideArea b' c = true)).
  { intros b' Hb'. apply Hset. by right. }
  destruct (type b) eqn:Ht.
  - pose proof (checkLine_oneStep self b t p c now) as Hstep.
    destruct (checkLine self b t p c now) as [self1 ev]. simpl in Hstep.
    specialize (IH self1 t p c now Hrest e).
    destruct (crossingLoop self1 rest t p c now) as [[self2 rest'] evs]. simpl in *.
    intros [He|He]%elem_of_app.
    + destruct (oneStep_events _ _ _ _ _ _ e Hstep He) as (_ & _ & b' & Hb' & Hid & _).
      apply list_elem_of_singleton in Hb' as ->. exists b. split; [by left | done].
    + destruct (IH He) as (b' & Hb' & ?). exists b'. split; [by right | done].
  - assert (Hno : (checkAreaCrossing self b t c now).2 = []).
    { unfold checkAreaCrossing. specialize (Hset b ltac:(by left) Ht).
      destruct (isInsideArea b c) eqn:Hin.
      - rewrite bool_decide_eq_true_2 by (by apply Hset). done.
      - rewrite bool_decide_eq_false_2; [done|]. intros H%Hset. discriminate. }
    destruct (checkAreaCrossing self b t c now) as [[self1 b1] ev]. simpl in Hno. subst ev.
    specialize (IH self1 t p c now Hrest e).
    destruct (crossingLoop self1 rest t p c now) as [[self2 rest'] evs]. simpl in *.
    intros He. destruct (IH He) as (b' & Hb' & ?). exists b'. split; [by right | done].
Qed.

Lemma checkLineCrossings_frame (self : LineManager) (t : nat) (p c : Point) (now : Z) :
  frame (checkLineCrossings self t p c now).1 = frame self.
Proof. by destruct (checkLineCrossings_effect self t p c now) as (Hf & _). Qed.

Lemma isInsideArea_skeleton (b b' : Boundary) (c : Point) :
  skeleton b' = skeleton b → isInsideArea b' c = isInsideArea b c.
Proof.
  unfold skeleton. intros H. assert (Hs : shape b' = shape b) by congruence.
  unfold isInsideArea. by rewrite Hs.
Qed.

Lemma checkLineCrossings_reported (self : LineManager) (t : nat) (p c : Point) (now : Z) :
  NoDup (id <$> lines self) →
  Forall2 (reported t (checkLineCrossings self t p c now).2) (lines self)
          (lines (checkLineCrossings self t p c now).1).
Proof.
  intros Hnd. unfold checkLineCrossings. destruct (t =? 0)%nat.
  { cbn [fst snd]. apply Forall_Forall2_diag, Forall_forall. intros b _ _. split; [done|].
    unfold countEvents. simpl. rewrite !bool_decide_eq_false_2 by tauto. done. }
  match goal with
  | |- context [crossingLoop self (lines self) t ?a ?b now] =>
      pose proof (crossingLoop_reported (lines self) self t a b now Hnd) as H;
      destruct (crossingLoop self (lines self) t a b now) as [[self' ls] evs]
  end.
  exact H.
Qed.

Lemma checkLineCrossings_members (self : LineManager) (t : nat) (p c : Point) (now : Z) :
  t ≠ 0%nat →
  Forall2 (follows t (c.1 * (canvas_width self / videoWidth self),
                      c.2 * (canvas_height self / videoHeight self))%Q)
          (lines self) (lines (checkLineCrossings self t p c now).1).
Proof.
  intros Ht. unfold checkLineCrossings.
  destruct (t =? 0)%nat eqn:E; [by apply Nat.eqb_eq in E|].
  match goal with
  | |- context [crossingLoop self (lines self) t ?a ?b now] =>
      pose proof (crossingLoop_members (lines self) self t a b now) as H;
      destruct (crossingLoop self (lines self) t a b now) as [[self' ls] evs]
  end.
  exact H.
Qed.

Lemma checkLineCrossings_settled (self : LineManager) (t : nat) (p c : Point) (now : Z) :
  (∀ b, b ∈ lines self → type b = area →
        (t ∈ peopleInside b
         ↔ isInsideArea b (c.1 * (canvas_width self / videoWidth self),
                           c.2 * (canvas_height self / videoHeight self))%Q = true)) →
  ∀ e, e ∈ (checkLineCrossings self t p c now).2 → lineEvent (lines self) e.
Proof.
  intros Hset e. unfold checkLineCrossings. destruct (t =? 0)%nat.
  { by intros ?%not_elem_of_nil. }
  match goal with
  | |- context [crossingLoop self (lines self) t ?a ?b now] =>
      pose proof (crossingLoop_settled (lines self) self t a b now Hset e) as H;
      destruct (crossingLoop self (lines self) t a b now) as [[self' ls] evs]
  end.
  exact H.
Qed.

(** X10: what the events of one call of [checkLineCrossings] tell of the
    areas, in every state a manager can reach. For each area the tracks
    other than the one of the call are in [peopleInside] as before; the call
    forwards one ['in'] event of the area exactly when the track came into
    the set, one ['out'] event exactly when it left the set, and no event
    of the area when its membership stayed. A further call for the same
    track at the same current position, whatever the previous position and
    the time, forwards no event of an area: there is no second ['in']
    while the track is recorded inside. *)
Theorem area_events_report_the_changes_of_membership (cw ch vw vh : Q) (ops : list Op)
    (t : nat) (p c : Point) (now : Z) :
  let self := (runOps (constructor cw ch vw vh) ops).1 in
  let r := checkLineCrossings self t p c now in
  Forall2 (reported t r.2) (lines self) (lines r.1) ∧
  ∀ p' now' e, e ∈ (checkLineCrossings r.1 t p' c now').2 → lineEvent (lines r.1) e.
Proof.
  intros self r.
  assert (Hnd : NoDup (id <$> lines self)).
  { destruct (runOps_registryOk ops (constructor cw ch vw vh)) as [_ (H & _)];
      [simpl; lia | apply registryOk_constructor | exact H]. }
  split; [by apply checkLineCrossings_reported|].
  intros p' now' e.
  destruct (decide (t = 0%nat)) as [->|Ht].
  { unfold checkLineCrossings at 1. by intros ?%not_elem_of_nil. }
  apply checkLineCrossings_settled.
  destruct (checkLineCrossings_effect self t p c now) as (Hf & Hsk & _). fold r in Hf, Hsk.
  pose proof (checkLineCrossings_members self t p c now Ht) as Hmem. fold r in Hmem.
  assert (Hcw : canvas_width r.1 = canvas_width self ∧ canvas_height r.1 = canvas_height self ∧
                videoWidth r.1 = videoWidth self ∧ videoHeight r.1 = videoHeight self).
  { unfold frame in Hf. injection Hf as ? ? ? ? _ _. done. }
  destruct Hcw as (-> & -> & -> & ->).
  intros b' Hb' Ht'. apply list_elem_of_lookup in Hb' as [i Hi].
  destruct (Forall2_lookup_r _ _ _ _ _ Hmem Hi) as (b & Hb & Hfol).
  assert (Hskb : skeleton b' = skeleton b).
  { apply (f_equal (λ l, l !! i)) in Hsk. rewrite !list_lookup_fmap, Hi, Hb in Hsk.
    simpl in Hsk. congruence. }
  assert (Htb : type b = area) by (unfold skeleton in Hskb; congruence).
  specialize (Hfol Htb t). rewrite decide_True in Hfol by done.
  by rewrite (isInsideArea_skeleton b b' _ Hskb).
Qed.

Lemma eventOf_skeleton (l l' : list Boundary) (t : nat) (now : Z) (e : CrossingEvent) :
  skeleton <$> l' = skeleton <$> l → eventOf l' t now e → eventOf l t now e.
Proof.
  intros Hs (Hp & Hn & b' & Hb' & Hid & Hnm). split; [done|]. split; [done|].
  apply list_elem_of_lookup in Hb' as [i Hi].
  assert (Hl : (skeleton <$> l) !! i = Some (skeleton b')).
  { by rewrite <- Hs, list_lookup_fmap, Hi. }
  rewrite list_lookup_fmap in Hl. destruct (l !! i) as [b|] eqn:Hb; [|done].
  simpl in Hl. injection Hl as Hi' _ Hn' _ _.
  exists b. split; [by eapply list_elem_of_lookup_2|]. split; congruence.
Qed.

Lemma runChecks_effect (self : LineManager) (cs : list Call) :
  let r := runChecks self cs in
  (∀ d k, counterOf d k r.1 = (counterOf d k self + countEvents d k r.2)%nat) ∧
  (∀ e, e ∈ r.2 →
        ∃ c, c ∈ cs ∧ ev_personId e = call_person c ∧ ev_timestamp e = call_now c ∧
             ∃ b, b ∈ lines self ∧ id b = ev_lineId e ∧ name b = ev_lineName e).
Proof.
  revert self. induction cs as [|c cs IH]; intros self; simpl.
  { split; [|by intros e ?%not_elem_of_nil]. intros d k. unfold countEvents. simpl. lia. }
  destruct (checkLineCrossings_effect self (call_person c) (call_prev c) (call_curr c)
              (call_now c)) as (_ & Hs & _ & Hev & Hcnt & _).
  destruct (checkLineCrossings self (call_person c) (call_prev c) (call_curr c) (call_now c))
    as [self1 ev]. simpl in Hs, Hev, Hcnt.
  specialize (IH self1). destruct (runChecks self1 cs) as [self2 evs].
  simpl in *. destruct IH as [IHc IHe]. split.
  - intros d k. rewrite IHc, Hcnt, countEvents_app. lia.
  - intros e [He|He]%elem_of_app.
    + exists c. split; [by left|]. destruct (Hev e He) as (? & ? & ?). done.
    + destruct (IHe e He) as (c' & Hc' & Hp & Hn & b & Hb & Hid & Hnm).
      exists c'. split; [by right|]. split; [done|]. split; [done|].
      assert (Hof : eventOf (lines self1) (call_person c') (call_now c') e).
      { split; [done|]. split; [done|]. by exists b. }
      apply (eventOf_skeleton _ _ _ _ _ Hs) in Hof as (_ & _ & Hex). exact Hex.
Qed.

(** X11: over any sequence of calls of [checkLineCrossings], every counter
    advances by exactly the number of events forwarded for its boundary
    and direction; every event carries the track and the time of one of
    the calls, and the id and the name of a boundary of the list. *)
Theorem every_event_is_counted_once (self : LineManager) (cs : list Call) :
  let r := runChecks self cs in
  (∀ d k, counterOf d k r.1 = (counterOf d k self + countEvents d k r.2)%nat) ∧
  (∀ e, e ∈ r.2 →
        ∃ c, c ∈ cs ∧ ev_personId e = call_person c ∧ ev_timestamp e = call_now c ∧
             ∃ b, b ∈ lines self ∧ id b = ev_lineId e ∧ name b = ev_lineName e).
Proof. exact (runChecks_effect self cs). Qed.

Lemma spliceById_filter (k : nat) (l : list Boundary) :
  NoDup (id <$> l) → spliceById k l = filter (λ b, id b ≠ k) l.
Proof.
  induction l as [|a l IH]; intros Hnd; simpl; [done|].
  rewrite fmap_cons in Hnd. apply NoDup_cons in Hnd as [Ha Hnd].
  rewrite filter_cons. destruct (id a =? k)%nat eqn:E.
  - apply Nat.eqb_eq in E. rewrite decide_False by (intros H; by apply H).
    rewrite <- IH by done. symmetry. apply spliceById_absent. by rewrite <- E.
  - apply Nat.eqb_neq in E. rewrite decide_True by done. by rewrite IH.
Qed.

(** X12: in every state a manager can reach, [removeLine] of an id that is
    not in the list answers [false] and changes nothing; for an id of the
    list it answers [true], takes exactly that boundary out of the list
    (the order of the others is kept), deletes its counters, leaves no
    record of a recent crossing of it for any track, adds no record, and
    leaves the canvas, the id counter and the drawing state alone. *)
Theorem removeLine_takes_the_boundary_out (cw ch vw vh : Q) (ops : list Op) (k : nat) :
  let self := (runOps (constructor cw ch vw vh) ops).1 in
  let r := removeLine self k in
  if bool_decide (k ∈ id <$> lines self) then
    r.2 = true ∧ frame r.1 = frame self ∧
    lines r.1 = filter (λ b, id b ≠ k) (lines self) ∧
    lineCrossings r.1 = delete k (lineCrossings self) ∧
    (∀ t, crossedTracks r.1 !! crossingKey t k = None) ∧
    crossedTracks r.1 ⊆ crossedTracks self
  else r = (self, false).
Proof.
  intros self r.
  assert (Hnd : NoDup (id <$> lines self)).
  { destruct (runOps_registryOk ops (constructor cw ch vw vh)) as [_ (H & _)];
      [simpl; lia | apply registryOk_constructor | exact H]. }
  subst r. unfold removeLine. case_bool_decide as Hk.
  - apply existsb_id in Hk. rewrite Hk. cbn [fst snd].
    split; [done|]. split; [done|]. split; [by apply spliceById_filter|].
    split; [done|]. split.
    + intros t. apply map_lookup_filter_None. right. intros x _. cbn [fst].
      by rewrite includes_own_key.
    + apply map_filter_subseteq.
  - destruct (existsb _ _) eqn:E; [|done]. by apply existsb_id in E.
Qed.

(** X13: in every state a manager can reach, [renameLine] answers whether
    the id is in the list; the boundary with the id gets the new name, and
    every other boundary, the counters, the records of recent crossings
    and the rest of the manager stay as they were. *)
Theorem renameLine_changes_only_the_name (cw ch vw vh : Q) (ops : list Op) (k : nat)
    (newName : string) :
  let self := (runOps (constructor cw ch vw vh) ops).1 in
  let r := renameLine self k newName in
  r.2 = bool_decide (k ∈ id <$> lines self) ∧
  lines r.1 = (λ b, if (id b =? k)%nat then set_name b newName else b) <$> lines self ∧
  frame r.1 = frame self ∧ lineCrossings r.1 = lineCrossings self ∧
  crossedTracks r.1 = crossedTracks self ∧ registryOk r.1.
Proof.
  intros self r.
  assert (Hok : registryOk self).
  { destruct (runOps_registryOk ops (constructor cw ch vw vh)) as [_ H];
      [simpl; lia | apply registryOk_constructor | exact H]. }
  pose proof Hok as (Hnd & _).
  split; [|split; [by apply renameLine_lines|]].
  - subst r. unfold renameLine. case_bool_decide as Hk.
    + apply existsb_id in Hk. by rewrite Hk.
    + destruct (existsb _ _) eqn:E; [|done]. by apply existsb_id in E.
  - split; [|split; [|split; [|by apply registryOk_renameLine]]];
      subst r; unfold renameLine; by destruct (existsb _ _).
Qed.

(** X14: the key of [crossedTracks] identifies the pair: two keys
    ["<track>-<line>"] are the same text only for the same track and the
    same line, so the record of one pair never stands for another pair. *)
Theorem dedup_keys_are_injective (t b t' b' : nat) :
  crossingKey t b = crossingKey t' b' ↔ t = t' ∧ b = b'.
Proof. split; [apply crossingKey_eq | by intros [-> ->]]. Qed.

(** *** The theorems on concrete registries *)

Lemma line_ids_are_never_reused_witness :
  let then_ := (runOps Scenario.manager [OpAddLine Scenario.testLine]).1 in
  let later := (runOps then_ [OpRemoveLine 1]).1 in
  let b := (addLine Scenario.manager Scenario.testLine).2 in
  b ∈ lines then_ ∧ id (addLine later Scenario.testLine).2 ≠ id b.
Proof.
  assert (H : (addLine Scenario.manager Scenario.testLine).2
              ∈ lines (runOps Scenario.manager [OpAddLine Scenario.testLine]).1)
    by (exact (list_elem_of_here _ [])).
  split; [exact H|].
  exact (line_ids_are_never_reused 200 200 200 200 [OpAddLine Scenario.testLine]
           [OpRemoveLine 1] Scenario.testLine _ H).
Defined.

Lemma area_occupancy_is_entries_minus_exits_witness :
  let ops := [OpAddLine (AreaReq None (Segment (0, 0)%Q (100, 100)%Q));
              OpCheckLineCrossings 7 (150, 150)%Q (50, 50)%Q 1000] in
  let self := (runOps (constructor 200 200 200 200) ops).1 in
  ∃ b, lines self = [b] ∧ size (peopleInside b) = 1%nat ∧
       counterOf dir_in (id b) self
       = (counterOf dir_out (id b) self + size (peopleInside b))%nat.
Proof.
  intros ops self.
  destruct (lines self) as [|b [|b' l]] eqn:E; [by vm_compute in E| |by vm_compute in E].
  exists b. split; [done|].
  assert (Hb : b ∈ lines self) by (rewrite E; left).
  assert (Hops : Forall (λ op, op ≠ OpResetCounts) ops) by (repeat constructor; discriminate).
  assert (Ht : type b = area).
  { assert (H : type <$> lines self = [area]) by (by vm_compute).
    rewrite E in H. by injection H. }
  split.
  - assert (H : (λ x, size (peopleInside x)) <$> lines self = [1%nat]) by (by vm_compute).
    rewrite E in H. by injection H.
  - exact (area_occupancy_is_entries_minus_exits 200 200 200 200 ops b Hops Hb Ht).
Defined.

End RegistryProofs.

(** ** The cooldown of line crossings, under all the calls on the manager *)

Module CooldownProofs.
Import LineManager LineManagerSpec LineManagerProofs Registry RegistrySpec RegistryProofs.

Section pair.

Variables t b : nat.

Lemma pairSpaced_snoc (past : list CrossingEvent) (e' : CrossingEvent) :
  pairSpaced t b past →
  (∀ e, e ∈ past → ev_personId e = t → ev_lineId e = b →
        ev_personId e' = t → ev_lineId e' = b →
        (ev_timestamp e + cooldown ≤ ev_timestamp e')%Z) →
  pairSpaced t b (past ++ [e']).
Proof.
  intros Hs Hnew i j e1 e2 Hij H1 H2.
  destruct (decide (j < length past)%nat) as [Hj|Hj].
  - rewrite lookup_app_l in H1 by lia. rewrite lookup_app_l in H2 by lia.
    exact (Hs i j e1 e2 Hij H1 H2).
  - assert (j = length past) as ->.
    { apply lookup_lt_Some in H2. rewrite length_app in H2. simpl in H2. lia. }
    rewrite lookup_app_l in H1 by lia.
    rewrite lookup_app_r in H2 by lia.
    rewrite Nat.sub_diag in H2. simpl in H2. injection H2 as <-.
    apply Hnew. by eapply list_elem_of_lookup_2.
Qed.

Lemma checkLine_pair (self : LineManager) (l : Boundary) (personId : nat)
    (p c : Point) (now : Z) (past : list CrossingEvent) :
  pairRecorded t b past (crossedTracks self) → pairSpaced t b past →
  pairRecorded t b (past ++ (checkLine self l personId p c now).2)
               (crossedTracks (checkLine self l personId p c now).1) ∧
  pairSpaced t b (past ++ (checkLine self l personId p c now).2).
Proof.
  intros Hrec Hsp.
  destruct (checkLine_cases self l personId p c now) as [->|(d & x & Hold & ->)]; simpl.
  { by rewrite app_nil_r. }
  split.
  - intros e [He|He]%elem_of_app Hp Hl.
    + destruct (Hrec e He Hp Hl) as (r & Hr & Hle).
      destruct (decide (crossingKey t b = crossingKey personId (id l))) as [Heq|Hne].
      * rewrite Heq, lookup_insert_eq. eexists; split; [done|]. simpl.
        rewrite Heq in Hr. specialize (Hold r Hr). unfold cooldown in Hold. lia.
      * rewrite lookup_insert_ne by done. eauto.
    + apply list_elem_of_singleton in He. subst e. simpl in Hp, Hl. subst.
      rewrite lookup_insert_eq. eexists; split; [done|]. simpl. lia.
  - apply pairSpaced_snoc; [done|].
    intros e He Hp Hid Hp' Hid'. simpl in Hp', Hid' |- *.
    destruct (Hrec e He Hp Hid) as (r & Hr & Hle).
    rewrite <- Hp', <- Hid' in Hr. specialize (Hold r Hr). lia.
Qed.

Lemma checkAreaCrossing_pair (self : LineManager) (a : Boundary) (personId : nat)
    (c : Point) (now : Z) (past : list CrossingEvent) :
  id a ≠ b →
  pairRecorded t b past (crossedTracks self) → pairSpaced t b past →
  pairRecorded t b (past ++ (checkAreaCrossing self a personId c now).2)
               (crossedTracks (checkAreaCrossing self a personId c now).1.1) ∧
  pairSpaced t b (past ++ (checkAreaCrossing self a personId c now).2).
Proof.
  intros Hna Hrec Hsp. unfold checkAreaCrossing.
  assert (Hev : ∀ e, ev_lineId e = id a →
            pairRecorded t b (past ++ [e]) (crossedTracks self) ∧ pairSpaced t b (past ++ [e])).
  { intros e He. split.
    - intros e' [H|H]%elem_of_app Hp Hl; [by apply Hrec|].
      apply list_elem_of_singleton in H. subst e'. congruence.
    - apply pairSpaced_snoc; [done|]. intros e' _ _ _ _ Hid. congruence. }
  destruct (isInsideArea a c && _).
  { simpl. exact (Hev (mkEvent (id a) (name a) personId dir_in c now) eq_refl). }
  destruct (negb _ && _).
  { simpl. exact (Hev (mkEvent (id a) (name a) personId dir_out c now) eq_refl). }
  simpl. by rewrite app_nil_r.
Qed.

Lemma crossingLoop_pair (ls : list Boundary) :
  ∀ (self : LineManager) (personId : nat) (p c : Point) (now : Z)
    (past : list CrossingEvent),
  (∀ x, x ∈ ls → id x = b → type x = line) →
  pairRecorded t b past (crossedTracks self) → pairSpaced t b past →
  pairRecorded t b (past ++ (crossingLoop self ls personId p c now).2)
               (crossedTracks (crossingLoop self ls personId p c now).1.1) ∧
  pairSpaced t b (past ++ (crossingLoop self ls personId p c now).2).
Proof.
  induction ls as [|x rest IH]; intros self personId p c now past Hty Hrec Hsp.
  { simpl. by rewrite app_nil_r. }
  assert (Hrest : ∀ x', x' ∈ rest → id x' = b → type x' = line).
  { intros x' Hx'. apply Hty. by right. }
  simpl. destruct (type x) eqn:Ht.
  - destruct (checkLine_pair self x personId p c now past Hrec Hsp) as [Hrec1 Hsp1].
    destruct (checkLine self x personId p c now) as [self1 ev]. simpl in *.
    specialize (IH self1 personId p c now (past ++ ev) Hrest Hrec1 Hsp1).
    destruct (crossingLoop self1 rest personId p c now) as [[self2 rest'] evs].
    simpl in *. by rewrite <- !app_assoc in IH.
  - assert (Hne : id x ≠ b).
    { intros E. specialize (Hty x ltac:(by left) E). congruence. }
    destruct (checkAreaCrossing_pair self x personId c now past Hne Hrec Hsp)
      as (Hrec1 & Hsp1).
    destruct (checkAreaCrossing self x personId c now) as [[self1 b1] ev]. simpl in *.
    specialize (IH self1 personId p c now (past ++ ev) Hrest Hrec1 Hsp1).
    destruct (crossingLoop self1 rest personId p c now) as [[self2 rest'] evs].
    simpl in *. by rewrite <- !app_assoc in IH.
Qed.

Lemma lineOnly_skeleton (self self' : LineManager) :
  nextLineId self' = nextLineId self →
  skeleton <$> lines self' = skeleton <$> lines self →
  lineOnly b self → lineOnly b self'.
Proof.
  intros Hn Hs [Hlt Hty]. split; [lia|]. intros x Hx Hid.
  apply list_elem_of_lookup in Hx as [i Hi].
  assert (Hl : (skeleton <$> lines self) !! i = Some (skeleton x)).
  { by rewrite <- Hs, list_lookup_fmap, Hi. }
  rewrite list_lookup_fmap in Hl. destruct (lines self !! i) as [x0|] eqn:Hx0; [|done].
  simpl in Hl. unfold skeleton in Hl.
  assert (Hi' : id x0 = id x) by congruence.
  assert (Ht' : type x0 = type x) by congruence.
  rewrite <- Ht'. apply Hty; [by eapply list_elem_of_lookup_2 | by rewrite Hi'].
Qed.

Lemma checkLineCrossings_pair (self : LineManager) (personId : nat) (p c : Point) (now : Z)
    (past : list CrossingEvent) :
  lineOnly b self →
  pairRecorded t b past (crossedTracks self) → pairSpaced t b past →
  let r := checkLineCrossings self personId p c now in
  lineOnly b r.1 ∧ pairRecorded t b (past ++ r.2) (crossedTracks r.1) ∧
  pairSpaced t b (past ++ r.2).
Proof.
  intros Hl Hrec Hsp r. split.
  - destruct (checkLineCrossings_effect self personId p c now) as (Hf & Hs & _).
    apply (lineOnly_skeleton self); [|done..].
    unfold frame in Hf. by injection Hf.
  - subst r. unfold checkLineCrossings. destruct (personId =? 0)%nat.
    { simpl. by rewrite app_nil_r. }
    destruct Hl as [_ Hty].
    match goal with
    | |- context [crossingLoop self (lines self) personId ?a ?b' now] =>
        pose proof (crossingLoop_pair (lines self) self personId a b' now past Hty Hrec Hsp)
          as H;
        destruct (crossingLoop self (lines self) personId a b' now) as [[self' ls] evs]
    end.
    exact H.
Qed.

Lemma spliceById_sub (k : nat) (l : list Boundary) (x : Boundary) :
  x ∈ spliceById k l → x ∈ l.
Proof.
  induction l as [|a l IH]; simpl; [done|].
  destruct (id a =? k)%nat; [by right|].
  intros [->|H]%elem_of_cons; [by left | right; by apply IH].
Qed.

Lemma renameLine_elem (self : LineManager) (k : nat) (n : string) (x : Boundary) :
  x ∈ lines (renameLine self k n).1 →
  ∃ x0, x0 ∈ lines self ∧ id x = id x0 ∧ type x = type x0.
Proof.
  unfold renameLine. destruct (existsb _ _); simpl; [|by eauto].
  induction (lines self) as [|a l IH]; [by intros ?%not_elem_of_nil|].
  destruct (id a =? k)%nat.
  - intros [->|H]%elem_of_cons.
    + exists a. split; [by left | done].
    + exists x. split; [by right | done].
  - intros [->|H]%elem_of_cons.
    + exists a. split; [by left | done].
    + destruct (IH H) as (x0 & ? & ?). exists x0. split; [by right | done].
Qed.

Lemma lineOnly_addLine (self : LineManager) (req : Request) :
  lineOnly b self → lineOnly b (addLine self req).1.
Proof.
  intros [Hlt Hty]. split.
  - assert (nextLineId (addLine self req).1 = S (nextLineId self)) as -> by (by destruct req).
    lia.
  - intros x. rewrite addLine_lines.
    intros [Hx| ->%list_elem_of_singleton]%elem_of_app Hid; [by apply Hty|].
    destruct (addLine_boundary self req) as [Hi _]. lia.
Qed.

(** A gesture leaves the registry alone, or submits one request. *)
Lemma gesture_pair (self self' : LineManager) (past : list CrossingEvent) :
  (self' = self ∨ (∃ d, self' = set_drawing self d) ∨
   (∃ d req, self' = set_drawing (addLine self req).1 d)) →
  lineOnly b self → pairRecorded t b past (crossedTracks self) →
  lineOnly b self' ∧ pairRecorded t b past (crossedTracks self').
Proof.
  intros [->|[[d ->]|(d & req & ->)]] Hl Hrec; [done..|].
  split; [exact (lineOnly_addLine self req Hl)|].
  assert (crossedTracks (set_drawing (addLine self req).1 d) = crossedTracks self) as ->
    by (by destruct req).
  done.
Qed.

Lemma applyOp_pair (self : LineManager) (op : Op) (past : list CrossingEvent) :
  erases t b op = false →
  lineOnly b self → pairRecorded t b past (crossedTracks self) → pairSpaced t b past →
  lineOnly b (applyOp self op).1 ∧
  pairRecorded t b (past ++ (applyOp self op).2) (crossedTracks (applyOp self op).1) ∧
  pairSpaced t b (past ++ (applyOp self op).2).
Proof.
  intros Hop Hl Hrec Hsp.
  assert (Hg : ∀ self', 
    (self' = self ∨ (∃ d, self' = set_drawing self d) ∨
     (∃ d req, self' = set_drawing (addLine self req).1 d)) →
    lineOnly b self' ∧ pairRecorded t b (past ++ []) (crossedTracks self') ∧
    pairSpaced t b (past ++ [])).
  { intros self' H. rewrite app_nil_r.
    destruct (gesture_pair self self' past H Hl Hrec). done. }
  destruct op; cbn [applyOp fst snd]; try discriminate.
  - rewrite app_nil_r. split; [by apply lineOnly_addLine|]. split; [|done].
    assert (crossedTracks (addLine self req).1 = crossedTracks self) as -> by (by destruct req).
    done.
  - rewrite app_nil_r. simpl in Hop. split; [|split; [|done]].
    + destruct Hl as [Hlt Hty]. split.
      * unfold removeLine. destruct (existsb _ _); simpl; lia.
      * intros x Hx. apply Hty. revert Hx. unfold removeLine.
        destruct (existsb _ _); simpl; [apply spliceById_sub | done].
    + destruct (removeLine self lineId).2 eqn:E.
      * intros e He Hp Hid. rewrite (removeLine_crossed_lookup self lineId _ E), Hop.
        by apply Hrec.
      * revert E. unfold removeLine. destruct (existsb _ _); [done|]. done.
  - rewrite app_nil_r. split; [|split; [|done]].
    + destruct Hl as [Hlt Hty]. split.
      * unfold renameLine. destruct (existsb _ _); simpl; lia.
      * intros x (x0 & Hx0 & Hi & Hty0)%renameLine_elem Hid. rewrite Hty0.
        apply Hty; [done | congruence].
    + assert (crossedTracks (renameLine self lineId newName).1 = crossedTracks self) as ->
        by (unfold renameLine; by destruct (existsb _ _)).
      done.
  - by apply checkLineCrossings_pair.
  - apply Hg. right; left. by eexists.
  - apply Hg. right; left. by eexists.
  - apply Hg. unfold setDrawingMode. repeat destruct (bool_decide _); eauto.
  - apply Hg, handleMouseDown_gesture.
  - apply Hg. unfold handleMouseMove.
    destruct (isDrawing _); [|by left]. destruct (drawingLine _) as [[? ?]|]; eauto.
  - apply Hg, handleMouseUp_gesture.
  - apply Hg. unfold handleMouseLeave. destruct (isDrawing _); eauto.
  - apply Hg. unfold handleTouchStart. destruct (negb _); eauto.
  - apply Hg. unfold handleTouchMove.
    destruct (isDrawing _); [|by left]. destruct (drawingLine _) as [[? ?]|]; eauto.
  - apply Hg, handleTouchEnd_gesture.
Qed.

Lemma runOps_pair (ops : list Op) :
  ∀ (self : LineManager) (past : list CrossingEvent),
  Forall (λ op, erases t b op = false) ops →
  lineOnly b self → pairRecorded t b past (crossedTracks self) → pairSpaced t b past →
  pairSpaced t b (past ++ (runOps self ops).2).
Proof.
  induction ops as [|op ops IH]; intros self past Hops Hl Hrec Hsp.
  { simpl. by rewrite app_nil_r. }
  apply Forall_cons in Hops as [Hop Hops].
  destruct (applyOp_pair self op past Hop Hl Hrec Hsp) as (Hl1 & Hrec1 & Hsp1).
  simpl. destruct (applyOp self op) as [self1 ev]. simpl in *.
  specialize (IH self1 (past ++ ev) Hops Hl1 Hrec1 Hsp1).
  destruct (runOps self1 ops) as [self2 evs]. simpl in *. by rewrite <- app_assoc in IH.
Qed.

End pair.

(** C1 (as the code has it). Lines: two events forwarded for the same
    track and the same line are at least the cooldown of 2000 ms apart, the
    later after the earlier, over any sequence of calls of
    [checkLineCrossings], and over any sequence of calls on the manager
    whatsoever as long as none of them erases the record of the pair
    ([resetCounts], [clearLines], and [removeLine] of an id whose text
    "-<id>" occurs in the key of the pair); a crossing of a line that comes
    less than 2000 ms after the crossing on record for the pair is dropped,
    with the manager unchanged and no event; and a crossing that is not
    dropped adds one to exactly one counter of the line and forwards
    exactly one event. Areas: [checkAreaCrossing] neither reads nor writes
    the records of recent crossings and does not look at the time. With
    [inside] the verdict of its containment test, which the geometry of
    the area and the position settle, it forwards ['in'] and adds the track
    to [peopleInside] when the position is inside and the track is not in
    the set, forwards ['out'] and takes the track out of the set when the
    position is outside and the track is in the set, and does nothing
    otherwise. *)
Theorem C1_cooldown_for_lines_membership_for_areas (self : LineManager) :
  NoDup (id <$> lines self) →
  (∀ cs i j e1 e2 l,
     (i < j)%nat →
     (runChecks self cs).2 !! i = Some e1 → (runChecks self cs).2 !! j = Some e2 →
     ev_personId e1 = ev_personId e2 → ev_lineId e1 = ev_lineId e2 →
     l ∈ lines self → type l = line → id l = ev_lineId e1 →
     (ev_timestamp e1 + 2000 ≤ ev_timestamp e2)%Z) ∧
  (∀ ops t l i j e1 e2,
     l ∈ lines self → type l = line → (id l < nextLineId self)%nat →
     Forall (λ op, erases t (id l) op = false) ops →
     (i < j)%nat →
     (runOps self ops).2 !! i = Some e1 → (runOps self ops).2 !! j = Some e2 →
     ev_personId e1 = t → ev_lineId e1 = id l →
     ev_personId e2 = t → ev_lineId e2 = id l →
     (ev_timestamp e1 + 2000 ≤ ev_timestamp e2)%Z) ∧
  (∀ l personId p c now r,
     crossedTracks self !! crossingKey personId (id l) = Some r →
     (now - timestamp r < 2000)%Z →
     checkLine self l personId p c now = (self, [])) ∧
  (∀ l personId p c now,
     checkLine self l personId p c now = (self, []) ∨
     ∃ d x, checkLine self l personId p c now =
       (set_crossedTracks
          (set_lineCrossings self (bump d (id l) (lineCrossings self)))
          (<[crossingKey personId (id l) := {| timestamp := now; direction := d |}]>
             (crossedTracks self)),
        [ mkEvent (id l) (name l) personId d x now ])) ∧
  (∀ a c, ∃ inside : bool,
     ∀ (recent : gmap string Crossing) (members : gset nat) (personId : nat) (now : Z),
       let r := checkAreaCrossing (set_crossedTracks self recent)
                  (set_peopleInside a members) personId c now in
       crossedTracks r.1.1 = recent ∧
       (r.2, peopleInside r.1.2) =
         if inside && negb (bool_decide (personId ∈ members))
         then ([ mkEvent (id a) (name a) personId dir_in c now ], {[ personId ]} ∪ members)
         else if negb inside && bool_decide (personId ∈ members)
         then ([ mkEvent (id a) (name a) personId dir_out c now ], members ∖ {[ personId ]})
         else ([], members)).
Proof.
  intros Hnd. split; [|split; [|split; [|split]]].
  - intros cs i j e1 e2 l Hij H1 H2 Hp Hid Hl Hty Hidl.
    set (isLine := λ n : nat, ∃ b, b ∈ lines self ∧ type b = line ∧ id b = n).
    assert (Hso : sorted_out isLine (lines self)).
    { intros b Hb. split; [intros; by exists b|].
      intros Ha (b' & Hb' & Hty' & Hid').
      assert (b' = b) as ->; [|congruence].
      apply list_elem_of_lookup in Hb as [n Hn]. apply list_elem_of_lookup in Hb' as [n' Hn'].
      assert (n' = n) as ->; [|congruence].
      eapply NoDup_lookup; [exact Hnd| |]; rewrite list_lookup_fmap.
      - by rewrite Hn'.
      - rewrite Hn. simpl. by rewrite Hid'. }
    pose proof (runChecks_keeps isLine cs self [] Hso) as Hsp.
    simpl in Hsp. unfold cooldown in *.
    eapply (Hsp ltac:(by intros ? ?%not_elem_of_nil) ltac:(by intros ? ? ? ? ? [=]) i j);
      try done.
    exists l. done.
  - intros ops t l i j e1 e2 Hl Hty Hlt Hops Hij H1 H2 Hp1 Hi1 Hp2 Hi2.
    assert (Hline : lineOnly (id l) self).
    { split; [done|]. intros x Hx Hid.
      assert (x = l) as ->; [|done].
      apply list_elem_of_lookup in Hx as [n Hn]. apply list_elem_of_lookup in Hl as [n' Hn'].
      assert (n = n') as ->; [|congruence].
      eapply NoDup_lookup; [exact Hnd| |]; rewrite list_lookup_fmap.
      - rewrite Hn. simpl. by rewrite Hid.
      - by rewrite Hn'. }
    pose proof (runOps_pair t (id l) ops self [] Hops Hline) as Hsp.
    simpl in Hsp. unfold cooldown in *.
    exact (Hsp ltac:(by intros ? ?%not_elem_of_nil) ltac:(by intros ? ? ? ? ? [=])
             i j e1 e2 Hij H1 H2 Hp1 Hi1 Hp2 Hi2).
  - intros l personId p c now r Hr Hlt.
    destruct (checkLine_cases self l personId p c now) as [->|(d & x & Hold & _)]; [done|].
    specialize (Hold r Hr). unfold cooldown in Hold. lia.
  - intros l personId p c now.
    destruct (checkLine_cases self l personId p c now) as [->|(d & x & _ & ->)]; [by left|].
    right. by exists d, x.
  - intros a c. exists (isInsideArea a c). intros recent members personId now.
    unfold checkAreaCrossing.
    change (isInsideArea (set_peopleInside a members) c) with (isInsideArea a c).
    change (peopleInside (set_peopleInside a members)) with members.
    destruct (isInsideArea a c && _); [done|]. by destruct (negb _ && _).
Qed.

Lemma C1_cooldown_for_lines_membership_for_areas_witness :
  NoDup (id <$> lines Scenario.withUpwardLine) ∧
  map ev_timestamp (runChecks Scenario.withUpwardLine Scenario.backAndForth).2
    = [1000%Z; 3500%Z] ∧
  (∀ e1 e2,
     (runChecks Scenario.withUpwardLine Scenario.backAndForth).2 !! 0%nat = Some e1 →
     (runChecks Scenario.withUpwardLine Scenario.backAndForth).2 !! 1%nat = Some e2 →
     (ev_timestamp e1 + 2000 ≤ ev_timestamp e2)%Z) ∧
  map ev_timestamp (runOps Scenario.withUpwardLine RegistryScenario.busy).2
    = [1000%Z; 3500%Z] ∧
  (∀ e1 e2,
     (runOps Scenario.withUpwardLine RegistryScenario.busy).2 !! 0%nat = Some e1 →
     (runOps Scenario.withUpwardLine RegistryScenario.busy).2 !! 1%nat = Some e2 →
     (ev_timestamp e1 + 2000 ≤ ev_timestamp e2)%Z).
Proof.
  assert (Hnd : NoDup (id <$> lines Scenario.withUpwardLine)).
  { change (id <$> lines Scenario.withUpwardLine) with [1%nat]. apply NoDup_singleton. }
  destruct (C1_cooldown_for_lines_membership_for_areas Scenario.withUpwardLine Hnd)
    as (Hcalls & Hops & _).
  assert (Hl : (addLine Scenario.manager Scenario.upwardLine).2
               ∈ lines Scenario.withUpwardLine).
  { vm_compute. apply list_elem_of_singleton. reflexivity. }
  split; [exact Hnd|]. split; [vm_compute; reflexivity|]. split; [|split].
  - intros e1 e2 H1 H2.
    apply (Hcalls Scenario.backAndForth 0%nat 1%nat e1 e2
             (addLine Scenario.manager Scenario.upwardLine).2);
      [lia | exact H1 | exact H2 | | | exact Hl | reflexivity | ].
    + vm_compute in H1, H2. injection H1 as <-. injection H2 as <-. reflexivity.
    + vm_compute in H1, H2. injection H1 as <-. injection H2 as <-. reflexivity.
    + vm_compute in H1. injection H1 as <-. reflexivity.
  - vm_compute. reflexivity.
  - intros e1 e2 H1 H2.
    apply (Hops RegistryScenario.busy 1%nat (addLine Scenario.manager Scenario.upwardLine).2
             0%nat 1%nat e1 e2);
      [exact Hl | reflexivity | vm_compute; lia | | lia | exact H1 | exact H2 | | | | ].
    + repeat constructor.
    + vm_compute in H1. injection H1 as <-. reflexivity.
    + vm_compute in H1. injection H1 as <-. reflexivity.
    + vm_compute in H2. injection H2 as <-. reflexivity.
    + vm_compute in H2. injection H2 as <-. reflexivity.
Defined.

(** C1, the claim as written fails. For areas: track 1 walks into the
    rectangle at 1000, out at 1100 and in again at 1200; all three
    crossings are counted and forwarded, 100 ms apart. For lines after a
    reset: track 1 crosses the line at 1000 and, [resetCounts] having
    emptied the records, is counted again at 1100. For lines after the
    removal of another line: track 5 crosses lines 1 to 10 at 1000, line 1
    is removed, which erases the record of line 10 as well, and at 1100
    the track is counted on line 10 again, while on lines 2 to 9 it is
    not. *)
Lemma C1_second_crossing_within_cooldown :
  (map (λ e, (ev_lineId e, ev_personId e, ev_direction e, ev_timestamp e))
       (runChecks Scenario.withArea Scenario.inOutIn).2
     = [ (1%nat, 1%nat, dir_in, 1000%Z);
         (1%nat, 1%nat, dir_out, 1100%Z);
         (1%nat, 1%nat, dir_in, 1200%Z) ] ∧
   map type (lines Scenario.withArea) = [area] ∧
   lineCrossings (runChecks Scenario.withArea Scenario.inOutIn).1 !! 1%nat
     = Some {| count_in := 2; count_out := 1 |}) ∧
  (map type (lines Scenario.withUpwardLine) = [line] ∧
   map (λ e, (ev_lineId e, ev_personId e, ev_timestamp e))
       (runOps Scenario.withUpwardLine RegistryScenario.resetBetween).2
     = [ (1%nat, 1%nat, 1000%Z); (1%nat, 1%nat, 1100%Z) ]) ∧
  (map type (lines Scenario.tenLines) = replicate 10 line ∧
   map (λ e, (ev_lineId e, ev_personId e, ev_timestamp e))
       (filter (λ e, ev_lineId e = 10%nat)
          (runOps Scenario.tenLines RegistryScenario.removalBetween).2)
     = [ (10%nat, 5%nat, 1000%Z); (10%nat, 5%nat, 1100%Z) ] ∧
   map (λ e, (ev_lineId e, ev_personId e, ev_timestamp e))
       (filter (λ e, ev_lineId e = 9%nat)
          (runOps Scenario.tenLines RegistryScenario.removalBetween).2)
     = [ (9%nat, 5%nat, 1000%Z) ]).
Proof. vm_compute. done. Qed.

End CooldownProofs.

(** ** The tracker, frame by frame *)

Module TrackerFrameProofs.
Import Tracker TrackerSpec TrackerProofs TrackerFrameSpec.

(** *** Intersection over union *)

(** The overlap of two intervals [a, a + w] and [b, b + v]. *)
Lemma overlap_cases (a w b v : Q) :
  let o := Qmax 0 (Qmin (a + w) (b + v) - Qmax a b) in
  (o == 0)%Q ∨ (0 < o ∧ o <= w ∧ o <= v)%Q.
Proof.
  simpl. set (t := (Qmin (a + w) (b + v) - Qmax a b)%Q).
  destruct (Qlt_le_dec 0 t) as [Hpos|Hneg].
  - right. rewrite Q.max_r by lra.
    pose proof (Q.le_min_l (a + w) (b + v)). pose proof (Q.le_min_r (a + w) (b + v)).
    pose proof (Q.le_max_l a b). pose proof (Q.le_max_r a b).
    unfold t in *. repeat split; lra.
  - left. by apply Q.max_l.
Qed.

Lemma calculateIoU_unfold (ax ay aw ah bx by_ bw bh : Q) :
  let xo := Qmax 0 (Qmin (ax + aw) (bx + bw) - Qmax ax bx) in
  let yo := Qmax 0 (Qmin (ay + ah) (by_ + bh) - Qmax ay by_) in
  let union := ((ax + aw - ax) * (ay + ah - ay) + (bx + bw - bx) * (by_ + bh - by_)
                - xo * yo)%Q in
  calculateIoU (ax, ay, aw, ah) (bx, by_, bw, bh) =
    if Qltb 0 union then (xo * yo / union)%Q else 0%Q.
Proof. reflexivity. Qed.

(** X15: [calculateIoU] answers with a value between 0 and 1, for any two
    boxes, degenerate ones included. *)
Theorem IoU_between_0_and_1 (bbox1 bbox2 : BBox) :
  (0 <= calculateIoU bbox1 bbox2 <= 1)%Q.
Proof.
  destruct bbox1 as [[[ax ay] aw] ah], bbox2 as [[[bx by_] bw] bh].
  rewrite calculateIoU_unfold. cbv zeta.
  pose proof (overlap_cases ax aw bx bw) as Hx.
  pose proof (overlap_cases ay ah by_ bh) as Hy. cbv zeta in Hx, Hy.
  set (xo := Qmax 0 (Qmin (ax + aw) (bx + bw) - Qmax ax bx)) in *.
  set (yo := Qmax 0 (Qmin (ay + ah) (by_ + bh) - Qmax ay by_)) in *.
  set (union := (_ + _ - xo * yo)%Q).
  destruct (Qltb 0 union) eqn:Hu; [|lra].
  apply Qltb_true in Hu.
  assert (Hi : (0 <= xo * yo <= union)%Q).
  { unfold union in *. destruct Hx as [Hx|Hx], Hy as [Hy|Hy]; try nra. }
  split.
  - apply Qle_shift_div_l; [done|]. lra.
  - apply Qle_shift_div_r; [done|]. lra.
Qed.

(** X16: [calculateIoU] does not depend on the order of the two boxes. *)
Theorem IoU_symmetric (bbox1 bbox2 : BBox) :
  (calculateIoU bbox1 bbox2 == calculateIoU bbox2 bbox1)%Q.
Proof.
  destruct bbox1 as [[[ax ay] aw] ah], bbox2 as [[[bx by_] bw] bh].
  rewrite !calculateIoU_unfold. cbv zeta.
  assert (Hx : (Qmax 0 (Qmin (ax + aw) (bx + bw) - Qmax ax bx)
                == Qmax 0 (Qmin (bx + bw) (ax + aw) - Qmax bx ax))%Q)
    by (by rewrite Q.min_comm, (Q.max_comm ax bx)).
  assert (Hy : (Qmax 0 (Qmin (ay + ah) (by_ + bh) - Qmax ay by_)
                == Qmax 0 (Qmin (by_ + bh) (ay + ah) - Qmax by_ ay))%Q)
    by (by rewrite Q.min_comm, (Q.max_comm ay by_)).
  set (xo := Qmax 0 (Qmin (ax + aw) (bx + bw) - Qmax ax bx)) in *.
  set (yo := Qmax 0 (Qmin (ay + ah) (by_ + bh) - Qmax ay by_)) in *.
  set (xo' := Qmax 0 (Qmin (bx + bw) (ax + aw) - Qmax bx ax)) in *.
  set (yo' := Qmax 0 (Qmin (by_ + bh) (ay + ah) - Qmax by_ ay)) in *.
  set (u := (_ + _ - xo * yo)%Q). set (u' := (_ + _ - xo' * yo')%Q).
  assert (Hu : (u == u')%Q) by (unfold u, u'; rewrite Hx, Hy; ring).
  rewrite (Qltb_ext 0 0 u u' (Qeq_refl 0) Hu).
  destruct (Qltb 0 u'); [|reflexivity].
  by rewrite Hu, Hx, Hy.
Qed.

(** X17: a box on whole coordinates, of positive width and height, has
    IoU 1 with itself. *)
Theorem IoU_of_a_box_with_itself (x y w h : Q) :
  whole x → whole y → whole w → whole h →
  (0 < w)%Q → (0 < h)%Q → (calculateIoU (x, y, w, h) (x, y, w, h) == 1)%Q.
Proof.
  intros _ _ _ _ Hw Hh. rewrite calculateIoU_unfold. cbv zeta.
  assert (Hx : (Qmax 0 (Qmin (x + w) (x + w) - Qmax x x) == w)%Q).
  { rewrite Q.min_id, Q.max_id. rewrite Q.max_r by lra. ring. }
  assert (Hy : (Qmax 0 (Qmin (y + h) (y + h) - Qmax y y) == h)%Q).
  { rewrite Q.min_id, Q.max_id. rewrite Q.max_r by lra. ring. }
  set (xo := Qmax 0 (Qmin (x + w) (x + w) - Qmax x x)) in *.
  set (yo := Qmax 0 (Qmin (y + h) (y + h) - Qmax y y)) in *.
  set (u := (_ + _ - xo * yo)%Q).
  assert (Hu : (u == w * h)%Q) by (unfold u; rewrite Hx, Hy; ring).
  assert (0 < w * h)%Q by nra.
  destruct (Qltb 0 u) eqn:E.
  - rewrite Hu, Hx, Hy. field. lra.
  - apply Qltb_false in E. lra.
Qed.

(** X18: two boxes of which one ends before the other begins, along x or
    along y, have IoU 0. *)
Theorem IoU_of_separate_boxes (ax ay aw ah bx by_ bw bh : Q) :
  (ax + aw <= bx ∨ bx + bw <= ax ∨ ay + ah <= by_ ∨ by_ + bh <= ay)%Q →
  (calculateIoU (ax, ay, aw, ah) (bx, by_, bw, bh) == 0)%Q.
Proof.
  intros Hsep. rewrite calculateIoU_unfold. cbv zeta.
  set (xo := Qmax 0 (Qmin (ax + aw) (bx + bw) - Qmax ax bx)).
  set (yo := Qmax 0 (Qmin (ay + ah) (by_ + bh) - Qmax ay by_)).
  assert (Hz : (xo == 0 ∨ yo == 0)%Q).
  { pose proof (Q.le_min_l (ax + aw) (bx + bw)). pose proof (Q.le_min_r (ax + aw) (bx + bw)).
    pose proof (Q.le_max_l ax bx). pose proof (Q.le_max_r ax bx).
    pose proof (Q.le_min_l (ay + ah) (by_ + bh)). pose proof (Q.le_min_r (ay + ah) (by_ + bh)).
    pose proof (Q.le_max_l ay by_). pose proof (Q.le_max_r ay by_).
    destruct Hsep as [?|[?|[?|?]]]; [left|left|right|right]; apply Q.max_l; lra. }
  set (u := (_ + _ - xo * yo)%Q).
  destruct (Qltb 0 u) eqn:E; [|reflexivity].
  apply Qltb_true in E.
  assert (xo * yo == 0)%Q as -> by (destruct Hz as [-> | ->]; ring).
  field. lra.
Qed.

(** *** What a frame does to the matched tracks and what it reports *)

Lemma updateTrack_ext (self self' : PersonTracker) (t : Track) (d : Detection) (now : Z) :
  historyLength self = historyLength self' →
  updateTrack self t d now = updateTrack self' t d now.
Proof. intros H. unfold updateTrack. by rewrite H. Qed.

Lemma matchedLoop_other detections now (ms : list (nat * nat)) st (k : nat) :
  k ∉ ms.*1 →
  tracks (ls_self (fold_left (matchedStep detections now) ms st)) !! k
    = tracks (ls_self st) !! k ∧
  ls_cur (fold_left (matchedStep detections now) ms st) !! k = ls_cur st !! k ∧
  disappeared (ls_self (fold_left (matchedStep detections now) ms st)) !! k
    = disappeared (ls_self st) !! k.
Proof.
  intros Hk. apply fold_left_inv; [done|].
  intros st' m Hm (H1 & H2 & H3).
  destruct (matchedStep_other detections now st' m k) as (-> & -> & ->); [|done].
  intros ->. apply Hk, list_elem_of_fmap. by exists m.
Qed.

Lemma matchedStep_refresh (s : PersonTracker) detections now st (t j : nat) tr d :
  historyLength (ls_self st) = historyLength s →
  tracks (ls_self st) !! t = Some tr → detections !! j = Some d →
  let st' := matchedStep detections now st (t, j) in
  tracks (ls_self st') !! t = Some (updateTrack s tr d now) ∧
  ls_cur st' !! t = Some (updateTrack s tr d now) ∧
  disappeared (ls_self st') !! t = Some 0%nat ∧
  st'.1.2 = st.1.2 ++ [t] ∧
  st'.2 = st.2 ++ [(t, updateTrack s tr d now)].
Proof.
  intros Hh Ht Hd. destruct st as [[[self cur] upd] cbs].
  unfold matchedStep, ls_self, ls_cur in *. simpl in *. rewrite Hd, Ht. simpl.
  rewrite !lookup_insert_eq, (updateTrack_ext self s) by done. done.
Qed.

Lemma matchedLoop_spec (s : PersonTracker) detections now (ms : list (nat * nat)) :
  ∀ st,
    NoDup ms.*1 →
    historyLength (ls_self st) = historyLength s →
    (∀ t j, (t, j) ∈ ms → tracks (ls_self st) !! t = tracks s !! t) →
    (∀ t j, (t, j) ∈ ms → is_Some (tracks s !! t) ∧ is_Some (detections !! j)) →
    let st' := fold_left (matchedStep detections now) ms st in
    (∀ t j tr d, (t, j) ∈ ms → tracks s !! t = Some tr → detections !! j = Some d →
       tracks (ls_self st') !! t = Some (updateTrack s tr d now) ∧
       ls_cur st' !! t = Some (updateTrack s tr d now) ∧
       disappeared (ls_self st') !! t = Some 0%nat) ∧
    st'.1.2 = st.1.2 ++ ms.*1 ∧
    st'.2 = st.2 ++ omap (refreshed s detections now) ms.
Proof.
  induction ms as [|[t0 j0] ms IH]; intros st Hnd Hh Hsame Hvalid.
  { simpl. split; [by intros ? ? ? ? ?%not_elem_of_nil|]. by rewrite !app_nil_r. }
  rewrite fmap_cons in Hnd. apply NoDup_cons in Hnd as [Ht0 Hnd]. simpl in Ht0.
  destruct (Hvalid t0 j0) as [[tr0 Htr0] [d0 Hd0]]; [by left|].
  assert (Hst0 : tracks (ls_self st) !! t0 = Some tr0).
  { rewrite (Hsame t0 j0) by (by left). done. }
  destruct (matchedStep_refresh s detections now st t0 j0 tr0 d0 Hh Hst0 Hd0)
    as (H1 & H2 & H3 & H4 & H5).
  destruct (matchedStep_config detections now st (t0, j0)) as [Hc _].
  set (st1 := matchedStep detections now st (t0, j0)) in *.
  destruct (IH st1) as (IHa & IHb & IHc).
  - done.
  - unfold config in Hc. congruence.
  - intros t j Hin. rewrite <- (Hsame t j) by (by right).
    apply (matchedStep_other detections now st (t0, j0) t).
    simpl. intros ->. apply Ht0, list_elem_of_fmap. by exists (t0, j).
  - intros t j Hin. apply Hvalid. by right.
  - simpl. fold st1. split; [|split].
    + intros t j tr d [Heq|Hin]%elem_of_cons Htr Hd; [|by eapply IHa].
      injection Heq as -> ->.
      assert (tr = tr0) as -> by congruence. assert (d = d0) as -> by congruence.
      destruct (matchedLoop_other detections now ms st1 t0 Ht0) as (-> & -> & ->). done.
    + rewrite IHb, H4, <- app_assoc. done.
    + rewrite IHc, H5, <- app_assoc. unfold refreshed at 2. simpl. by rewrite Hd0, Htr0.
Qed.

Lemma unmatchedLoop_lists detections now (idxs : list nat) :
  ∀ st, (∀ j, j ∈ idxs → is_Some (detections !! j)) →
    let st' := fold_left (unmatchedStep detections now) idxs st in
    st'.2 = st.2 ∧
    st'.1.2 = st.1.2 ++ seq (nextTrackId (ls_self st)) (length idxs) ∧
    tracks (ls_self st') = tracks (ls_self st).
Proof.
  induction idxs as [|j idxs IH]; intros st Hvalid; simpl.
  { by rewrite app_nil_r. }
  destruct (Hvalid j) as [d Hd]; [by left|].
  destruct (IH (unmatchedStep detections now st j)) as (IH1 & IH2 & IH3).
  { intros j' Hj'. apply Hvalid. by right. }
  rewrite IH1, IH2, IH3. clear IH IH1 IH2 IH3.
  destruct st as [[[self cur] upd] cbs]. unfold unmatchedStep, ls_self. rewrite Hd. simpl.
  by rewrite <- app_assoc.
Qed.

Lemma unmatchedLoop_disappeared detections now (idxs : list nat) st (k : nat) :
  (k < nextTrackId (ls_self st))%nat →
  disappeared (ls_self (fold_left (unmatchedStep detections now) idxs st)) !! k
  = disappeared (ls_self st) !! k.
Proof.
  intros Hk.
  cut ((nextTrackId (ls_self st)
          ≤ nextTrackId (ls_self (fold_left (unmatchedStep detections now) idxs st)))%nat ∧
       disappeared (ls_self (fold_left (unmatchedStep detections now) idxs st)) !! k
       = disappeared (ls_self st) !! k); [by intros [_ ?]|].
  apply fold_left_inv; [done|].
  intros st' j _ [Hn Hc].
  destruct (unmatchedStep_config detections now st' j) as (_ & _ & Hn').
  destruct (unmatchedStep_other detections now st' j k) as [_ ->]; [lia|].
  split; [lia | done].
Qed.

(** What [handleDisappearances] reports as disappeared. *)
Lemma handleDisappearances_gone (self : PersonTracker) (cur : gmap nat Track)
    (upd : list nat) (cbs : list (nat * Track)) (k : nat) :
  let r := handleDisappearances self cur upd cbs in
  updated r.2 = upd ∧ callbacks r.2 = cbs ∧
  (k ∈ res_disappeared r.2 ↔
     cur !! k = None ∧ is_Some (tracks self !! k) ∧
     (maxDisappearedFrames self < S (default 0%nat (disappeared self !! k)))%nat).
Proof.
  unfold handleDisappearances.
  pose proof (view_fold_same self k (Object_keys (tracks self))
                (disappeared self, cur, []) (NoDup_Object_keys _)) as Hin.
  pose proof (view_fold_other self k (Object_keys (tracks self))
                (disappeared self, cur, [])) as Hout.
  rewrite elem_of_Object_keys in Hin, Hout.
  destruct (fold_left _ _ _) as [[dis cur'] gone]. simpl.
  split; [done|]. split; [done|].
  unfold view, stepView in *. simpl in *.
  destruct (tracks self !! k) as [t|] eqn:Ht.
  - specialize (Hin ltac:(eauto)). clear Hout.
    destruct (cur !! k) as [t'|] eqn:Hc; simpl in *.
    + injection Hin as _ _ Hg. apply bool_decide_eq_false in Hg.
      split; [done | by intros [? _]].
    + destruct (maxDisappearedFrames self <? _)%nat eqn:E.
      * injection Hin as _ _ Hg. apply bool_decide_eq_true in Hg.
        apply Nat.ltb_lt in E. split; [by eauto | done].
      * injection Hin as _ _ Hg. apply bool_decide_eq_false in Hg.
        apply Nat.ltb_ge in E. split; [done|]. intros (_ & _ & ?). lia.
  - specialize (Hout ltac:(by intros [? ?])). clear Hin.
    injection Hout as _ _ Hg. apply bool_decide_eq_false in Hg.
    split; [done|]. by intros (_ & [? ?] & _).
Qed.

Lemma matchRows_empty_rows (trackIds : list nat) (rows : list (list Q)) :
  ∀ i matched md, Forall (λ row, row = []) rows →
    matchRows trackIds rows i matched md = (matched, md).
Proof.
  induction rows as [|row rows IH]; intros i matched md Hall; [done|].
  apply Forall_cons in Hall as [-> Hall]. simpl. by apply IH.
Qed.

Lemma association_no_detections (s : PersonTracker) : association s [] = ([], []).
Proof.
  unfold association, matchDetectionsToTracks.
  destruct (length (calculateIoUMatrix s []) =? 0)%nat; [done|].
  rewrite matchRows_empty_rows; [done|].
  unfold calculateIoUMatrix. apply Forall_forall. intros row Hrow.
  apply list_elem_of_In, in_map_iff in Hrow as (t & <- & _). done.
Qed.

Lemma firstLoop_lists now (ds : list Detection) :
  ∀ st, let st' := fold_left (firstStep now) ds st in
        st'.2 = st.2 ∧ st'.1.2 = st.1.2 ++ seq (nextTrackId (ls_self st)) (length ds).
Proof.
  induction ds as [|d ds IH]; intros st; simpl; [by rewrite app_nil_r|].
  destruct (IH (firstStep now st d)) as [-> ->].
  destruct st as [[[self cur] upd] cbs]. unfold firstStep, ls_self. simpl.
  by rewrite <- app_assoc.
Qed.

Lemma updateTracks_first (s : PersonTracker) (detections : list Detection) (now : Z) :
  detections ≠ [] → tracks s = ∅ →
  let st := fold_left (firstStep now) detections (s, ∅, [], []) in
  updateTracks s detections now
  = (set_tracks (ls_self st) (ls_cur st),
     {| updated := st.1.2; res_disappeared := []; callbacks := st.2 |}).
Proof.
  intros Hne He. unfold updateTracks.
  destruct detections as [|d ds]; [done|].
  change (length (d :: ds) =? 0)%nat with false. cbv iota.
  rewrite (Object_keys_empty _ He). change (length [] =? 0)%nat with true. cbv iota.
  by destruct (fold_left _ _ _) as [[[self' cur'] upd'] cbs'].
Qed.

(** The lists of the loop state after both loops of the general path. *)
Lemma afterLoops_lists (s : PersonTracker) (detections : list Detection) (now : Z) :
  let st := afterLoops s detections now in
  st.2 = omap (refreshed s detections now) (association s detections).1 ∧
  st.1.2 = (association s detections).1.*1
             ++ seq (nextTrackId s) (length (association s detections).2).
Proof.
  unfold afterLoops.
  destruct (association_spec s detections) as (_ & Hnd & Hvalid & Hun).
  destruct (matchedLoop_spec s detections now (association s detections).1 (s, ∅, [], []))
    as (_ & Hupd & Hcbs); [done..| |].
  { intros t j Hin. destruct (Hvalid t j Hin) as (tr & d & -> & -> & _). eauto. }
  set (st1 := fold_left (matchedStep detections now) (association s detections).1
                (s, ∅, [], [])) in *.
  destruct (unmatchedLoop_lists detections now (association s detections).2 st1)
    as (-> & -> & _).
  { intros j Hj. apply lookup_lt_is_Some_2. by apply Hun in Hj as [? _]. }
  rewrite Hupd, Hcbs. split; [done|]. simpl. do 2 f_equal.
  unfold st1. apply fold_left_inv; [done|]. intros st' m _ <-. apply matchedStep_config.
Qed.

Lemma updateTracks_report (s : PersonTracker) (detections : list Detection) (now : Z) :
  let r := updateTracks s detections now in
  callbacks r.2 = omap (refreshed s detections now) (association s detections).1 ∧
  updated r.2 = (association s detections).1.*1
                  ++ seq (nextTrackId s) (length (association s detections).2) ∧
  (∀ k, k ∈ res_disappeared r.2 ↔ is_Some (tracks s !! k) ∧ tracks r.1 !! k = None).
Proof.
  destruct (updateTracks_paths s detections now)
    as [[-> Hu] | [(Hne & He & _) | (_ & _ & st & Hst & Hu)]].
  - rewrite association_no_detections. simpl. rewrite Hu.
    destruct (handleDisappearances_gone s ∅ [] [] 0) as (-> & -> & _).
    split; [done|]. split; [done|]. intros k.
    destruct (handleDisappearances_gone s ∅ [] [] k) as (_ & _ & ->).
    pose proof (handleDisappearances_lookup s ∅ [] [] k) as H. simpl in H.
    rewrite lookup_empty in *.
    destruct (tracks s !! k) as [t|] eqn:Ht.
    + destruct (_ <? _)%nat eqn:E.
      * apply Nat.ltb_lt in E. destruct H as [H _]. split; [by eauto|]. intros _. eauto.
      * apply Nat.ltb_ge in E. destruct H as [H _]. split.
        -- intros (_ & _ & ?). lia.
        -- intros [_ ?]. congruence.
    + split; [by intros (_ & [? ?] & _) | by intros [[? ?] _]].
  - rewrite (updateTracks_first s detections now Hne He).
    rewrite (association_no_tracks _ _ He). simpl.
    destruct (firstLoop_lists now detections (s, ∅, [], [])) as [-> ->]. simpl.
    rewrite length_seq. split; [done|]. split; [done|].
    intros k. rewrite He, lookup_empty. split; [by intros ?%not_elem_of_nil | by intros [[? ?] _]].
  - simpl. rewrite Hu.
    destruct (handleDisappearances_gone (ls_self st) (ls_cur st) st.1.2 st.2 0) as (-> & -> & _).
    destruct (afterLoops_lists s detections now) as [Hc Hup]. rewrite <- Hst in Hc, Hup.
    split; [done|]. split; [done|]. intros k.
    destruct (handleDisappearances_gone (ls_self st) (ls_cur st) st.1.2 st.2 k) as (_ & _ & ->).
    pose proof (handleDisappearances_lookup (ls_self st) (ls_cur st) st.1.2 st.2 k) as H.
    simpl in H.
    destruct (frameInv_afterLoops s detections now) as (_ & _ & Hdom & _).
    rewrite <- Hst in Hdom. rewrite <- (Hdom k).
    destruct (ls_cur st !! k) as [t'|] eqn:Hcur.
    { destruct H as [H _]. split; [by intros [? _] | intros [_ ?]; congruence]. }
    destruct (tracks (ls_self st) !! k) as [t|] eqn:Ht.
    + destruct (_ <? _)%nat eqn:E.
      * apply Nat.ltb_lt in E. destruct H as [H _]. split; [by eauto|]. intros _. eauto.
      * apply Nat.ltb_ge in E. destruct H as [H _]. split.
        -- intros (_ & _ & ?). lia.
        -- intros [_ ?]. congruence.
    + split; [by intros (_ & [? ?] & _) | by intros [[? ?] _]].
Qed.

(** A track that the matching of the frame pairs with detection [j]. *)
Lemma updateTracks_matched (s : PersonTracker) (detections : list Detection) (now : Z)
    (t j : nat) (tr : Track) (d : Detection) :
  idsBelowNext s → (t, j) ∈ (association s detections).1 →
  tracks s !! t = Some tr → detections !! j = Some d →
  tracks (updateTracks s detections now).1 !! t = Some (updateTrack s tr d now) ∧
  disappeared (updateTracks s detections now).1 !! t = Some 0%nat.
Proof.
  intros Hs Hin Htr Hd.
  destruct (association_spec s detections) as (_ & Hnd & Hvalid & Hun).
  assert (Hst : ls_cur (afterLoops s detections now) !! t = Some (updateTrack s tr d now) ∧
                disappeared (ls_self (afterLoops s detections now)) !! t = Some 0%nat).
  { unfold afterLoops.
    destruct (matchedLoop_spec s detections now (association s detections).1 (s, ∅, [], []))
      as (Hm & _ & _); [done..| |].
    { intros t' j' Hin'. destruct (Hvalid t' j' Hin') as (tr' & d' & -> & -> & _). eauto. }
    destruct (Hm t j tr d Hin Htr Hd) as (_ & Hcur & Hdis).
    set (st1 := fold_left (matchedStep detections now) (association s detections).1
                  (s, ∅, [], [])) in *.
    assert (Hn : nextTrackId (ls_self st1) = nextTrackId s).
    { unfold st1. apply fold_left_inv; [done|]. intros st' m _ <-. apply matchedStep_config. }
    assert (Hlt : (t < nextTrackId (ls_self st1))%nat).
    { rewrite Hn. apply Hs. by rewrite Htr. }
    destruct (unmatchedLoop_keeps detections now (association s detections).2 st1 t Hlt)
      as [_ ->].
    rewrite (unmatchedLoop_disappeared detections now _ st1 t Hlt). done. }
  destruct (updateTracks_paths s detections now)
    as [[-> _] | [(_ & He & _) | (_ & _ & st & -> & Hu)]].
  - rewrite association_no_detections in Hin. by apply not_elem_of_nil in Hin.
  - rewrite He, lookup_empty in Htr. done.
  - rewrite Hu. destruct Hst as [Hcur Hdis].
    set (st := afterLoops s detections now) in *.
    pose proof (handleDisappearances_lookup (ls_self st) (ls_cur st) st.1.2 st.2 t) as H.
    simpl in H. rewrite Hcur in H. destruct H as [-> ->]. done.
Qed.

(** X19: a track that is paired with a detection in a frame is, after the
    frame, the result of [updateTrack] on the old track and that
    detection; its counter of missed frames is 0, and [onTrackUpdated] was
    called with that very track. *)
Theorem matched_track_is_refreshed (s : PersonTracker) (detections : list Detection)
    (now : Z) (t j : nat) :
  idsBelowNext s → (t, j) ∈ (association s detections).1 →
  let r := updateTracks s detections now in
  ∃ tr d, tracks s !! t = Some tr ∧ detections !! j = Some d ∧
          tracks r.1 !! t = Some (updateTrack s tr d now) ∧
          disappeared r.1 !! t = Some 0%nat ∧
          (t, updateTrack s tr d now) ∈ callbacks r.2.
Proof.
  intros Hs Hin r.
  destruct (association_spec s detections) as (_ & Hnd & Hvalid & Hun).
  destruct (Hvalid t j Hin) as (tr & d & Htr & Hd & _).
  exists tr, d. split; [done|]. split; [done|].
  destruct (updateTracks_matched s detections now t j tr d Hs Hin Htr Hd) as [Ht' Hd'].
  split; [exact Ht'|]. split; [exact Hd'|].
  destruct (updateTracks_report s detections now) as [Hc _]. fold r in Hc. rewrite Hc.
  apply list_elem_of_omap. exists (t, j). split; [done|].
  unfold refreshed. simpl. by rewrite Hd, Htr.
Qed.

(** X20: what a frame reports. [onTrackUpdated] is called for the pairs of
    the matching, in their order, and for nothing else (not for a track
    that was just created); [updated] lists the paired tracks and then the
    new ids, [nextTrackId] onwards; [disappeared] lists exactly the tracks
    that were alive before the frame and are gone after it. *)
Theorem frame_report (s : PersonTracker) (detections : list Detection) (now : Z) :
  let r := updateTracks s detections now in
  callbacks r.2 = omap (refreshed s detections now) (association s detections).1 ∧
  updated r.2 = (association s detections).1.*1
                  ++ seq (nextTrackId s) (length (association s detections).2) ∧
  (∀ k, k ∈ res_disappeared r.2 ↔ is_Some (tracks s !! k) ∧ tracks r.1 !! k = None).
Proof. exact (updateTracks_report s detections now). Qed.

(** *** The life of a track over the frames *)

Lemma pairedWith_Some (t j : nat) (matched : list (nat * nat)) :
  pairedWith t matched = Some j → (t, j) ∈ matched.
Proof.
  unfold pairedWith. destruct (head _) as [[t' j']|] eqn:E; [|done].
  simpl. intros [= ->]. apply head_Some in E as [l' E].
  assert (H : (t', j) ∈ filter (λ m : nat * nat, m.1 = t) matched) by (rewrite E; left).
  apply list_elem_of_filter in H as [Ht H]. simpl in Ht. by subst.
Qed.

Lemma pairedWith_None (t : nat) (matched : list (nat * nat)) :
  pairedWith t matched = None → t ∉ matched.*1.
Proof.
  unfold pairedWith. destruct (head _) as [m|] eqn:E; [done|]. intros _.
  apply head_None in E. intros (m & -> & Hm)%list_elem_of_fmap.
  assert (H : m ∈ filter (λ m' : nat * nat, m'.1 = m.1) matched)
    by (by apply list_elem_of_filter).
  rewrite E in H. by apply not_elem_of_nil in H.
Qed.

Lemma pairedWith_first (t j : nat) (matched : list (nat * nat)) :
  NoDup matched.*1 → (t, j) ∈ matched → pairedWith t matched = Some j.
Proof.
  intros Hnd Hin. destruct (pairedWith t matched) as [j'|] eqn:E.
  - apply pairedWith_Some in E. f_equal.
    apply list_elem_of_lookup in E as [i Hi]. apply list_elem_of_lookup in Hin as [i' Hi'].
    assert (i = i') as ->; [|congruence].
    eapply NoDup_lookup; [exact Hnd| |]; rewrite list_lookup_fmap.
    + by rewrite Hi.
    + by rewrite Hi'.
  - apply pairedWith_None in E. exfalso. apply E, list_elem_of_fmap. by exists (t, j).
Qed.

Lemma run_lifeOf (frames : list (list Detection * Z)) :
  ∀ s t tr, idsBelowNext s → tracks s !! t = Some tr →
    tracks (run s frames) !! t = fst <$> lifeOf s t tr (counter s t) frames ∧
    (∀ tr' c, lifeOf s t tr (counter s t) frames = Some (tr', c) →
              counter (run s frames) t = c).
Proof.
  induction frames as [|[ds now] frames IH]; intros s t tr Hs Htr.
  { simpl. split; [done|]. by intros tr' c [= _ <-]. }
  change (run s ((ds, now) :: frames)) with (run (updateTracks s ds now).1 frames).
  pose proof (idsBelowNext_updateTracks s ds now Hs) as Hs'.
  cbn [lifeOf fst snd].
  destruct (pairedWith t (association s ds).1) as [j|] eqn:Hp.
  - apply pairedWith_Some in Hp.
    destruct (association_spec s ds) as (_ & _ & Hvalid & _).
    destruct (Hvalid t j Hp) as (tr0 & d & Htr0 & Hd & _).
    rewrite Hd. rewrite Htr in Htr0. injection Htr0 as <-.
    destruct (updateTracks_matched s ds now t j tr d Hs Hp Htr Hd) as [Ht' Hd'].
    destruct (IH (updateTracks s ds now).1 t (updateTrack s tr d now) Hs' Ht') as [IH1 IH2].
    assert (Hcnt : counter (updateTracks s ds now).1 t = 0%nat)
      by (unfold counter; by rewrite Hd').
    rewrite Hcnt in IH1, IH2. done.
  - apply pairedWith_None in Hp.
    pose proof (updateTracks_unmatched s ds now t tr Hs Htr Hp) as H.
    destruct (maxDisappearedFrames s <? S (counter s t))%nat eqn:E.
    + destruct H as [Ht' _]. split; [|done]. simpl.
      destruct (updateTracks_config s ds now) as [_ Hn].
      apply run_absent; [done..|].
      assert (t < nextTrackId s)%nat by (apply Hs; by rewrite Htr). lia.
    + destruct H as [Ht' Hd'].
      destruct (IH (updateTracks s ds now).1 t tr Hs' Ht') as [IH1 IH2].
      assert (Hcnt : counter (updateTracks s ds now).1 t = S (counter s t))
        by (unfold counter at 1; by rewrite Hd').
      rewrite Hcnt in IH1, IH2. done.
Qed.

(** C5: the life of a track, frame by frame and over every sequence of
    frames. A frame that does not pair the track advances its counter by
    one: while the advanced counter is at most [maxDisappearedFrames] the
    track stays in [this.tracks] as the same object, so with its last box;
    once the advanced counter exceeds the limit the track is removed, and
    no later sequence of frames brings its id back. A frame that pairs the
    track with a detection refreshes it with that detection and puts the
    counter back to 0, so the counter counts the frames missed in a row.
    Over any sequence of frames the track and its counter are what
    [lifeOf] tells from the matchings. Every track that appears in a frame
    gets an id from [nextTrackId] on, and [nextTrackId] ends above it, so
    ids are handed out in increasing order and never twice. Without an
    option the limit is 15. *)
Theorem C5_track_lifecycle (s : PersonTracker) (t : nat) (tr : Track) :
  idsBelowNext s → tracks s !! t = Some tr →
  (∀ detections now,
     t ∉ (association s detections).1.*1 →
     ((S (counter s t) ≤ maxDisappearedFrames s)%nat →
        tracks (updateTracks s detections now).1 !! t = Some tr ∧
        disappeared (updateTracks s detections now).1 !! t = Some (S (counter s t))) ∧
     ((maxDisappearedFrames s < S (counter s t))%nat →
        tracks (updateTracks s detections now).1 !! t = None ∧
        ∀ frames, tracks (run (updateTracks s detections now).1 frames) !! t = None)) ∧
  (∀ detections now j,
     (t, j) ∈ (association s detections).1 →
     ∃ d, detections !! j = Some d ∧
          tracks (updateTracks s detections now).1 !! t = Some (updateTrack s tr d now) ∧
          disappeared (updateTracks s detections now).1 !! t = Some 0%nat) ∧
  (∀ frames,
     tracks (run s frames) !! t = fst <$> lifeOf s t tr (counter s t) frames ∧
     ∀ tr' c, lifeOf s t tr (counter s t) frames = Some (tr', c) →
              counter (run s frames) t = c) ∧
  (∀ detections now k,
     is_Some (tracks (updateTracks s detections now).1 !! k) →
     is_Some (tracks s !! k) ∨
     (nextTrackId s ≤ k < nextTrackId (updateTracks s detections now).1)%nat) ∧
  (∀ detections now, idsBelowNext (updateTracks s detections now).1) ∧
  maxDisappearedFrames (constructor (mkOptions None None None)) = 15%nat.
Proof.
  intros Hs Ht. split; [|split; [|split; [|split; [|split; [|done]]]]].
  - intros detections now Hun.
    pose proof (updateTracks_unmatched s detections now t tr Hs Ht Hun) as H.
    pose proof (idsBelowNext_updateTracks s detections now Hs) as Hs'.
    destruct (updateTracks_config s detections now) as [_ Hn].
    destruct (maxDisappearedFrames s <? S (counter s t))%nat eqn:E.
    + apply Nat.ltb_lt in E. split; [lia|].
      intros _. split; [apply H|]. intros frames.
      apply run_absent; [done | apply H |].
      assert (t < nextTrackId s)%nat by (apply Hs; by rewrite Ht). lia.
    + apply Nat.ltb_ge in E. split; [done | lia].
  - intros detections now j Hin.
    destruct (association_spec s detections) as (_ & _ & Hvalid & _).
    destruct (Hvalid t j Hin) as (tr0 & d & Htr0 & Hd & _).
    rewrite Ht in Htr0. injection Htr0 as <-.
    exists d. split; [done|].
    exact (updateTracks_matched s detections now t j tr d Hs Hin Ht Hd).
  - intros frames. exact (run_lifeOf frames s t tr Hs Ht).
  - intros detections now k. apply updateTracks_dom.
  - intros detections now. by apply idsBelowNext_updateTracks.
Qed.

Lemma C5_track_lifecycle_witness :
  (tracks (updateTracks TrackerScenario.twoTracks [TrackerScenario.person 1] 5).1 !! 2%nat
     = Some (initializeTrack 2 (TrackerScenario.person 100) 0) ∧
   disappeared (updateTracks TrackerScenario.twoTracks [TrackerScenario.person 1] 5).1
     !! 2%nat = Some 1%nat) ∧
  disappeared (updateTracks TrackerScenario.twoTracks [TrackerScenario.person 1] 5).1
    !! 1%nat = Some 0%nat ∧
  tracks (run TrackerScenario.twoTracks (replicate 15 ([], 10%Z))) !! 2%nat
    = Some (initializeTrack 2 (TrackerScenario.person 100) 0) ∧
  tracks (run TrackerScenario.twoTracks (replicate 16 ([], 10%Z))) !! 2%nat = None ∧
  tracks (run TrackerScenario.twoTracks
            (replicate 15 ([], 10%Z) ++ [([TrackerScenario.person 100], 11%Z)]
             ++ replicate 15 ([], 12%Z))) !! 2%nat
    = Some (updateTrack TrackerScenario.twoTracks
              (initializeTrack 2 (TrackerScenario.person 100) 0)
              (TrackerScenario.person 100) 11).
Proof.
  assert (H2 : tracks TrackerScenario.twoTracks !! 2%nat
               = Some (initializeTrack 2 (TrackerScenario.person 100) 0))
    by (vm_compute; reflexivity).
  assert (H1 : tracks TrackerScenario.twoTracks !! 1%nat
               = Some (initializeTrack 1 (TrackerScenario.person 0) 0))
    by (vm_compute; reflexivity).
  destruct (C5_track_lifecycle TrackerScenario.twoTracks 2
              (initializeTrack 2 (TrackerScenario.person 100) 0)
              idsBelowNext_twoTracks H2) as (Hmiss & _ & Hlife & _).
  destruct (C5_track_lifecycle TrackerScenario.twoTracks 1
              (initializeTrack 1 (TrackerScenario.person 0) 0)
              idsBelowNext_twoTracks H1) as (_ & Hhit & _).
  split; [|split; [|split; [|split]]].
  - destruct (Hmiss [TrackerScenario.person 1] 5%Z) as [Hkeep _].
    + assert ((association TrackerScenario.twoTracks [TrackerScenario.person 1]).1.*1
              = [1%nat]) as -> by (vm_compute; reflexivity).
      intros H%list_elem_of_singleton. discriminate.
    + apply Hkeep. vm_compute. lia.
  - destruct (Hhit [TrackerScenario.person 1] 5%Z 0%nat) as (d & _ & _ & Hd).
    + assert ((association TrackerScenario.twoTracks [TrackerScenario.person 1]).1
              = [(1%nat, 0%nat)]) as -> by (vm_compute; reflexivity).
      left.
    + exact Hd.
  - destruct (Hlife (replicate 15 ([], 10%Z))) as [-> _]. vm_compute. reflexivity.
  - destruct (Hlife (replicate 16 ([], 10%Z))) as [-> _]. vm_compute. reflexivity.
  - destruct (Hlife (replicate 15 ([], 10%Z) ++ [([TrackerScenario.person 100], 11%Z)]
                       ++ replicate 15 ([], 12%Z))) as [-> _].
    vm_compute. reflexivity.
Defined.

(** *** Frames without detections *)

Lemma empty_frame_ages (s : PersonTracker) (now : Z) (k : nat) :
  is_Some (tracks (updateTracks s [] now).1 !! k) →
  is_Some (tracks s !! k) ∧
  counter (updateTracks s [] now).1 k = S (counter s k) ∧
  (counter (updateTracks s [] now).1 k ≤ maxDisappearedFrames s)%nat.
Proof.
  pose proof (empty_frame_lookup s now k) as H. simpl in H.
  destruct (tracks s !! k) as [t|] eqn:Ht.
  - destruct (_ <? _)%nat eqn:E; destruct H as [H1 H2].
    + rewrite H1. by intros [? ?].
    + apply Nat.ltb_ge in E. intros _. split; [by eauto|].
      unfold counter at 1 3. rewrite H2. simpl. split; [done | lia].
  - destruct H as [H1 _]. rewrite H1. by intros [? ?].
Qed.

Lemma empty_frames_age (frames : list (list Detection * Z)) :
  ∀ s n,
    Forall (λ f, f.1 = []) frames →
    (∀ k, is_Some (tracks s !! k) → (n ≤ counter s k)%nat) →
    (frames ≠ [] ∨ ∀ k, is_Some (tracks s !! k) → (counter s k ≤ maxDisappearedFrames s)%nat) →
    ∀ k, is_Some (tracks (run s frames) !! k) →
         (n + length frames ≤ counter (run s frames) k ≤ maxDisappearedFrames s)%nat.
Proof.
  induction frames as [|[ds now] frames IH]; intros s n Hall Hn Hmax k Hk.
  { simpl in *. destruct Hmax as [?|Hmax]; [done|]. specialize (Hn k Hk).
    specialize (Hmax k Hk). lia. }
  apply Forall_cons in Hall as [Hds Hall]. simpl in Hds. subst ds.
  change (run s (([], now) :: frames)) with (run (updateTracks s [] now).1 frames) in *.
  destruct (updateTracks_config s [] now) as [Hc _].
  assert (Hm : maxDisappearedFrames (updateTracks s [] now).1 = maxDisappearedFrames s)
    by (unfold config in Hc; congruence).
  destruct (IH (updateTracks s [] now).1 (S n) Hall) with (k := k) as [H1 H2].
  - intros k' Hk'. destruct (empty_frame_ages s now k' Hk') as (Hs & -> & _).
    specialize (Hn k' Hs). lia.
  - right. intros k' Hk'. destruct (empty_frame_ages s now k' Hk') as (_ & _ & ?). lia.
  - done.
  - simpl. lia.
Qed.

(** X21: after more than [maxDisappearedFrames] frames without any
    detection in a row, the tracker holds no track. *)
Theorem unseen_tracks_expire (s : PersonTracker) (frames : list (list Detection * Z)) :
  Forall (λ f, f.1 = []) frames → (maxDisappearedFrames s < length frames)%nat →
  tracks (run s frames) = ∅.
Proof.
  intros Hall Hlen. apply map_empty. intros k. apply eq_None_not_Some. intros Hk.
  destruct (empty_frames_age frames s 0 Hall) with (k := k) as [H1 H2].
  - intros; lia.
  - left. intros ->. simpl in Hlen. lia.
  - done.
  - simpl in H1. lia.
Qed.

(** *** What every stored track and counter looks like *)

Lemma mirrored_initializeTrack (k : nat) (d : Detection) (now : Z) :
  mirrored (initializeTrack k d now).
Proof. unfold mirrored, initializeTrack. simpl. eauto. Qed.

Lemma mirrored_updateTrack (self : PersonTracker) (t : Track) (d : Detection) (now : Z) :
  mirrored t → mirrored (updateTrack self t d now).
Proof.
  intros (e0 & Hl & _). unfold mirrored, updateTrack. simpl.
  exists (mkHistoryEntry now (det_bbox d) (centroid_of (det_bbox d)) (det_score d)).
  split; [|done].
  destruct (history t) as [|a h]; [done|].
  destruct (_ <? _)%nat; simpl.
  - apply last_snoc.
  - rewrite app_comm_cons. apply last_snoc.
Qed.

Lemma matchedStep_keyed (Q : nat → Track → Prop) detections now st m :
  (∀ self k t d, Q k t → Q k (updateTrack self t d now)) →
  (∀ k t, tracks (ls_self st) !! k = Some t → Q k t) →
  (∀ k t, ls_cur st !! k = Some t → Q k t) →
  (∀ k t, tracks (ls_self (matchedStep detections now st m)) !! k = Some t → Q k t) ∧
  (∀ k t, ls_cur (matchedStep detections now st m) !! k = Some t → Q k t).
Proof.
  intros Hup Ht Hc. open_matched st m; try done.
  unfold ls_self, ls_cur in *. simpl in *.
  assert (Q trackId (updateTrack self track detection now)) by (apply Hup; eauto).
  split; intros k t; (destruct (decide (k = trackId)) as [->|Hne];
    [rewrite lookup_insert_eq; by intros [= <-] | rewrite lookup_insert_ne by done; eauto]).
Qed.

Lemma unmatchedStep_keyed (Q : nat → Track → Prop) detections now st j :
  (∀ k d, Q k (initializeTrack k d now)) →
  (∀ k t, ls_cur st !! k = Some t → Q k t) →
  (∀ k t, ls_cur (unmatchedStep detections now st j) !! k = Some t → Q k t).
Proof.
  intros Hinit Hc. open_unmatched st detections j; [|done].
  intros k t. destruct (decide (k = nextTrackId self)) as [->|Hne].
  - rewrite lookup_insert_eq. by intros [= <-].
  - rewrite lookup_insert_ne by done. apply Hc.
Qed.

Lemma afterLoops_keyed (Q : nat → Track → Prop) (s : PersonTracker)
    (detections : list Detection) (now : Z) :
  (∀ self k t d, Q k t → Q k (updateTrack self t d now)) →
  (∀ k d, Q k (initializeTrack k d now)) →
  (∀ k t, tracks s !! k = Some t → Q k t) →
  (∀ k t, tracks (ls_self (afterLoops s detections now)) !! k = Some t → Q k t) ∧
  (∀ k t, ls_cur (afterLoops s detections now) !! k = Some t → Q k t).
Proof.
  intros Hup Hinit Hs. unfold afterLoops. apply fold_left_inv.
  - apply fold_left_inv.
    + unfold ls_self, ls_cur. simpl. split; [done|].
      intros ? ? H. by rewrite lookup_empty in H.
    + intros st' m _ (Ht & Hc). by apply matchedStep_keyed.
  - intros st' j _ (Ht & Hc).
    destruct (unmatchedStep_config detections now st' j) as (_ & -> & _).
    split; [done|]. by apply unmatchedStep_keyed.
Qed.

Lemma updateTracks_keyed (Q : nat → Track → Prop) (s : PersonTracker)
    (detections : list Detection) (now : Z) :
  (∀ self k t d, Q k t → Q k (updateTrack self t d now)) →
  (∀ k d, Q k (initializeTrack k d now)) →
  (∀ k t, tracks s !! k = Some t → Q k t) →
  ∀ k t, tracks (updateTracks s detections now).1 !! k = Some t → Q k t.
Proof.
  intros Hup Hinit Hs k t.
  destruct (updateTracks_paths s detections now)
    as [[_ ->] | [(_ & _ & st & -> & ->) | (_ & _ & st & Hst & ->)]].
  - pose proof (handleDisappearances_lookup s ∅ [] [] k) as H. simpl in H.
    rewrite lookup_empty in H. intros Hk.
    destruct (tracks s !! k) as [t'|] eqn:Ht'; [|destruct H; congruence].
    destruct (_ <? _)%nat; destruct H as [H _]; [congruence|].
    rewrite H in Hk. injection Hk as <-. eauto.
  - destruct (firstLoop_inv s detections now) as (_ & _ & _ & Hcur).
    simpl. intros Hk. destruct (Hcur k t Hk) as (_ & d & _ & ->). apply Hinit.
  - destruct (afterLoops_keyed Q s detections now Hup Hinit Hs) as [Ht Hc].
    rewrite <- Hst in Ht, Hc.
    pose proof (handleDisappearances_lookup (ls_self st) (ls_cur st) st.1.2 st.2 k) as H.
    simpl in H. intros Hk.
    destruct (ls_cur st !! k) as [t'|] eqn:Hc'.
    { destruct H as [H _]. rewrite H in Hk. injection Hk as <-. eauto. }
    destruct (tracks (ls_self st) !! k) as [t'|] eqn:Ht'; [|destruct H; congruence].
    destruct (_ <? _)%nat; destruct H as [H _]; [congruence|].
    rewrite H in Hk. injection Hk as <-. eauto.
Qed.

(** The loops write a counter only together with an entry of [currentTracks]. *)
Lemma afterLoops_counters (s : PersonTracker) (detections : list Detection) (now : Z) (k : nat) :
  let st := afterLoops s detections now in
  match ls_cur st !! k with
  | Some _ => disappeared (ls_self st) !! k = Some 0%nat
  | None => disappeared (ls_self st) !! k = disappeared s !! k
  end.
Proof.
  unfold afterLoops. apply fold_left_inv.
  - apply fold_left_inv.
    + unfold ls_self, ls_cur. simpl. by rewrite lookup_empty.
    + intros st' m _ H. open_matched st' m; try done.
      unfold ls_self, ls_cur in *. simpl in *.
      destruct (decide (k = trackId)) as [->|Hne].
      * by rewrite !lookup_insert_eq.
      * by rewrite !lookup_insert_ne.
  - intros st' j _ H. open_unmatched st' detections j; [|done].
    unfold ls_self, ls_cur in *. simpl in *.
    destruct (decide (k = nextTrackId self)) as [->|Hne].
    + by rewrite !lookup_insert_eq.
    + by rewrite !lookup_insert_ne.
Qed.

Lemma tidy_updateTracks (s : PersonTracker) (detections : list Detection) (now : Z) :
  tidy s → tidy (updateTracks s detections now).1.
Proof.
  intros [Ht Hd]. split.
  - apply (updateTracks_keyed (λ k t, id t = k ∧ mirrored t)); [| |done].
    + intros self k t d [<- Hm]. split; [done | by apply mirrored_updateTrack].
    + intros k d. split; [done | apply mirrored_initializeTrack].
  - intros k n.
    destruct (updateTracks_config s detections now) as [Hc _].
    assert (Hmax : maxDisappearedFrames (updateTracks s detections now).1
                   = maxDisappearedFrames s) by (unfold config in Hc; congruence).
    rewrite Hmax. clear Hc Hmax.
    destruct (updateTracks_paths s detections now)
      as [[_ ->] | [(_ & He & st & -> & ->) | (_ & _ & st & Hst & ->)]].
    + pose proof (handleDisappearances_lookup s ∅ [] [] k) as H. simpl in H.
      rewrite lookup_empty in H.
      destruct (tracks s !! k) as [t'|] eqn:Ht'.
      * destruct (_ <? _)%nat eqn:E; destruct H as [-> ->]; [done|].
        apply Nat.ltb_ge in E. intros [= <-]. split; [by eauto | done].
      * destruct H as [-> ->]. intros Hk. destruct (Hd k n Hk) as [[? ?] _]. congruence.
    + destruct (firstLoop_inv s detections now) as (_ & _ & Hdis & _).
      simpl. rewrite Hdis. intros Hk. destruct (Hd k n Hk) as [[? Hx] _].
      rewrite He, lookup_empty in Hx. done.
    + pose proof (handleDisappearances_lookup (ls_self st) (ls_cur st) st.1.2 st.2 k) as H.
      simpl in H.
      pose proof (afterLoops_counters s detections now k) as Hcnt. simpl in Hcnt.
      rewrite <- Hst in Hcnt.
      destruct (frameInv_afterLoops s detections now) as (Hc & _ & Hdom & _).
      rewrite <- Hst in Hc, Hdom.
      assert (Hmax : maxDisappearedFrames (ls_self st) = maxDisappearedFrames s)
        by (unfold config in Hc; congruence).
      rewrite Hmax in H.
      destruct (ls_cur st !! k) as [t'|] eqn:Hcur.
      { destruct H as [-> ->]. rewrite Hcnt. intros [= <-]. split; [by eauto | lia]. }
      destruct (tracks (ls_self st) !! k) as [t'|] eqn:Ht'.
      * destruct (_ <? _)%nat eqn:E; destruct H as [-> ->]; [done|].
        apply Nat.ltb_ge in E. intros [= <-]. split; [by eauto | done].
      * destruct H as [-> ->]. rewrite Hcnt. intros Hk.
        destruct (Hd k n Hk) as [Hs _]. apply Hdom in Hs. rewrite Ht' in Hs.
        by destruct Hs.
Qed.

Lemma tidy_run (frames : list (list Detection * Z)) : ∀ s, tidy s → tidy (run s frames).
Proof.
  induction frames as [|f frames IH]; intros s Hs; [done|].
  apply IH. by apply tidy_updateTracks.
Qed.

(** X22: along every sequence of frames from a new tracker, a track is
    stored under its own id, its last history entry repeats its box and
    the centre of its box, and [this.disappeared] holds a counter only for
    a live track, never above [maxDisappearedFrames]. *)
Theorem stored_tracks_and_counters_are_tidy (options : Options)
    (frames : list (list Detection * Z)) :
  let s := run (constructor options) frames in
  (∀ k t, tracks s !! k = Some t →
     id t = k ∧
     ∃ e, last (history t) = Some e ∧ h_bbox e = bbox t ∧
          centroid e = centroid_of (bbox t)) ∧
  (∀ k n, disappeared s !! k = Some n →
     is_Some (tracks s !! k) ∧ (n ≤ maxDisappearedFrames s)%nat).
Proof.
  apply (tidy_run frames (constructor options)). split.
  - intros k t H. simpl in H. by rewrite lookup_empty in H.
  - intros k n H. simpl in H. by rewrite lookup_empty in H.
Qed.

(** *** The matching is greedy, row by row *)

Lemma scanRow_best (md : gset nat) (row : list Q) :
  ∀ (j0 : nat) (maxIoU : Q) (maxIdx : option nat) (m : Q) (idx : option nat),
    (∀ j, maxIdx = Some j → (j < j0)%nat) →
    scanRow md row j0 maxIoU maxIdx = (m, idx) →
    (maxIoU <= m)%Q ∧
    (idx = maxIdx ∨ ∃ j, idx = Some j ∧ (j0 ≤ j)%nat) ∧
    (idx = None → m = maxIoU) ∧
    (∀ j, idx = Some j → (j0 ≤ j)%nat → (maxIoU < m)%Q) ∧
    (∀ n v', row !! n = Some v' → (j0 + n)%nat ∉ md →
             (v' <= m)%Q ∧ ∀ j, idx = Some j → (j0 + n < j)%nat → (v' < m)%Q).
Proof.
  induction row as [|x row IH]; intros j0 maxIoU maxIdx m idx Hpre; simpl.
  { intros [= -> ->]. split; [apply Qle_refl|]. split; [by left|]. split; [done|].
    split; [|done]. intros j Hj Hle. specialize (Hpre j Hj). lia. }
  destruct (negb (bool_decide (j0 ∈ md)) && Qltb maxIoU x) eqn:E; intros H.
  - apply andb_true_iff in E as [_ Hlt]. apply Qltb_true in Hlt.
    assert (Hpre' : ∀ j, Some j0 = Some j → (j < S j0)%nat) by (intros j [= <-]; lia).
    destruct (IH _ _ _ _ _ Hpre' H) as (Hle & Horig & Hnone & Hstrict & Hrest).
    split; [by apply Qlt_le_weak, (Qlt_le_trans _ x)|].
    split; [right; destruct Horig as [->|(j & -> & ?)]; eexists; (split; [done|lia])|].
    split; [intros ->; destruct Horig as [?|(j & ? & _)]; done|].
    split; [intros j _ _; by apply (Qlt_le_trans _ x)|].
    intros [|n] v' Hv Hfree; simpl in Hv.
    + injection Hv as <-. split; [done|].
      intros j Hj Hgt. apply (Hstrict j Hj). lia.
    + replace (j0 + S n)%nat with (S j0 + n)%nat in * by lia. by apply Hrest.
  - assert (Hpre' : ∀ j, maxIdx = Some j → (j < S j0)%nat)
      by (intros j Hj; specialize (Hpre j Hj); lia).
    destruct (IH _ _ _ _ _ Hpre' H) as (Hle & Horig & Hnone & Hstrict & Hrest).
    split; [done|].
    split; [destruct Horig as [->|(j & -> & ?)]; [by left | right; eexists; split; [done|lia]]|].
    split; [done|].
    assert (Hs : ∀ j, idx = Some j → (j0 ≤ j)%nat → (maxIoU < m)%Q).
    { intros j Hj Hge. apply (Hstrict j Hj).
      destruct Horig as [->|(j' & Hj' & ?)]; [specialize (Hpre j Hj); lia|].
      rewrite Hj in Hj'. injection Hj' as <-. done. }
    split; [exact Hs|].
    intros [|n] v' Hv Hfree; simpl in Hv.
    + injection Hv as <-. rewrite Nat.add_0_r in Hfree.
      apply andb_false_iff in E as [E|E].
      { apply negb_false_iff, bool_decide_eq_true in E. done. }
      apply Qltb_false in E. split; [by apply (Qle_trans _ maxIoU)|].
      intros j Hj Hgt. apply (Qle_lt_trans _ maxIoU); [done|]. apply (Hs j Hj). lia.
    + replace (j0 + S n)%nat with (S j0 + n)%nat in * by lia. by apply Hrest.
Qed.

Lemma matchInv_rows (trackIds : list nat) (matrix matrix' : list (list Q)) (i : nat)
    (matched : list (nat * nat)) (md : gset nat) :
  (∀ i', (i' < i)%nat → matrix !! i' = matrix' !! i') →
  matchInv trackIds matrix i matched md → matchInv trackIds matrix' i matched md.
Proof.
  intros Hsame (H1 & H2 & H3 & H4). split; [done|]. split; [done|]. split; [done|].
  intros t j Hin. destruct (H4 t j Hin) as (i' & row & v & Hlt & Hid & Hrow & Hv).
  exists i', row, v. split; [done|]. split; [done|]. by rewrite <- Hsame.
Qed.

Section greedy.

Variable trackIds : list nat.
Variable matrix : list (list Q).
Hypothesis trackIds_NoDup : NoDup trackIds.

Lemma taken_mono matched more i' j' :
  taken trackIds matched i' j' → taken trackIds (matched ++ more) i' j'.
Proof.
  intros (t & i & Hin & ? & ?). exists t, i. split; [|done].
  apply elem_of_app. by left.
Qed.

Lemma matchRows_step (row : list Q) (rest : list (list Q)) i matched md :
  matchRows trackIds (row :: rest) i matched md
  = matchRows trackIds rest (S i) (matchRows trackIds [row] i matched md).1
              (matchRows trackIds [row] i matched md).2.
Proof.
  simpl. destruct (scanRow md row 0 (-1)%Q None) as [maxIoU maxIdx].
  by destruct (Qle_bool minIoU maxIoU); [destruct maxIdx|].
Qed.

Lemma matchRow_greedy (row : list Q) i t matched md :
  trackIds !! i = Some t → matrix !! i = Some row →
  matchInv trackIds matrix i matched md →
  greedyInv trackIds matrix i matched →
  greedyInv trackIds matrix (S i) (matchRows trackIds [row] i matched md).1.
Proof.
  intros Hid Hrow (Hset & Hnd2 & Hnd1 & Hall) [Ha Hb].
  assert (Hbefore : ∀ j', j' ∈ md → taken trackIds matched i j').
  { intros j' Hj'. apply Hset, list_elem_of_fmap in Hj' as [[t' j''] [Heq Hin]].
    simpl in Heq. subst j''.
    destruct (Hall t' j' Hin) as (i' & _ & _ & Hi' & Hid' & _). by exists t', i'. }
  assert (Hfresh : t ∉ matched.*1).
  { intros Ht. apply list_elem_of_fmap in Ht as [[t0 j0] [Heq Hin]]. simpl in Heq. subst t0.
    destruct (Hall t j0 Hin) as (i' & _ & _ & Hi' & Hid' & _).
    pose proof (NoDup_lookup trackIds i' i t trackIds_NoDup Hid' Hid). lia. }
  simpl. rewrite Hid. simpl.
  destruct (scanRow md row 0 (-1)%Q None) as [maxIoU maxIdx] eqn:Hscan.
  pose proof (scanRow_best md row 0 (-1)%Q None maxIoU maxIdx ltac:(done) Hscan)
    as (_ & _ & Hnone & _ & Hbest).
  pose proof (scanRow_found md row 0 (-1)%Q None maxIoU) as Hfound.
  assert (Hkeep : greedyInv trackIds matrix i matched →
                  (∀ j' v', row !! j' = Some v' → (minIoU <= v')%Q → j' ∈ md) →
                  greedyInv trackIds matrix (S i) matched).
  { intros _ Hfull. split; [exact Ha|].
    intros i' t' row' Hlt Hid' Hun Hrow' j' v' Hv' Hmin.
    destruct (decide (i' = i)) as [->|Hne].
    - assert (row' = row) as -> by congruence.
      apply Hbefore. exact (Hfull j' v' Hv' Hmin).
    - apply (Hb i' t' row' ltac:(lia) Hid' Hun Hrow' j' v' Hv' Hmin). }
  destruct (Qle_bool minIoU maxIoU) eqn:Hmin; [destruct maxIdx as [j|]|]; simpl.
  - (* a pair is made *)
    apply Qle_bool_iff in Hmin.
    destruct (Hfound j Hscan) as [[[=] _] | (_ & Hj & Hjfree)].
    rewrite Nat.sub_0_r in Hj.
    split.
    + intros t0 j0 i' row' v [Hin | Hin%list_elem_of_singleton]%elem_of_app
        Hid' Hrow' Hv j' v' Hv' Hbetter.
      * apply taken_mono. exact (Ha t0 j0 i' row' v Hin Hid' Hrow' Hv j' v' Hv' Hbetter).
      * injection Hin as -> ->.
        pose proof (NoDup_lookup trackIds i' i t trackIds_NoDup Hid' Hid) as ->.
        assert (row' = row) as -> by congruence.
        assert (v = maxIoU) as -> by congruence.
        apply taken_mono, Hbefore.
        destruct (decide (j' ∈ md)) as [?|Hfree]; [done|]. exfalso.
        destruct (Hbest j' v' Hv' Hfree) as [Hle Hfirst].
        destruct Hbetter as [Hlt | [Hle' Hlt]].
        -- apply (Qlt_not_le _ _ Hlt Hle).
        -- apply (Qlt_not_le _ _ (Hfirst j eq_refl Hlt) Hle').
    + intros i' t' row' Hlt Hid' Hun Hrow' j' v' Hv' Hmin'.
      rewrite fmap_app, elem_of_app in Hun.
      destruct (decide (i' = i)) as [->|Hne].
      * exfalso. apply Hun. right. simpl. apply list_elem_of_singleton. congruence.
      * apply taken_mono.
        apply (Hb i' t' row' ltac:(lia) Hid' ltac:(tauto) Hrow' j' v' Hv' Hmin').
  - (* no free detection at all *)
    apply Hkeep; [done|]. intros j' v' Hv' Hmin'.
    destruct (decide (j' ∈ md)) as [?|Hfree]; [done|]. exfalso.
    destruct (Hbest j' v' Hv' Hfree) as [Hle _]. rewrite (Hnone eq_refl) in Hle.
    apply (Qle_not_lt _ _ (Qle_trans _ _ _ Hmin' Hle)). reflexivity.
  - (* the best free detection is below the threshold *)
    apply Hkeep; [done|]. intros j' v' Hv' Hmin'.
    destruct (decide (j' ∈ md)) as [?|Hfree]; [done|]. exfalso.
    destruct (Hbest j' v' Hv' Hfree) as [Hle _].
    assert (Hok : Qle_bool minIoU maxIoU = true).
    { apply Qle_bool_iff. by apply (Qle_trans _ v'). }
    congruence.
Qed.

Lemma matchRows_greedy (rows : list (list Q)) :
  ∀ i matched md,
    (∀ n, rows !! n = matrix !! (i + n)%nat) →
    (i + length rows ≤ length trackIds)%nat →
    matchInv trackIds matrix i matched md →
    greedyInv trackIds matrix i matched →
    greedyInv trackIds matrix (i + length rows) (matchRows trackIds rows i matched md).1.
Proof.
  induction rows as [|row rest IH]; intros i matched md Hrows Hlen Hinv Hg.
  { simpl. by rewrite Nat.add_0_r. }
  simpl in Hlen.
  assert (Hrest : ∀ n, rest !! n = matrix !! (S i + n)%nat).
  { intros n. replace (S i + n)%nat with (i + S n)%nat by lia. by rewrite <- Hrows. }
  assert (Hrow : matrix !! i = Some row).
  { rewrite <- (Nat.add_0_r i), <- Hrows. done. }
  destruct (lookup_lt_is_Some_2 trackIds i ltac:(lia)) as [t Hid].
  rewrite matchRows_step.
  replace (i + length (row :: rest))%nat with (S i + length rest)%nat by (simpl; lia).
  pose proof (matchRows_inv trackIds (take (S i) matrix) trackIds_NoDup [row] i matched md)
    as Hone.
  replace (i + length [row])%nat with (S i) in Hone by (simpl; lia).
  apply IH; [done | lia | |].
  - apply (matchInv_rows trackIds (take (S i) matrix)).
    { intros i' Hi'. by apply lookup_take_lt. }
    apply Hone; [|simpl; lia|].
    + intros [|n]; simpl.
      * rewrite Nat.add_0_r, lookup_take_lt by lia. done.
      * symmetry. apply lookup_take_ge. lia.
    + apply (matchInv_rows trackIds matrix); [|done].
      intros i' Hi'. symmetry. apply lookup_take_lt. lia.
  - by apply (matchRow_greedy row i t).
Qed.

End greedy.

Lemma Object_keys_sorted {V} (m : gmap nat V) (i i' k k' : nat) :
  Object_keys m !! i = Some k → Object_keys m !! i' = Some k' → (i < i')%nat → (k < k')%nat.
Proof.
  intros Hk Hk' Hlt.
  assert (Hs : StronglySorted Nat.le (Object_keys m)).
  { unfold Object_keys. apply StronglySorted_merge_sort; [apply _|].
    intros x y. destruct (decide (x ≤ y)%nat); [by left | right; unfold Nat.le; lia]. }
  pose proof (NoDup_Object_keys m) as Hnd.
  assert (Hle : (k ≤ k')%nat).
  { revert i i' Hk Hk' Hlt. induction Hs as [|a l Hs IH Hall]; intros i i' Hk Hk' Hlt; [done|].
    apply NoDup_cons in Hnd as [_ Hnd].
    destruct i as [|i]; destruct i' as [|i']; simpl in *; try lia.
    - injection Hk as ->. rewrite Forall_forall in Hall. apply Hall.
      by eapply list_elem_of_lookup_2.
    - apply (IH Hnd i i'); [done..|lia]. }
  destruct (decide (k = k')) as [->|?]; [|lia].
  pose proof (NoDup_lookup _ _ _ _ Hnd Hk Hk'). lia.
Qed.

Lemma calculateIoUMatrix_row (s : PersonTracker) (detections : list Detection)
    (i t : nat) (tr : Track) :
  Object_keys (tracks s) !! i = Some t → tracks s !! t = Some tr →
  calculateIoUMatrix s detections !! i
  = Some ((λ d, calculateIoU (bbox tr) (det_bbox d)) <$> detections).
Proof.
  intros Hi Ht. unfold calculateIoUMatrix.
  change (map ?f ?l) with (f <$> l).
  rewrite list_lookup_fmap, Object_values_lookup, Hi. simpl. by rewrite Ht.
Qed.

(** The matching as the loops leave it, for the tracks of [s]. *)
Lemma association_greedy (s : PersonTracker) (detections : list Detection) :
  greedyInv (Object_keys (tracks s)) (calculateIoUMatrix s detections)
            (length (Object_keys (tracks s))) (association s detections).1.
Proof.
  unfold association, matchDetectionsToTracks.
  destruct (length (calculateIoUMatrix s detections) =? 0)%nat eqn:E.
  { apply Nat.eqb_eq in E. rewrite calculateIoUMatrix_length in E. rewrite E. simpl.
    split; [by intros ? ? ? ? ? ?%not_elem_of_nil | intros; lia]. }
  pose proof (matchRows_greedy (Object_keys (tracks s)) (calculateIoUMatrix s detections)
                (NoDup_Object_keys _) (calculateIoUMatrix s detections) 0 [] ∅) as H.
  rewrite calculateIoUMatrix_length in H. simpl in H.
  destruct (matchRows _ _ 0 [] ∅) as [matched md]. simpl in *.
  apply H; [done | done | |].
  - split; [|split; [|split]]; simpl; try apply NoDup_nil_2.
    + intros j. split; intros Hj.
      * by apply not_elem_of_empty in Hj.
      * by apply not_elem_of_nil in Hj.
    + intros ? ? Hin. by apply not_elem_of_nil in Hin.
  - split; [by intros ? ? ? ? ? ?%not_elem_of_nil | intros; lia].
Qed.

(** X23: the matching is greedy in the order of the track ids. A paired
    track got the detection with the highest IoU, the first one of them,
    among those no track with a smaller id had taken: a detection with a
    higher IoU, or an equal one at a smaller index, is paired with a
    smaller id. A live track without a pair had no detection of IoU 0.3 or
    more left: each such detection is paired with a smaller id. *)
Theorem matching_is_greedy_in_track_order (s : PersonTracker)
    (detections : list Detection) :
  let pairs := (association s detections).1 in
  let iou (tr : Track) (d : Detection) := calculateIoU (bbox tr) (det_bbox d) in
  (∀ t j tr d j' d',
     (t, j) ∈ pairs → tracks s !! t = Some tr → detections !! j = Some d →
     detections !! j' = Some d' →
     (iou tr d < iou tr d' ∨ (iou tr d <= iou tr d' ∧ (j' < j)%nat))%Q →
     ∃ t', (t', j') ∈ pairs ∧ (t' < t)%nat) ∧
  (∀ t tr j' d',
     tracks s !! t = Some tr → t ∉ pairs.*1 → detections !! j' = Some d' →
     (minIoU <= iou tr d')%Q →
     ∃ t', (t', j') ∈ pairs ∧ (t' < t)%nat).
Proof.
  intros pairs iou. destruct (association_greedy s detections) as [Ha Hb]. fold pairs in Ha, Hb.
  assert (Hidx : ∀ t tr, tracks s !! t = Some tr →
            ∃ i, Object_keys (tracks s) !! i = Some t ∧
                 (i < length (Object_keys (tracks s)))%nat ∧
                 calculateIoUMatrix s detections !! i
                 = Some ((λ d, calculateIoU (bbox tr) (det_bbox d)) <$> detections)).
  { intros t tr Ht.
    assert (Hin : t ∈ Object_keys (tracks s)) by (apply elem_of_Object_keys; eauto).
    apply list_elem_of_lookup in Hin as [i Hi]. exists i. split; [done|].
    split; [by eapply lookup_lt_Some | exact (calculateIoUMatrix_row s detections i t tr Hi Ht)]. }
  assert (Hlift : ∀ t i j', Object_keys (tracks s) !! i = Some t →
            taken (Object_keys (tracks s)) pairs i j' → ∃ t', (t', j') ∈ pairs ∧ (t' < t)%nat).
  { intros t i j' Hi (t' & i' & Hin & Hlt & Hi'). exists t'. split; [done|].
    exact (Object_keys_sorted (tracks s) i' i t' t Hi' Hi Hlt). }
  split.
  - intros t j tr d j' d' Hin Ht Hd Hd' Hbetter.
    destruct (Hidx t tr Ht) as (i & Hi & _ & Hrow).
    apply (Hlift t i j' Hi).
    assert (Hv : ((λ d, calculateIoU (bbox tr) (det_bbox d)) <$> detections) !! j
                 = Some (iou tr d)) by (by rewrite list_lookup_fmap, Hd).
    assert (Hv' : ((λ d, calculateIoU (bbox tr) (det_bbox d)) <$> detections) !! j'
                  = Some (iou tr d')) by (by rewrite list_lookup_fmap, Hd').
    exact (Ha t j i _ (iou tr d) Hin Hi Hrow Hv j' (iou tr d') Hv' Hbetter).
  - intros t tr j' d' Ht Hun Hd' Hmin.
    destruct (Hidx t tr Ht) as (i & Hi & Hlt & Hrow).
    apply (Hlift t i j' Hi).
    assert (Hv' : ((λ d, calculateIoU (bbox tr) (det_bbox d)) <$> detections) !! j'
                  = Some (iou tr d')) by (by rewrite list_lookup_fmap, Hd').
    exact (Hb i t _ Hlt Hi Hun Hrow j' (iou tr d') Hv' Hmin).
Qed.

(** *** The theorems on a concrete run *)

Lemma IoU_of_a_box_with_itself_witness :
  (calculateIoU (0, 0, 10, 10)%Q (0, 0, 10, 10)%Q == 1)%Q.
Proof.
  apply IoU_of_a_box_with_itself; [by exists 0%Z | by exists 0%Z | | | reflexivity..];
    (exists 10%Z; split; [reflexivity | lia]).
Defined.

Lemma IoU_of_separate_boxes_witness :
  (calculateIoU (0, 0, 10, 10)%Q (100, 0, 10, 10)%Q == 0)%Q.
Proof. apply IoU_of_separate_boxes. left. by vm_compute. Defined.

Lemma matched_track_is_refreshed_witness :
  ∃ tr d, tracks TrackerScenario.twoTracks !! 1%nat = Some tr ∧
          TrackerScenario.crowded !! 0%nat = Some d ∧
          tracks (updateTracks TrackerScenario.twoTracks TrackerScenario.crowded 5).1 !! 1%nat
            = Some (updateTrack TrackerScenario.twoTracks tr d 5) ∧
          disappeared (updateTracks TrackerScenario.twoTracks TrackerScenario.crowded 5).1
            !! 1%nat = Some 0%nat ∧
          (1%nat, updateTrack TrackerScenario.twoTracks tr d 5)
            ∈ callbacks (updateTracks TrackerScenario.twoTracks TrackerScenario.crowded 5).2.
Proof.
  apply (matched_track_is_refreshed TrackerScenario.twoTracks TrackerScenario.crowded 5 1 0).
  - apply idsBelowNext_twoTracks.
  - assert (E : (association TrackerScenario.twoTracks TrackerScenario.crowded).1
                = [(1, 0); (2, 2)]%nat) by (by vm_compute).
    rewrite E. left.
Defined.

Lemma unseen_tracks_expire_witness :
  tracks (run TrackerScenario.twoTracks (replicate 16 ([], 10%Z))) = ∅.
Proof.
  apply unseen_tracks_expire.
  - by apply Forall_replicate.
  - rewrite length_replicate. vm_compute. lia.
Defined.

End TrackerFrameProofs.

(** ** The application *)

Module AppProofs.
Import App AppSpec.

Section tracker_side.
Import Tracker TrackerSpec TrackerProofs TrackerFrameSpec TrackerFrameProofs.

Lemma updateTrack_last_two (self : PersonTracker) (t : Track) (d : Detection) (now : Z)
    (e0 : HistoryEntry) :
  last (history t) = Some e0 → (2 ≤ historyLength self)%nat →
  ∃ l, history (updateTrack self t d now)
       = l ++ [e0; mkHistoryEntry now (det_bbox d) (centroid_of (det_bbox d)) (det_score d)].
Proof.
  intros Hl Hh. apply last_Some in Hl as [h0 Hh0].
  unfold updateTrack. simpl. rewrite Hh0, <- app_assoc. simpl.
  destruct (_ <? _)%nat eqn:E; [|by eexists].
  destruct h0 as [|a h0]; [|simpl; by eexists].
  apply Nat.ltb_lt in E. simpl in E. lia.
Qed.

Lemma checkOf_two (clock : Z) (k : nat) (t : Track) (l : list HistoryEntry)
    (e0 e : HistoryEntry) :
  history t = l ++ [e0; e] →
  checkOf clock (k, t) = Some (LineManager.mkCall k (centroid e0) (centroid e) clock).
Proof.
  intros H. unfold checkOf. rewrite H, length_app. simpl.
  replace (length l + 2 - 1)%nat with (length l + 1)%nat by lia.
  replace (length l + 2 - 2)%nat with (length l + 0)%nat by lia.
  rewrite !lookup_app_r by lia.
  replace (length l + 1 - length l)%nat with 1%nat by lia.
  replace (length l + 0 - length l)%nat with 0%nat by lia.
  replace (length l + 2)%nat with (S (S (length l))) by lia. done.
Qed.

Lemma checkOf_short (clock : Z) (k : nat) (t : Track) :
  (length (history t) ≤ 1)%nat → checkOf clock (k, t) = None.
Proof.
  intros H. unfold checkOf.
  by replace (2 <=? length (history t))%nat with false by (symmetry; apply Nat.leb_gt; lia).
Qed.

Lemma omap_ext_in {A B} (f g : A → option B) (l : list A) :
  (∀ x, x ∈ l → f x = g x) → omap f l = omap g l.
Proof.
  induction l as [|a l IH]; intros H; [done|].
  assert (Hl : omap f l = omap g l) by (apply IH; intros x Hx; apply H; by right).
  simpl. rewrite (H a) by (by left). destruct (g a); [f_equal|]; exact Hl.
Qed.

Lemma omap_omap {A B C} (f : A → option B) (g : B → option C) (l : list A) :
  omap g (omap f l) = omap (λ x, f x ≫= g) l.
Proof.
  induction l as [|a l IH]; [done|]. simpl.
  destruct (f a) as [b|]; simpl; [|exact IH]. destruct (g b); [f_equal|]; exact IH.
Qed.

Lemma omap_none {A B} (f : A → option B) (l : list A) :
  (∀ x, x ∈ l → f x = None) → omap f l = [].
Proof.
  induction l as [|a l IH]; intros H; [done|].
  assert (Hl : omap f l = []) by (apply IH; intros x Hx; apply H; by right).
  simpl. rewrite (H a) by (by left). exact Hl.
Qed.

(** X24: the crossing checks the application makes in a frame, for a
    tracker that started new: when [historyLength] is 2 or more, one check
    per pair of the matching, in order, from the centre of the box the
    track had to the centre of the box of its detection; when
    [historyLength] is 1, no check at all, so nothing is ever counted. *)
Theorem crossing_checks_of_a_frame (options : Options) (frames : list (list Detection * Z))
    (detections : list Detection) (now clock : Z) :
  let s := run (constructor options) frames in
  let r := updateTracks s detections now in
  omap (checkOf clock) (callbacks r.2)
  = if (2 <=? historyLength s)%nat
    then omap (motionOf s detections clock) (association s detections).1
    else [].
Proof.
  intros s r.
  assert (Htidy : tidy s).
  { apply tidy_run. split; intros k x H; simpl in H; by rewrite lookup_empty in H. }
  destruct (run_historyWithin frames (constructor options)) as [Hh Hall].
  { simpl. by destruct (opt_historyLength options) as [[|n]|]; simpl; lia. }
  { intros k' t' H. simpl in H. by rewrite lookup_empty in H. }
  fold s in Hh, Hall. rewrite <- Hh in Hall.
  destruct (updateTracks_report s detections now) as [Hcb _]. fold r in Hcb.
  rewrite Hcb, omap_omap. destruct (2 <=? historyLength s)%nat eqn:E.
  - apply Nat.leb_le in E. apply omap_ext_in. intros [t j] _.
    unfold refreshed, motionOf. cbn [fst snd].
    destruct (detections !! j) as [d|]; [|done].
    destruct (tracks s !! t) as [tr|] eqn:Htr; [|done]. cbn [mbind option_bind].
    destruct Htidy as [Ht _]. destruct (Ht t tr Htr) as (_ & e0 & Hl & _ & Hc).
    destruct (updateTrack_last_two s tr d now e0 Hl E) as [l Hl'].
    rewrite (checkOf_two clock t _ l e0 _ Hl'). simpl. by rewrite Hc.
  - apply Nat.leb_gt in E. apply omap_none. intros [t j] _.
    unfold refreshed. cbn [fst snd].
    destruct (detections !! j) as [d|]; [|done].
    destruct (tracks s !! t) as [tr|] eqn:Htr; [|done]. cbn [mbind option_bind].
    apply checkOf_short.
    pose proof (updateTrack_historyWithin s tr d now (Hall t tr Htr)) as [_ H]. lia.
Qed.



Lemma processFrame_tracker (app : CountInApp) (outcome : DetectorOutcome) (now clock : Z) :
  isRunning app = true → isModelLoaded (tracker app) = true →
  let app' := App.processFrame app outcome now clock in
  isRunning app' = true ∧ frameCount app' = S (frameCount app) ∧
  tracker app'
  = (if (S (frameCount app) mod detectionInterval =? 0)%nat
     then (updateTracks (tracker app) (detectPeople (tracker app) outcome) now).1
     else tracker app).
Proof.
  intros Hrun Hloaded. unfold App.processFrame. rewrite Hrun. cbn [negb].
  destruct (_ =? 0)%nat; [|done].
  unfold Tracker.processFrame. rewrite Hloaded. cbn [negb].
  destruct (updateTracks _ _ _) as [tracker' result]. cbn [fst].
  by destruct (fold_left _ _ _) as [lm c].
Qed.

Lemma detectPeople_ext (s s' : PersonTracker) (outcome : DetectorOutcome) :
  confidenceThreshold s = confidenceThreshold s' → detectPeople s outcome = detectPeople s' outcome.
Proof. intros H. unfold detectPeople. by rewrite H. Qed.

(** X25: while the application is counting with a loaded model, its
    tracker is the tracker run over every third frame delivered, the
    frames in between only advance [frameCount]. *)
Theorem tracker_sees_every_third_frame (app : CountInApp)
    (frames : list (DetectorOutcome * Z * Z)) :
  isRunning app = true → isModelLoaded (tracker app) = true →
  tracker (runFrames app frames)
  = run (tracker app)
        ((λ f, (detectPeople (tracker app) f.1.1, f.1.2))
           <$> everyThird (frameCount app) frames).
Proof.
  revert app. induction frames as [|[[outcome now] clock] frames IH]; intros app Hrun Hloaded.
  { done. }
  destruct (processFrame_tracker app outcome now clock Hrun Hloaded) as (Hrun' & Hn & Ht).
  change (runFrames app ((outcome, now, clock) :: frames))
    with (runFrames (App.processFrame app outcome now clock) frames).
  destruct (updateTracks_config (tracker app) (detectPeople (tracker app) outcome) now)
    as [Hc _].
  cbn [everyThird].
  assert (Hsame : ∀ o, detectPeople (tracker (App.processFrame app outcome now clock)) o
                       = detectPeople (tracker app) o).
  { intros o. rewrite Ht. destruct (_ =? 0)%nat; [|done].
    apply detectPeople_ext. unfold config in Hc. congruence. }
  rewrite IH; [|done|].
  - rewrite Hn. erewrite list_fmap_ext; [|intros i f _; by rewrite Hsame].
    rewrite Ht. by destruct (_ =? 0)%nat.
  - rewrite Ht. destruct (_ =? 0)%nat; [|done]. unfold config in Hc. congruence.
Qed.

End tracker_side.

Section manager_side.
Import LineManager LineManagerSpec Registry RegistrySpec RegistryProofs.

Lemma runChecks_app (cs1 cs2 : list Call) :
  ∀ lm, runChecks lm (cs1 ++ cs2)
        = ((runChecks (runChecks lm cs1).1 cs2).1,
           (runChecks lm cs1).2 ++ (runChecks (runChecks lm cs1).1 cs2).2).
Proof.
  induction cs1 as [|c cs1 IH]; intros lm; simpl.
  { by destruct (runChecks lm cs2). }
  destruct (checkLineCrossings lm _ _ _ _) as [lm1 ev]. rewrite IH.
  destruct (runChecks lm1 cs1) as [lm2 evs]. simpl.
  destruct (runChecks lm2 cs2) as [lm3 evs']. simpl. by rewrite app_assoc.
Qed.

(** The calls of [onTrackUpdated] of one frame, as one run of checks. *)
Lemma onTrackUpdated_fold (clock : Z) (cbs : list (nat * Tracker.Track)) :
  ∀ lm c,
    fold_left (λ st cb, onTrackUpdated st clock cb) cbs (lm, c)
    = ((runChecks lm (omap (checkOf clock) cbs)).1,
       fold_left onLineCrossed (runChecks lm (omap (checkOf clock) cbs)).2 c).
Proof.
  induction cbs as [|cb cbs IH]; intros lm c; [done|].
  cbn [fold_left]. unfold onTrackUpdated at 2. cbn [fst snd].
  change (omap (checkOf clock) (cb :: cbs))
    with (match checkOf clock cb with
          | Some x => x :: omap (checkOf clock) cbs
          | None => omap (checkOf clock) cbs
          end).
  destruct (checkOf clock cb) as [call|]; [|apply IH].
  cbn [runChecks].
  destruct (checkLineCrossings lm _ _ _ _) as [lm1 ev]. rewrite IH.
  destruct (runChecks lm1 _) as [lm2 evs]. cbn [fst snd]. by rewrite fold_left_app.
Qed.

Lemma processFrame_checks (app : CountInApp) (outcome : Tracker.DetectorOutcome)
    (now clock : Z) :
  ∃ cs, lineManager (processFrame app outcome now clock)
        = (runChecks (lineManager app) cs).1 ∧
        counts (processFrame app outcome now clock)
        = fold_left onLineCrossed (runChecks (lineManager app) cs).2 (counts app).
Proof.
  unfold processFrame.
  destruct (negb (isRunning app)); [by exists []|].
  destruct (_ =? 0)%nat; [|by exists []].
  destruct (Tracker.processFrame _ _ _) as [err|[tracker' result]]; [by exists []|].
  exists (omap (checkOf clock) (Tracker.callbacks result)).
  rewrite onTrackUpdated_fold. done.
Qed.

Lemma runFrames_checks (frames : list (Tracker.DetectorOutcome * Z * Z)) :
  ∀ app, ∃ cs, lineManager (runFrames app frames) = (runChecks (lineManager app) cs).1 ∧
               counts (runFrames app frames)
               = fold_left onLineCrossed (runChecks (lineManager app) cs).2 (counts app).
Proof.
  induction frames as [|[[outcome now] clock] frames IH]; intros app; [by exists []|].
  change (runFrames app ((outcome, now, clock) :: frames))
    with (runFrames (processFrame app outcome now clock) frames).
  destruct (processFrame_checks app outcome now clock) as (cs1 & Hl1 & Hc1).
  destruct (IH (processFrame app outcome now clock)) as (cs2 & Hl2 & Hc2).
  exists (cs1 ++ cs2). rewrite runChecks_app. cbn [fst snd].
  rewrite Hl2, Hc2, Hl1, Hc1, fold_left_app. done.
Qed.

Lemma runChecks_registry (cs : list Call) :
  ∀ lm, registryOk lm →
    registryOk (runChecks lm cs).1 ∧ id <$> lines (runChecks lm cs).1 = id <$> lines lm.
Proof.
  induction cs as [|c cs IH]; intros lm Hok; [done|]. simpl.
  pose proof (registryOk_checkLineCrossings lm (call_person c) (call_prev c) (call_curr c)
                (call_now c) Hok) as Hok1.
  destruct (checkLineCrossings_effect lm (call_person c) (call_prev c) (call_curr c)
              (call_now c)) as (_ & Hs & _).
  apply skeleton_ids in Hs.
  destruct (checkLineCrossings lm _ _ _ _) as [lm1 ev]. simpl in *.
  destruct (IH lm1 Hok1) as [Hok2 Hids].
  destruct (runChecks lm1 cs) as [lm2 evs]. simpl in *. split; [done | congruence].
Qed.

Lemma sum_indicator (ids : list nat) (k : nat) :
  NoDup ids → k ∈ ids →
  sum_list ((λ k', if bool_decide (k = k') then 1 else 0)%nat <$> ids) = 1%nat.
Proof.
  induction ids as [|a ids IH]; intros Hnd Hk; [by apply not_elem_of_nil in Hk|].
  apply NoDup_cons in Hnd as [Ha Hnd]. rewrite fmap_cons. simpl.
  case_bool_decide as E.
  - subst a. f_equal. clear IH Hk Hnd. induction ids as [|b ids IH]; [done|].
    apply not_elem_of_cons in Ha as [Hne Ha]. rewrite fmap_cons. simpl.
    rewrite bool_decide_eq_false_2 by done. by apply IH.
  - apply elem_of_cons in Hk as [?|Hk]; [done|]. by apply IH.
Qed.

Lemma sum_list_zero {A} (l : list A) : sum_list ((λ _, 0%nat) <$> l) = 0%nat.
Proof. induction l; [done|]. by rewrite fmap_cons. Qed.

Lemma sum_list_plus {A} (f g : A → nat) (l : list A) :
  sum_list ((λ x, f x + g x)%nat <$> l) = (sum_list (f <$> l) + sum_list (g <$> l))%nat.
Proof. induction l as [|a l IH]; [done|]. rewrite !fmap_cons. simpl. lia. Qed.

(** Over the ids of a consistent registry every event is counted for
    exactly one boundary. *)
Lemma sum_countEvents (ids : list nat) (d : Direction) (evs : list CrossingEvent) :
  NoDup ids → (∀ e, e ∈ evs → ev_lineId e ∈ ids) →
  sum_list ((λ k, countEvents d k evs) <$> ids)
  = length (filter (λ e, Direction_eqb (ev_direction e) d = true) evs).
Proof.
  intros Hnd. induction evs as [|e evs IH]; intros Hev.
  { unfold countEvents. simpl. apply sum_list_zero. }
  assert (Hone : ∀ k, countEvents d k (e :: evs)
                      = (countEvents d k [e] + countEvents d k evs)%nat).
  { intros k. apply (countEvents_app d k [e] evs). }
  erewrite list_fmap_ext; [|intros i k _; apply Hone].
  rewrite sum_list_plus, IH by (intros e' He'; apply Hev; by right).
  rewrite filter_cons.
  erewrite list_fmap_ext; [|intros i k _; apply countEvents_one].
  destruct (Direction_eqb (ev_direction e) d) eqn:Hd.
  - rewrite decide_True by done. simpl.
    erewrite list_fmap_ext; [|intros i k _; by rewrite andb_true_r].
    rewrite sum_indicator; [done | done |]. apply Hev. by left.
  - rewrite decide_False by (by intros ?). 
    erewrite list_fmap_ext; [|intros i k _; by rewrite andb_false_r].
    by rewrite sum_list_zero.
Qed.

Lemma sumCounters_runChecks (lm : LineManager) (cs : list Call) (d : Direction) :
  registryOk lm →
  sumCounters d (runChecks lm cs).1
  = (sumCounters d lm
     + length (filter (λ e, Direction_eqb (ev_direction e) d = true) (runChecks lm cs).2))%nat.
Proof.
  intros Hok. destruct (runChecks_registry cs lm Hok) as [_ Hids].
  destruct (runChecks_effect lm cs) as [Hcnt Hev].
  pose proof Hok as (Hnd & _).
  unfold sumCounters.
  rewrite (list_fmap_compose id (λ k, counterOf d k (runChecks lm cs).1)), Hids.
  erewrite list_fmap_ext; [|intros i k _; apply Hcnt].
  rewrite sum_list_plus, <- list_fmap_compose. f_equal.
  apply sum_countEvents; [done|].
  intros e He. destruct (Hev e He) as (_ & _ & _ & _ & b & Hb & <- & _).
  apply list_elem_of_fmap. by exists b.
Qed.

Lemma onLineCrossed_fold (evs : list CrossingEvent) :
  ∀ c, let c' := fold_left onLineCrossed evs c in
       (∀ d, totalOf d c'
             = (totalOf d c
                + length (filter (λ e, Direction_eqb (ev_direction e) d = true) evs))%nat) ∧
       (total c = (total_in c + total_out c)%nat →
        total c' = (total_in c' + total_out c')%nat).
Proof.
  induction evs as [|e evs IH]; intros c.
  { simpl. split; [intros d; lia | done]. }
  cbn [fold_left]. destruct (IH (onLineCrossed c e)) as [IHd IHt]. split.
  - intros d. rewrite IHd, filter_cons. unfold onLineCrossed.
    destruct (ev_direction e), d; simpl; lia.
  - intros _. apply IHt. unfold onLineCrossed. by destruct (ev_direction e).
Qed.

(** X26: over any sequence of frames the totals of the application advance
    with the counters of the manager: for each direction, the total grew
    by as much as the sum of the counters of the boundaries did,
    [total] stays the sum of ['in'] and ['out'], and the registry stays
    consistent. *)
Theorem totals_advance_with_the_counters (app : CountInApp)
    (frames : list (Tracker.DetectorOutcome * Z * Z)) :
  registryOk (lineManager app) →
  total (counts app) = (total_in (counts app) + total_out (counts app))%nat →
  let app' := runFrames app frames in
  (∀ d, (totalOf d (counts app') + sumCounters d (lineManager app)
         = totalOf d (counts app) + sumCounters d (lineManager app'))%nat) ∧
  total (counts app') = (total_in (counts app') + total_out (counts app'))%nat ∧
  registryOk (lineManager app').
Proof.
  intros Hok Htot app'.
  destruct (runFrames_checks frames app) as (cs & Hl & Hc). fold app' in Hl, Hc.
  destruct (onLineCrossed_fold (runChecks (lineManager app) cs).2 (counts app)) as [Hd Ht].
  rewrite <- Hc in Hd, Ht.
  split; [|split; [by apply Ht|]].
  - intros d. rewrite Hd, Hl, (sumCounters_runChecks _ cs d Hok). lia.
  - rewrite Hl. by apply runChecks_registry.
Qed.

End manager_side.

(** *** The theorems on a walk across the test line *)

Lemma tracker_sees_every_third_frame_witness :
  tracker (runFrames AppScenario.counting AppScenario.walk)
  = Tracker.run (tracker AppScenario.counting)
      ((λ f, (Tracker.detectPeople (tracker AppScenario.counting) f.1.1, f.1.2))
         <$> everyThird (frameCount AppScenario.counting) AppScenario.walk).
Proof.
  exact (tracker_sees_every_third_frame AppScenario.counting AppScenario.walk eq_refl eq_refl).
Defined.

Lemma registryOk_withTestLine : RegistrySpec.registryOk Scenario.withTestLine.
Proof.
  destruct (RegistryProofs.registryOk_addLine Scenario.manager Scenario.testLine) as [H _];
    [simpl; lia | apply RegistryProofs.registryOk_constructor | exact H].
Qed.

Lemma totals_advance_with_the_counters_witness :
  let app' := runFrames AppScenario.counting AppScenario.walk in
  (∀ d, (totalOf d (counts app') + sumCounters d (lineManager AppScenario.counting)
         = totalOf d (counts AppScenario.counting) + sumCounters d (lineManager app'))%nat) ∧
  total (counts app') = (total_in (counts app') + total_out (counts app'))%nat ∧
  RegistrySpec.registryOk (lineManager app').
Proof.
  exact (totals_advance_with_the_counters AppScenario.counting AppScenario.walk
           registryOk_withTestLine eq_refl).
Defined.

Lemma walk_is_counted : total (counts (runFrames AppScenario.counting AppScenario.walk)) = 1%nat.
Proof. by vm_compute. Qed.

End AppProofs.
